(** * ChafaSymbolMap: the symbol selection of chafa-symbol-map.c

    A shallow embedding of [src/chafa/chafa-symbol-map.c] and the
    properties of its selector parser, its derived index, its copy
    operation, its calls by tags and its reference counting.

    C strings are [string]s read up to their NUL terminator, GLib hash
    tables and symbol arrays live in an explicit heap addressed by
    pointers, and the functions of the file are written in a small state
    monad over that heap whose failure outcome stands for undefined
    behaviour (a NULL or dangling pointer handed to GLib or libc). *)

From Stdlib Require Import ZArith String Ascii List Lia.
From stdpp Require Import base numbers option list sorting strings gmap.

Local Open Scope Z_scope.
#[local] Set Warnings "-clear-no-such-hyp".

(** ** C strings *)

(** [code ch] is [(gint) (guchar) ch]. *)
Definition code (ch : ascii) : Z := Z.of_N (N_of_ascii ch).

(** [*p]: the character a [const gchar *] points to; the end of the Rocq
    string is the NUL terminator. *)
Definition deref (p : string) : ascii :=
  match p with
  | EmptyString => Ascii.zero
  | String ch _ => ch
  end.

(** [!*p] *)
Definition at_nul (p : string) : bool := code (deref p) =? 0.

(** [p + n] *)
Fixpoint advance (n : nat) (p : string) : string :=
  match n, p with
  | O, _ => p
  | S n', String _ p' => advance n' p'
  | S _, EmptyString => EmptyString
  end.

(** [strchr (accept, ch) != NULL] for a character [ch] that is not NUL. *)
Fixpoint char_in (ch : ascii) (accept : string) : bool :=
  match accept with
  | EmptyString => false
  | String a accept' => Ascii.eqb ch a || char_in ch accept'
  end.

(** [strspn (s, accept)]: the length of the initial segment of [s] made of
    characters of [accept]. The terminator is never part of it. *)
Fixpoint strspn (s accept : string) : nat :=
  match s with
  | EmptyString => O
  | String ch s' =>
      if negb (code ch =? 0) && char_in ch accept then S (strspn s' accept) else O
  end.

(** The first [n] characters of the string at [p]: the slice that
    [(p, n)] denotes, as printed by ["%.*s"]. *)
Fixpoint slice (n : nat) (p : string) : string :=
  match n, p with
  | O, _ => EmptyString
  | S n', String ch p' =>
      if code ch =? 0 then EmptyString else String ch (slice n' p')
  | S _, EmptyString => EmptyString
  end.

(** GLib's [g_ascii_tolower]. *)
Definition g_ascii_tolower (ch : ascii) : ascii :=
  if (code "A" <=? code ch) && (code ch <=? code "Z")
  then ascii_of_N (N_of_ascii ch - N_of_ascii "A" + N_of_ascii "a")
  else ch.

(** GLib's [g_ascii_strncasecmp (s1, s2, n)]: compares at most [n]
    characters, stopping at the first difference or at either
    terminator. *)
Fixpoint g_ascii_strncasecmp (s1 s2 : string) (n : nat) : Z :=
  match n with
  | O => 0
  | S n' =>
      if at_nul s1 || at_nul s2
      then code (deref s1) - code (deref s2)
      else
        let c1 := code (g_ascii_tolower (deref s1)) in
        let c2 := code (g_ascii_tolower (deref s2)) in
        if c1 =? c2
        then g_ascii_strncasecmp (advance 1 s1) (advance 1 s2) n'
        else c1 - c2
  end.

(** ** Symbols and tags *)

(** [ChafaSymbolTags] is a C enum, an integer used as a bit mask. *)
Definition ChafaSymbolTags := Z.

(** Modelled from the spec: the values of the [ChafaSymbolTags] enum are
    declared in chafa.h, which is not among the sources. The spec names
    the fifteen constants of the tag bitmask; their numeric values are a
    parameter of the development. *)
Class TagValues := {
  CHAFA_SYMBOL_TAG_NONE : ChafaSymbolTags;
  CHAFA_SYMBOL_TAG_SPACE : ChafaSymbolTags;
  CHAFA_SYMBOL_TAG_SOLID : ChafaSymbolTags;
  CHAFA_SYMBOL_TAG_STIPPLE : ChafaSymbolTags;
  CHAFA_SYMBOL_TAG_BLOCK : ChafaSymbolTags;
  CHAFA_SYMBOL_TAG_BORDER : ChafaSymbolTags;
  CHAFA_SYMBOL_TAG_DIAGONAL : ChafaSymbolTags;
  CHAFA_SYMBOL_TAG_DOT : ChafaSymbolTags;
  CHAFA_SYMBOL_TAG_QUAD : ChafaSymbolTags;
  CHAFA_SYMBOL_TAG_HHALF : ChafaSymbolTags;
  CHAFA_SYMBOL_TAG_VHALF : ChafaSymbolTags;
  CHAFA_SYMBOL_TAG_HALF : ChafaSymbolTags;
  CHAFA_SYMBOL_TAG_INVERTED : ChafaSymbolTags;
  CHAFA_SYMBOL_TAG_BRAILLE : ChafaSymbolTags;
  CHAFA_SYMBOL_TAG_ALL : ChafaSymbolTags
}.

(** Modelled from the spec: [ChafaSymbol] is declared in chafa-private.h,
    which is not among the sources. Of a catalog entry this file reads
    the tag bitmask [sc] and the codepoint [c] (a [gunichar], unsigned
    32 bits); the glyph data of the record is not modelled. *)
Record ChafaSymbol := mkSymbol { sc : ChafaSymbolTags; c : Z }.

Global Instance ChafaSymbol_eq_dec : EqDecision ChafaSymbol.
Proof. solve_decision. Defined.

(** A [ChafaSymbol] of zero bytes, as [memset] leaves it: the sentinel. *)
Definition zero_symbol : ChafaSymbol := {| sc := 0; c := 0 |}.

(** The error that [g_set_error] stores: domain [G_OPTION_ERROR], code
    [G_OPTION_ERROR_BAD_VALUE], and the formatted message. *)
Inductive GError := G_OPTION_ERROR_BAD_VALUE (message : string).

Definition SymMapping : Type := string * ChafaSymbolTags.

Section Vocabulary.
Context {tv : TagValues}.

(** The table [map] of [parse_symbol_tag], without its NULL end mark. *)
Definition map : list SymMapping :=
  [ ("all"%string, CHAFA_SYMBOL_TAG_ALL);
    ("none"%string, CHAFA_SYMBOL_TAG_NONE);
    ("space"%string, CHAFA_SYMBOL_TAG_SPACE);
    ("solid"%string, CHAFA_SYMBOL_TAG_SOLID);
    ("stipple"%string, CHAFA_SYMBOL_TAG_STIPPLE);
    ("block"%string, CHAFA_SYMBOL_TAG_BLOCK);
    ("border"%string, CHAFA_SYMBOL_TAG_BORDER);
    ("diagonal"%string, CHAFA_SYMBOL_TAG_DIAGONAL);
    ("dot"%string, CHAFA_SYMBOL_TAG_DOT);
    ("quad"%string, CHAFA_SYMBOL_TAG_QUAD);
    ("half"%string, CHAFA_SYMBOL_TAG_HALF);
    ("hhalf"%string, CHAFA_SYMBOL_TAG_HHALF);
    ("vhalf"%string, CHAFA_SYMBOL_TAG_VHALF);
    ("inverted"%string, CHAFA_SYMBOL_TAG_INVERTED);
    ("braille"%string, CHAFA_SYMBOL_TAG_BRAILLE) ].

(** The loop of [parse_symbol_tag] over the rows of the table. *)
Fixpoint parse_symbol_tag_from (rows : list SymMapping) (name : string) (len : nat)
  : option ChafaSymbolTags :=
  match rows with
  | [] => None
  | (row_name, row_sc) :: rows' =>
      if g_ascii_strncasecmp row_name name len =? 0
      then Some row_sc
      else parse_symbol_tag_from rows' name len
  end.

(** [parse_symbol_tag (name, len, &sc, error)]: [inl sc] is the return
    value TRUE with [*sc_out = sc], [inr e] is FALSE with [*error = e]. *)
Definition parse_symbol_tag (name : string) (len : nat) : ChafaSymbolTags + GError :=
  match parse_symbol_tag_from map name len with
  | Some sc => inl sc
  | None =>
      inr (G_OPTION_ERROR_BAD_VALUE
             ("Unrecognized symbol tag '" +:+ slice len name +:+ "'."))
  end.
End Vocabulary.

(** ** The heap: GLib hash tables and symbol arrays *)

Definition pointer := positive.

(** A [GHashTable] created with [g_direct_hash] and used as a set of
    catalog indices is the finite set of its keys. An array of
    [ChafaSymbol] is the list of its slots; a slot that was never written
    is [None]. *)
Record Heap := mkHeap {
  hash_tables : gmap pointer (gset nat);
  symbol_arrays : gmap pointer (list (option ChafaSymbol))
}.

Definition empty_heap : Heap := mkHeap ∅ ∅.

(** What a call leaves behind: a value and the heap after it, undefined
    behaviour, or a loop that was cut short by its bound. *)
Inductive Outcome (A : Type) : Type :=
  | Done (a : A) (h : Heap)
  | Undefined
  | OutOfFuel.
Arguments Done {A} a h.
Arguments Undefined {A}.
Arguments OutOfFuel {A}.

Definition M (A : Type) : Type := Heap → Outcome A.

Definition ret {A} (a : A) : M A := λ h, Done a h.

Definition bind {A B} (m : M A) (f : A → M B) : M B := λ h,
  match m h with
  | Done a h' => f a h'
  | Undefined => Undefined
  | OutOfFuel => OutOfFuel
  end.

Definition undefined {A} : M A := λ _, Undefined.

Notation "'let*' x := m 'in' f" := (bind m (λ x, f))
  (at level 10, x name, m at level 100, f at level 200).
Notation "m ;; f" := (bind m (λ _, f))
  (at level 100, f at level 200, right associativity).

Definition set_tables (t : gmap pointer (gset nat)) (h : Heap) : Heap :=
  mkHeap t (symbol_arrays h).

Definition set_arrays (a : gmap pointer (list (option ChafaSymbol))) (h : Heap) : Heap :=
  mkHeap (hash_tables h) a.

(** [g_hash_table_new (g_direct_hash, g_direct_equal)] *)
Definition g_hash_table_new : M pointer := λ h,
  let p := fresh (dom (hash_tables h)) in
  Done p (set_tables (<[p := ∅]> (hash_tables h)) h).

(** The tables of this file are never shared: their reference count is 1
    from [g_hash_table_new] on, and [g_hash_table_unref] destroys them. *)
Definition g_hash_table_unref (ht : pointer) : M unit := λ h,
  match hash_tables h !! ht with
  | Some _ => Done tt (set_tables (delete ht (hash_tables h)) h)
  | None => Undefined
  end.

Definition update_table (ht : pointer) (f : gset nat → gset nat) : M unit := λ h,
  match hash_tables h !! ht with
  | Some keys => Done tt (set_tables (<[ht := f keys]> (hash_tables h)) h)
  | None => Undefined
  end.

(** [g_hash_table_add (ht, GINT_TO_POINTER (key))] *)
Definition g_hash_table_add (ht : pointer) (key : nat) : M unit :=
  update_table ht (λ keys, {[key]} ∪ keys).

(** [g_hash_table_insert (ht, key, value)]; in a table used as a set the
    value is the key. *)
Definition g_hash_table_insert (ht : pointer) (key value : nat) : M unit :=
  update_table ht (λ keys, {[key]} ∪ keys).

(** [g_hash_table_remove (ht, GINT_TO_POINTER (key))] *)
Definition g_hash_table_remove (ht : pointer) (key : nat) : M unit :=
  update_table ht (λ keys, keys ∖ {[key]}).

(** [g_hash_table_size]: on NULL its [g_return_val_if_fail] returns 0. *)
Definition g_hash_table_size (ht : option pointer) : M nat := λ h,
  match ht with
  | None => Done O h
  | Some p =>
      match hash_tables h !! p with
      | Some keys => Done (size keys) h
      | None => Undefined
      end
  end.

(** [g_hash_table_iter_init] followed by [g_hash_table_iter_next] until it
    returns FALSE: the keys of the table, in the table's order. On NULL
    [g_hash_table_iter_init] returns without setting up the iterator, and
    [g_hash_table_iter_next] reads it uninitialised. *)
Definition g_hash_table_iter (ht : option pointer) : M (list nat) := λ h,
  match ht with
  | None => Undefined
  | Some p =>
      match hash_tables h !! p with
      | Some keys => Done (elements keys) h
      | None => Undefined
      end
  end.

(** [g_free]: a no-op on NULL. *)
Definition g_free (p : option pointer) : M unit := λ h,
  match p with
  | None => Done tt h
  | Some q =>
      match symbol_arrays h !! q with
      | Some _ => Done tt (set_arrays (delete q (symbol_arrays h)) h)
      | None => Undefined
      end
  end.

(** [g_new (ChafaSymbol, n)]: [n] slots, none of them written. *)
Definition g_new (n : nat) : M pointer := λ h,
  let q := fresh (dom (symbol_arrays h)) in
  Done q (set_arrays (<[q := replicate n None]> (symbol_arrays h)) h).

(** [base [i] = sym] *)
Definition store (base : pointer) (i : nat) (sym : ChafaSymbol) : M unit := λ h,
  match symbol_arrays h !! base with
  | Some slots =>
      if decide (i < length slots)%nat
      then Done tt (set_arrays (<[base := <[i := Some sym]> slots]> (symbol_arrays h)) h)
      else Undefined
  | None => Undefined
  end.

(** [base [i]], read *)
Definition load (base : option pointer) (i : nat) : M ChafaSymbol := λ h,
  match base with
  | None => Undefined
  | Some q =>
      match symbol_arrays h !! q with
      | Some slots =>
          match slots !! i with
          | Some (Some sym) => Done sym h
          | _ => Undefined
          end
      | None => Undefined
      end
  end.

(** [compare_symbols (a, b)] *)
Definition compare_symbols (a_sym b_sym : ChafaSymbol) : Z :=
  if c a_sym <? c b_sym then -1
  else if c a_sym >? c b_sym then 1
  else 0.

(** The order that a comparator hands to [qsort]. *)
Definition compar_le (compar : ChafaSymbol → ChafaSymbol → Z) : relation ChafaSymbol :=
  λ a b, compar a b ≤ 0.

Global Instance compar_le_dec compar a b : Decision (compar_le compar a b).
Proof. unfold compar_le. apply _. Defined.

(** [qsort (base, nmemb, sizeof (ChafaSymbol), compar)]: the first [nmemb]
    slots, all of them written, are put in the comparator's order. *)
Definition qsort (base : pointer) (nmemb : nat)
    (compar : ChafaSymbol → ChafaSymbol → Z) : M unit := λ h,
  match symbol_arrays h !! base with
  | Some slots =>
      if decide (nmemb ≤ length slots)%nat
      then
        match mapM id (take nmemb slots) with
        | Some syms =>
            Done tt (set_arrays
                       (<[base := (Some <$> merge_sort (compar_le compar) syms)
                                  ++ drop nmemb slots]> (symbol_arrays h)) h)
        | None => Undefined
        end
      else Undefined
  | None => Undefined
  end.

(** ** ChafaSymbolMap *)

(** Modelled from the spec: [struct ChafaSymbolMap] is declared in
    chafa-private.h, which is not among the sources; these are the fields
    the file uses. [n_symbols] is a count of catalog indices. *)
Record ChafaSymbolMap := mkSymbolMap {
  refs : Z;
  need_rebuild : bool;
  desired_symbols : option pointer;
  symbols : option pointer;
  n_symbols : nat
}.

Global Instance ChafaSymbolMap_eq_dec : EqDecision ChafaSymbolMap.
Proof. solve_decision. Defined.

(** The state of the loop of [parse_selectors]. *)
Record ParseState := mkParseState {
  p0 : string;
  is_add : bool;
  is_remove : bool;
  new_syms : option pointer
}.

(** How one turn of the loop of [parse_selectors] ends. *)
Inductive Flow :=
  | Next (st : ParseState)
  | Break (st : ParseState)
  | GotoOut (st : ParseState) (error : GError).

Section SymbolMap.
Context {tv : TagValues}.

(** The global array [chafa_symbols], given by the entries that precede
    its last entry, which is all zero. *)
Variable chafa_symbols : list ChafaSymbol.

(** [chafa_symbols [i]]; an index past the last entry is out of bounds. *)
Definition chafa_symbols_at (i : nat) : option ChafaSymbol :=
  (chafa_symbols ++ [zero_symbol]) !! i.

(** The loop [for (i = 0; chafa_symbols [i].c != 0; i++)] of
    [add_by_tags], from entry [i] on. *)
Fixpoint add_by_tags_from (syms : list ChafaSymbol) (i : nat)
    (sym_ht : pointer) (tags : ChafaSymbolTags) : M unit :=
  match syms with
  | [] => ret tt
  | sym :: syms' =>
      if c sym =? 0 then ret tt
      else
        (if Z.land (sc sym) tags =? 0 then ret tt
         else g_hash_table_add sym_ht i) ;;
        add_by_tags_from syms' (S i) sym_ht tags
  end.

Definition add_by_tags (sym_ht : pointer) (tags : ChafaSymbolTags) : M unit :=
  add_by_tags_from chafa_symbols O sym_ht tags.

Fixpoint remove_by_tags_from (syms : list ChafaSymbol) (i : nat)
    (sym_ht : pointer) (tags : ChafaSymbolTags) : M unit :=
  match syms with
  | [] => ret tt
  | sym :: syms' =>
      if c sym =? 0 then ret tt
      else
        (if Z.land (sc sym) tags =? 0 then ret tt
         else g_hash_table_remove sym_ht i) ;;
        remove_by_tags_from syms' (S i) sym_ht tags
  end.

Definition remove_by_tags (sym_ht : pointer) (tags : ChafaSymbolTags) : M unit :=
  remove_by_tags_from chafa_symbols O sym_ht tags.

(** The loop of [copy_hash_table] over the keys of [src]. *)
Fixpoint copy_keys (dest : pointer) (keys : list nat) : M unit :=
  match keys with
  | [] => ret tt
  | key :: keys' => g_hash_table_insert dest key key ;; copy_keys dest keys'
  end.

Definition copy_hash_table (src : option pointer) : M pointer :=
  let* dest := g_hash_table_new in
  let* keys := g_hash_table_iter src in
  copy_keys dest keys ;;
  ret dest.

(** The loop of [rebuild_symbols]:
    [symbol_map->symbols [i++] = chafa_symbols [src_index]]. *)
Fixpoint store_symbols (base : pointer) (i : nat) (keys : list nat) : M unit :=
  match keys with
  | [] => ret tt
  | src_index :: keys' =>
      match chafa_symbols_at src_index with
      | Some sym => store base i sym ;; store_symbols base (S i) keys'
      | None => undefined
      end
  end.

Definition rebuild_symbols (symbol_map : ChafaSymbolMap) : M ChafaSymbolMap :=
  g_free (symbols symbol_map) ;;
  let* n := g_hash_table_size (desired_symbols symbol_map) in
  let* base := g_new (n + 1) in
  match desired_symbols symbol_map with
  | Some _ =>
      let* keys := g_hash_table_iter (desired_symbols symbol_map) in
      store_symbols base O keys ;;
      qsort base n compare_symbols
  | None => ret tt
  end ;;
  store base n zero_symbol ;;
  ret {| refs := refs symbol_map;
         need_rebuild := false;
         desired_symbols := desired_symbols symbol_map;
         symbols := Some base;
         n_symbols := n |}.

(** One turn of the [while] loop of [parse_selectors], entered with
    [*p0] not NUL. *)
Definition parse_clause (symbol_map : ChafaSymbolMap) (st : ParseState) : M Flow :=
  let p := advance (strspn (p0 st) " ,") (p0 st) in
  if at_nul p then ret (Break (mkParseState p (is_add st) (is_remove st) (new_syms st)))
  else
    let st1 :=
      if Ascii.eqb (deref p) "-"
      then mkParseState (advance 1 p) false true (new_syms st)
      else if Ascii.eqb (deref p) "+"
      then mkParseState (advance 1 p) true false (new_syms st)
      else mkParseState p (is_add st) (is_remove st) (new_syms st) in
    let p := advance (strspn (p0 st1) " ") (p0 st1) in
    let st2 := mkParseState p (is_add st1) (is_remove st1) (new_syms st1) in
    if at_nul p then ret (Break st2)
    else
      let n := strspn p "abcdefghijklmnopqrstuvwxyzABCDEFGHIJKLMNOPQRSTUVWXYZ" in
      if (n =? 0)%nat
      then ret (GotoOut st2
                  (G_OPTION_ERROR_BAD_VALUE "Syntax error in symbol tag selectors."))
      else
        match parse_symbol_tag p n with
        | inr error => ret (GotoOut st2 error)
        | inl sc =>
            let p := advance n p in
            if is_add st2 then
              let* syms :=
                match new_syms st2 with
                | None => copy_hash_table (desired_symbols symbol_map)
                | Some syms => ret syms
                end in
              add_by_tags syms sc ;;
              ret (Next (mkParseState p (is_add st2) (is_remove st2) (Some syms)))
            else if is_remove st2 then
              let* syms :=
                match new_syms st2 with
                | None => copy_hash_table (desired_symbols symbol_map)
                | Some syms => ret syms
                end in
              remove_by_tags syms sc ;;
              ret (Next (mkParseState p (is_add st2) (is_remove st2) (Some syms)))
            else
              match new_syms st2 with
              | Some syms => g_hash_table_unref syms
              | None => ret tt
              end ;;
              let* syms := g_hash_table_new in
              add_by_tags syms sc ;;
              ret (Next (mkParseState p true (is_remove st2) (Some syms)))
        end.

(** The [while] loop on [*p0]. It leaves either by its condition or a
    [break], with no error, or by [goto out], with the error that was
    set. Every turn that comes back to the condition has moved [p0]
    forward, so the length of the string bounds the number of turns. *)
Fixpoint parse_loop (fuel : nat) (symbol_map : ChafaSymbolMap) (st : ParseState)
  : M (ParseState * option GError) :=
  match fuel with
  | O => λ _, OutOfFuel
  | S fuel' =>
      if at_nul (p0 st) then ret (st, None)
      else
        let* flow := parse_clause symbol_map st in
        match flow with
        | Next st' => parse_loop fuel' symbol_map st'
        | Break st' => ret (st', None)
        | GotoOut st' error => ret (st', Some error)
        end
  end.

(** [parse_selectors (symbol_map, selectors, error)]: the return value,
    the error stored through [error] if any, and the map afterwards. *)
Definition parse_selectors (symbol_map : ChafaSymbolMap) (selectors : string)
  : M (bool * option GError * ChafaSymbolMap) :=
  let result := true in
  let* exit :=
    parse_loop (S (String.length selectors)) symbol_map
               (mkParseState selectors false false None) in
  match exit with
  | (st, None) =>
      match desired_symbols symbol_map with
      | Some old => g_hash_table_unref old
      | None => ret tt
      end ;;
      let symbol_map' :=
        {| refs := refs symbol_map;
           need_rebuild := true;
           desired_symbols := new_syms st;
           symbols := symbols symbol_map;
           n_symbols := n_symbols symbol_map |} in
      let result := true in
      ret (result, None, symbol_map')
  | (st, Some error) =>
      match new_syms st with
      | Some syms => g_hash_table_unref syms
      | None => ret tt
      end ;;
      ret (result, Some error, symbol_map)
  end.

(** [chafa_symbol_map_init]: [memset] to zero, then [refs = 1]. The
    call of [chafa_init] fills the global symbol table, which is
    [chafa_symbols] here. *)
Definition chafa_symbol_map_init : ChafaSymbolMap :=
  {| refs := 1;
     need_rebuild := false;
     desired_symbols := None;
     symbols := None;
     n_symbols := O |}.

(** [chafa_symbol_map_copy_contents (dest, src)]: the contents of
    [*dest] afterwards. Both pointers are not NULL. *)
Definition chafa_symbol_map_copy_contents (src : ChafaSymbolMap) : M ChafaSymbolMap :=
  let dest := src in
  let* copied :=
    match desired_symbols dest with
    | Some _ => let* ht := copy_hash_table (desired_symbols dest) in ret (Some ht)
    | None => ret None
    end in
  ret {| refs := 1;
         need_rebuild := true;
         desired_symbols := copied;
         symbols := None;
         n_symbols := n_symbols dest |}.

Definition chafa_symbol_map_prepare (symbol_map : ChafaSymbolMap) : M ChafaSymbolMap :=
  if negb (need_rebuild symbol_map) then ret symbol_map
  else rebuild_symbols symbol_map.

(** The [for] loop of [chafa_symbol_map_has_symbol] from index [i] on,
    with [n_symbols - i] turns left. *)
Fixpoint has_symbol_from (base : option pointer) (i turns : nat) (symbol : Z) : M bool :=
  match turns with
  | O => ret false
  | S turns' =>
      let* sym := load base i in
      if c sym =? symbol then ret true
      else if c sym >? symbol then ret false
      else has_symbol_from base (S i) turns' symbol
  end.

Definition chafa_symbol_map_has_symbol (symbol_map : ChafaSymbolMap) (symbol : Z) : M bool :=
  has_symbol_from (symbols symbol_map) O (n_symbols symbol_map) symbol.

(** [chafa_symbol_map_new] *)
Definition chafa_symbol_map_new : ChafaSymbolMap := chafa_symbol_map_init.

(** [chafa_symbol_map_add_by_tags]; its [g_return_if_fail] leaves the
    map alone when [refs] is not positive. *)
Definition chafa_symbol_map_add_by_tags (symbol_map : ChafaSymbolMap)
    (tags : ChafaSymbolTags) : M ChafaSymbolMap :=
  if negb (refs symbol_map >? 0) then ret symbol_map
  else
    let* ht :=
      match desired_symbols symbol_map with
      | Some ht => ret ht
      | None => g_hash_table_new
      end in
    add_by_tags ht tags ;;
    ret {| refs := refs symbol_map;
           need_rebuild := true;
           desired_symbols := Some ht;
           symbols := symbols symbol_map;
           n_symbols := n_symbols symbol_map |}.

Definition chafa_symbol_map_remove_by_tags (symbol_map : ChafaSymbolMap)
    (tags : ChafaSymbolTags) : M ChafaSymbolMap :=
  if negb (refs symbol_map >? 0) then ret symbol_map
  else
    let* ht :=
      match desired_symbols symbol_map with
      | Some ht => ret ht
      | None => g_hash_table_new
      end in
    remove_by_tags ht tags ;;
    ret {| refs := refs symbol_map;
           need_rebuild := true;
           desired_symbols := Some ht;
           symbols := symbols symbol_map;
           n_symbols := n_symbols symbol_map |}.

(** [chafa_symbol_map_apply_selectors] on the address of a map; its
    [g_return_val_if_fail] returns FALSE, with no error stored, when
    [refs] is not positive. The guard on the pointer itself is in
    [chafa_symbol_map_apply_selectors_at]. *)
Definition chafa_symbol_map_apply_selectors (symbol_map : ChafaSymbolMap)
    (selectors : string) : M (bool * option GError * ChafaSymbolMap) :=
  if negb (refs symbol_map >? 0) then ret (false, None, symbol_map)
  else parse_selectors symbol_map selectors.
End SymbolMap.

(** ** Views of a map in a heap *)

(** The selection of a map: the keys of its table, none for NULL. *)
Definition selection (symbol_map : ChafaSymbolMap) (h : Heap) : gset nat :=
  match desired_symbols symbol_map with
  | None => ∅
  | Some ht => default ∅ (hash_tables h !! ht)
  end.

(** The derived index of a map: the slots of its [symbols] array. *)
Definition derived_index (symbol_map : ChafaSymbolMap) (h : Heap)
  : option (list (option ChafaSymbol)) :=
  match symbols symbol_map with
  | None => None
  | Some base => symbol_arrays h !! base
  end.

(** The pointers of a map are NULL or point to live objects. *)
Definition table_live (symbol_map : ChafaSymbolMap) (h : Heap) : Prop :=
  match desired_symbols symbol_map with
  | None => True
  | Some ht => is_Some (hash_tables h !! ht)
  end.

Definition array_live (symbol_map : ChafaSymbolMap) (h : Heap) : Prop :=
  match symbols symbol_map with
  | None => True
  | Some base => is_Some (symbol_arrays h !! base)
  end.

Section Catalog.
Variable chafa_symbols : list ChafaSymbol.

(** The indices that the loop of [add_by_tags] visits and whose entry
    intersects [tags], from entry [i] on. *)
Fixpoint matching_from (syms : list ChafaSymbol) (i : nat) (tags : ChafaSymbolTags)
  : gset nat :=
  match syms with
  | [] => ∅
  | sym :: syms' =>
      if c sym =? 0 then ∅
      else (if Z.land (sc sym) tags =? 0 then ∅ else {[i]})
           ∪ matching_from syms' (S i) tags
  end.

(** The catalog indices matching [tags]. *)
Definition entries_matching (tags : ChafaSymbolTags) : gset nat :=
  matching_from chafa_symbols O tags.

(** The number of entries before the first one of codepoint 0, where
    the loops over the catalog stop. *)
Fixpoint catalog_size_of (syms : list ChafaSymbol) : nat :=
  match syms with
  | [] => O
  | sym :: syms' => if c sym =? 0 then O else S (catalog_size_of syms')
  end.

Definition catalog_size : nat := catalog_size_of chafa_symbols.

(** The selection holds indices of catalog entries only. *)
Definition indices_valid (keys : gset nat) : Prop :=
  ∀ i, i ∈ keys → (i < catalog_size)%nat.

(** The catalog entries that a selection refers to, in the order in
    which its table hands them out. *)
Definition referenced (keys : gset nat) : list ChafaSymbol :=
  omap (chafa_symbols_at chafa_symbols) (elements keys).

Definition sorted_by_codepoint (body : list ChafaSymbol) : Prop :=
  StronglySorted (λ a b, c a ≤ c b) body.

(** [body] is the derived index of the selection [keys], without its
    sentinel: the entries that [keys] refers to, by ascending
    codepoint. *)
Definition index_of (keys : gset nat) (body : list ChafaSymbol) : Prop :=
  body ≡ₚ referenced keys ∧ sorted_by_codepoint body.

(** The arrays of the heap once [g_free] has released the old index. *)
Definition arrays_without (symbol_map : ChafaSymbolMap) (h : Heap)
  : gmap pointer (list (option ChafaSymbol)) :=
  match symbols symbol_map with
  | Some old => delete old (symbol_arrays h)
  | None => symbol_arrays h
  end.

(** The entries of the selection, put in order by [qsort]. *)
Definition sorted_entries (symbol_map : ChafaSymbolMap) (h : Heap) : list ChafaSymbol :=
  merge_sort (compar_le compare_symbols) (referenced (selection symbol_map h)).

(** [slots] is exactly the derived index of the selection [keys]: the
    catalog entries that [keys] refers to and no others, by strictly
    ascending codepoint, then one sentinel entry, which has codepoint 0. *)
Definition exact_index (keys : gset nat) (slots : list (option ChafaSymbol)) : Prop :=
  ∃ body,
    slots = (Some <$> body) ++ [Some zero_symbol] ∧
    body ≡ₚ referenced keys ∧
    (∀ sym, sym ∈ body ↔ ∃ i, i ∈ keys ∧ chafa_symbols !! i = Some sym) ∧
    StronglySorted (λ a b, c a < c b) body ∧
    NoDup (c <$> body) ∧
    length slots = (size keys + 1)%nat.

(** A map whose [need_rebuild] is FALSE either is as
    [chafa_symbol_map_init] left it, with no table and no array, or
    holds the derived index of its selection, sentinel included. *)
Definition index_current (symbol_map : ChafaSymbolMap) (h : Heap) : Prop :=
  need_rebuild symbol_map = false →
  (symbols symbol_map = None ∧ desired_symbols symbol_map = None ∧
   n_symbols symbol_map = O) ∨
  ∃ body,
    index_of (selection symbol_map h) body ∧
    n_symbols symbol_map = length body ∧
    derived_index symbol_map h = Some ((Some <$> body) ++ [Some zero_symbol]).

(** The invariant of the maps that the functions of this file build. *)
Record map_inv (symbol_map : ChafaSymbolMap) (h : Heap) : Prop := {
  inv_table : table_live symbol_map h;
  inv_array : array_live symbol_map h;
  inv_valid : indices_valid (selection symbol_map h);
  inv_index : index_current symbol_map h
}.
End Catalog.

(** Two maps own different objects of the heap, all of them live. *)
Record separate (a b : ChafaSymbolMap) (h : Heap) : Prop := {
  sep_table_a : table_live a h;
  sep_table_b : table_live b h;
  sep_array_a : array_live a h;
  sep_array_b : array_live b h;
  sep_tables : ∀ p, desired_symbols a = Some p → desired_symbols b ≠ Some p;
  sep_arrays : ∀ q, symbols a = Some q → symbols b ≠ Some q
}.

(** The calls that change or read a map through the public functions. *)
Inductive Call :=
  | AddByTags (tags : ChafaSymbolTags)
  | RemoveByTags (tags : ChafaSymbolTags)
  | ApplySelectors (selectors : string)
  | Prepare.

Section Calls.
Context {tv : TagValues}.
Variable chafa_symbols : list ChafaSymbol.

Definition run_call (call : Call) (symbol_map : ChafaSymbolMap) : M ChafaSymbolMap :=
  match call with
  | AddByTags tags => chafa_symbol_map_add_by_tags chafa_symbols symbol_map tags
  | RemoveByTags tags => chafa_symbol_map_remove_by_tags chafa_symbols symbol_map tags
  | ApplySelectors selectors =>
      let* r := chafa_symbol_map_apply_selectors chafa_symbols symbol_map selectors in
      ret (r.2)
  | Prepare => chafa_symbol_map_prepare chafa_symbols symbol_map
  end.

Fixpoint run_calls (calls : list Call) (symbol_map : ChafaSymbolMap) : M ChafaSymbolMap :=
  match calls with
  | [] => ret symbol_map
  | call :: calls' =>
      let* symbol_map' := run_call call symbol_map in
      run_calls calls' symbol_map'
  end.
End Calls.

(** ** A small catalog and tag values to run the model on *)

Definition sample_tags : TagValues := {|
  CHAFA_SYMBOL_TAG_NONE := 0;
  CHAFA_SYMBOL_TAG_SPACE := 1;
  CHAFA_SYMBOL_TAG_SOLID := 2;
  CHAFA_SYMBOL_TAG_STIPPLE := 4;
  CHAFA_SYMBOL_TAG_BLOCK := 8;
  CHAFA_SYMBOL_TAG_BORDER := 16;
  CHAFA_SYMBOL_TAG_DIAGONAL := 32;
  CHAFA_SYMBOL_TAG_DOT := 64;
  CHAFA_SYMBOL_TAG_QUAD := 128;
  CHAFA_SYMBOL_TAG_HHALF := 256;
  CHAFA_SYMBOL_TAG_VHALF := 512;
  CHAFA_SYMBOL_TAG_HALF := 768;
  CHAFA_SYMBOL_TAG_INVERTED := 1024;
  CHAFA_SYMBOL_TAG_BRAILLE := 2048;
  CHAFA_SYMBOL_TAG_ALL := 4095
|}.

(** Space, full block, light shade, upper half block, a horizontal and a
    diagonal box line, a small square that is both border and dot, and
    the middle dot. *)
Definition sample_symbols : list ChafaSymbol :=
  [ mkSymbol 1 32; mkSymbol 10 9608; mkSymbol 4 9617; mkSymbol 520 9600;
    mkSymbol 16 9472; mkSymbol 48 9585; mkSymbol 80 9643; mkSymbol 64 183 ].

(** A map on which [chafa_symbol_map_add_by_tags] has selected the
    space: table 1 of [sample_heap] holds index 0. *)
Definition sample_map : ChafaSymbolMap :=
  {| refs := 1; need_rebuild := true; desired_symbols := Some 1%positive;
     symbols := None; n_symbols := O |}.

Definition sample_heap : Heap := mkHeap {[ 1%positive := {[ O ]} ]} ∅.

(** A heap in which the table of [sample_map] selects the full block,
    the upper half block and the middle dot: indices 1, 3 and 7. *)
Definition sample_heap_blocks : Heap :=
  mkHeap {[ 1%positive := {[ 1%nat; 3%nat; 7%nat ]} ]} ∅.

(** The first [n] characters of a C string in lower case: what
    [g_ascii_strncasecmp] compares. *)
Fixpoint lower_slice (n : nat) (p : string) : string :=
  match n, p with
  | O, _ => EmptyString
  | S n', String ch p' =>
      if code ch =? 0 then EmptyString
      else String (g_ascii_tolower ch) (lower_slice n' p')
  | S _, EmptyString => EmptyString
  end.

(** ** The two halves of a turn of the parser's loop *)

(** What the scanning half of a turn finds: the end of the string, an
    error, or a tag, with the loop state as the scan leaves it. *)
Inductive Scan :=
  | ScanBreak (st : ParseState)
  | ScanError (st : ParseState) (error : GError)
  | ScanTag (st : ParseState) (sc : ChafaSymbolTags).

Section Turn.
Context {tv : TagValues}.
Variable chafa_symbols : list ChafaSymbol.

(** The first half of [parse_clause], which moves [p0] and sets the
    mode and touches no table; on a tag, [p0] is already past it. *)
Definition scan_clause (st : ParseState) : Scan :=
  let p := advance (strspn (p0 st) " ,") (p0 st) in
  if at_nul p then ScanBreak (mkParseState p (is_add st) (is_remove st) (new_syms st))
  else
    let st1 :=
      if Ascii.eqb (deref p) "-"
      then mkParseState (advance 1 p) false true (new_syms st)
      else if Ascii.eqb (deref p) "+"
      then mkParseState (advance 1 p) true false (new_syms st)
      else mkParseState p (is_add st) (is_remove st) (new_syms st) in
    let p := advance (strspn (p0 st1) " ") (p0 st1) in
    let st2 := mkParseState p (is_add st1) (is_remove st1) (new_syms st1) in
    if at_nul p then ScanBreak st2
    else
      let n := strspn p "abcdefghijklmnopqrstuvwxyzABCDEFGHIJKLMNOPQRSTUVWXYZ" in
      if (n =? 0)%nat
      then ScanError st2
             (G_OPTION_ERROR_BAD_VALUE "Syntax error in symbol tag selectors.")
      else
        match parse_symbol_tag p n with
        | inr error => ScanError st2 error
        | inl sc =>
            ScanTag (mkParseState (advance n p) (is_add st2) (is_remove st2)
                                  (new_syms st2)) sc
        end.

(** The second half of [parse_clause]: the three branches on the mode. *)
Definition dispatch (symbol_map : ChafaSymbolMap) (st : ParseState)
    (sc : ChafaSymbolTags) : M Flow :=
  if is_add st then
    let* syms :=
      match new_syms st with
      | None => copy_hash_table (desired_symbols symbol_map)
      | Some syms => ret syms
      end in
    add_by_tags chafa_symbols syms sc ;;
    ret (Next (mkParseState (p0 st) (is_add st) (is_remove st) (Some syms)))
  else if is_remove st then
    let* syms :=
      match new_syms st with
      | None => copy_hash_table (desired_symbols symbol_map)
      | Some syms => ret syms
      end in
    remove_by_tags chafa_symbols syms sc ;;
    ret (Next (mkParseState (p0 st) (is_add st) (is_remove st) (Some syms)))
  else
    match new_syms st with
    | Some syms => g_hash_table_unref syms
    | None => ret tt
    end ;;
    let* syms := g_hash_table_new in
    add_by_tags chafa_symbols syms sc ;;
    ret (Next (mkParseState (p0 st) true (is_remove st) (Some syms))).
End Turn.

(** The heap [h] is the heap [h0] of the call plus the scratch table of
    the loop state, if there is one. *)
Definition scratch_of (h0 : Heap) (st : ParseState) (h : Heap) : Prop :=
  match new_syms st with
  | None => h = h0
  | Some syms =>
      hash_tables h0 !! syms = None ∧
      ∃ keys, h = set_tables (<[syms := keys]> (hash_tables h0)) h0
  end.

(** ** What a selector string says by itself *)

Section Verdicts.
Context {tv : TagValues}.

(** The loop state in which [parse_selectors] enters its loop. *)
Definition initial_state (selectors : string) : ParseState :=
  mkParseState selectors false false None.

(** The error that the loop runs into, read off the string alone: the
    turns of the loop with their table operations left out. *)
Fixpoint error_from (fuel : nat) (p : string) : option GError :=
  match fuel with
  | O => None
  | S fuel' =>
      if at_nul p then None
      else
        match scan_clause (initial_state p) with
        | ScanBreak _ => None
        | ScanError _ error => Some error
        | ScanTag st _ => error_from fuel' (p0 st)
        end
  end.

Definition selectors_error (selectors : string) : option GError :=
  error_from (S (String.length selectors)) selectors.

(** The first turn of the loop finds a tag, and a sign before it. *)
Definition first_clause_signed (selectors : string) : bool :=
  match scan_clause (initial_state selectors) with
  | ScanTag st _ => is_add st || is_remove st
  | _ => false
  end.
End Verdicts.

(** The letters that [parse_selectors] takes for a tag name. *)
Definition letters : string := "abcdefghijklmnopqrstuvwxyzABCDEFGHIJKLMNOPQRSTUVWXYZ".

(** A string of spaces and commas only, the empty string included. *)
Fixpoint no_clauses (selectors : string) : bool :=
  match selectors with
  | EmptyString => true
  | String ch selectors' =>
      (Ascii.eqb ch " " || Ascii.eqb ch ",") && no_clauses selectors'
  end.

(** The first copy that the parser may have to make has a table to copy:
    the map has a live table, or it has none and the string does not
    start with a signed clause. *)
Definition copy_source_ok {tv : TagValues} (symbol_map : ChafaSymbolMap)
    (selectors : string) (h : Heap) : Prop :=
  match desired_symbols symbol_map with
  | Some ht => is_Some (hash_tables h !! ht)
  | None => first_clause_signed selectors = false
  end.

(** The clause that the next turn of the loop reads carries no sign. *)
Definition clause_unsigned (st : ParseState) : bool :=
  let p := advance (strspn (p0 st) " ,") (p0 st) in
  negb (Ascii.eqb (deref p) "-") && negb (Ascii.eqb (deref p) "+").

(** The keys of the scratch table of a loop state, if it has one. *)
Definition scratch_keys (st : ParseState) (h : Heap) : option (gset nat) :=
  match new_syms st with
  | Some syms => hash_tables h !! syms
  | None => None
  end.

(** The table that [chafa_symbol_map_add_by_tags] and
    [chafa_symbol_map_remove_by_tags] work on: the map's own, or a new
    one if it has none. *)
Definition table_for (symbol_map : ChafaSymbolMap) (h : Heap) : pointer :=
  match desired_symbols symbol_map with
  | Some ht => ht
  | None => fresh (dom (hash_tables h))
  end.

(** What a call on a map may touch in the heap: the objects of the map,
    and objects that were not live before. *)
Record footprint (a : ChafaSymbolMap) (h : Heap) (a' : ChafaSymbolMap) (h' : Heap)
  : Prop := {
  fp_tables : ∀ p, desired_symbols a ≠ Some p → is_Some (hash_tables h !! p) →
                   hash_tables h' !! p = hash_tables h !! p;
  fp_arrays : ∀ q, symbols a ≠ Some q → is_Some (symbol_arrays h !! q) →
                   symbol_arrays h' !! q = symbol_arrays h !! q;
  fp_new_table : ∀ p, desired_symbols a' = Some p →
                      desired_symbols a = Some p ∨ hash_tables h !! p = None;
  fp_new_array : ∀ q, symbols a' = Some q →
                      symbols a = Some q ∨ symbol_arrays h !! q = None
}.

(** ** Selector strings as the specification describes them *)

(** The grammar, in the words of the specification and not of the
    parser: a selector string is a sequence of clauses separated by runs
    of spaces and commas; a clause is a tag name of one or more ASCII
    letters, with or without a sign before it, and spaces may stand
    between a sign and its name; a character that is no letter where a
    tag name is expected is a syntax error. The string is read character
    by character, up to the terminator; [after_sign] says that the last
    character other than a space was a sign, after which only a space
    or a letter may come. [lone_sign] is what a string is counted as
    that ends there, with its last sign still waiting for a name. *)
Fixpoint grammatical_from (lone_sign after_sign : bool) (p : string) : bool :=
  match p with
  | EmptyString => negb after_sign || lone_sign
  | String ch p' =>
      if code ch =? 0 then negb after_sign || lone_sign
      else if char_in ch letters then grammatical_from lone_sign false p'
      else if Ascii.eqb ch " " then grammatical_from lone_sign after_sign p'
      else if after_sign then false
      else if Ascii.eqb ch "," then grammatical_from lone_sign false p'
      else if Ascii.eqb ch "+" || Ascii.eqb ch "-"
           then grammatical_from lone_sign true p'
      else false
  end.

(** The grammar as the specification has it: a sign with nothing after
    it is a syntax error. *)
Definition syntactically_valid (selectors : string) : bool :=
  grammatical_from false false selectors.

(** The same grammar with the sign at the end of the string let
    through, and nothing else. *)
Definition grammatical (selectors : string) : bool :=
  grammatical_from true false selectors.

(** The last character of the string, spaces apart, is a sign. *)
Fixpoint ends_with_sign_from (after_sign : bool) (p : string) : bool :=
  match p with
  | EmptyString => after_sign
  | String ch p' =>
      if code ch =? 0 then after_sign
      else if Ascii.eqb ch " " then ends_with_sign_from after_sign p'
      else ends_with_sign_from (Ascii.eqb ch "+" || Ascii.eqb ch "-") p'
  end.

Definition ends_with_sign (selectors : string) : bool :=
  ends_with_sign_from false selectors.

(** The string goes on with a letter. *)
Definition starts_name (p : string) : bool :=
  negb (code (deref p) =? 0) && char_in (deref p) letters.

(** The tag names that a selector string holds: its runs of ASCII
    letters, each as long as it goes, in their order. *)
Fixpoint tag_names (p : string) : list string :=
  match p with
  | EmptyString => []
  | String ch p' =>
      if code ch =? 0 then []
      else if char_in ch letters then
        if starts_name p' then
          match tag_names p' with
          | name :: names => String ch name :: names
          | [] => [String ch EmptyString]
          end
        else String ch EmptyString :: tag_names p'
      else tag_names p'
  end.

(** [name] is the beginning of [row_name], or all of it, up to the case
    of ASCII letters. *)
Fixpoint prefix_up_to_case (name row_name : string) : bool :=
  match name, row_name with
  | EmptyString, _ => true
  | String a name', String b row_name' =>
      Ascii.eqb (g_ascii_tolower a) (g_ascii_tolower b)
      && prefix_up_to_case name' row_name'
  | String _ _, EmptyString => false
  end.

Section VocabularyNames.
Context {tv : TagValues}.

(** A name of the vocabulary, as the specification has it: equal to one
    of the fifteen names of the table, up to case. *)
Definition is_vocabulary_name (name : string) : bool :=
  existsb (λ row : SymMapping,
             prefix_up_to_case name row.1
             && (String.length name =? String.length row.1)%nat) map.

(** A name that is not of the vocabulary and begins one of its names:
    the slices that [parse_symbol_tag] takes for the name they begin. *)
Definition is_abbreviation (name : string) : bool :=
  negb (is_vocabulary_name name)
  && existsb (λ row : SymMapping,
                prefix_up_to_case name row.1
                && (String.length name <? String.length row.1)%nat) map.
End VocabularyNames.

(** [chafa_symbol_map_apply_selectors] with its first argument as the
    pointer that it is, NULL or the address of a map: the first
    [g_return_val_if_fail] returns FALSE on NULL. *)
Definition chafa_symbol_map_apply_selectors_at {tv : TagValues}
    (chafa_symbols : list ChafaSymbol) (symbol_map : option ChafaSymbolMap)
    (selectors : string) : M (bool * option GError * option ChafaSymbolMap) :=
  match symbol_map with
  | None => ret (false, None, None)
  | Some map_at =>
      let* r := chafa_symbol_map_apply_selectors chafa_symbols map_at selectors in
      ret (r.1.1, r.1.2, Some r.2)
  end.

(** ** Reference counting and release *)

(** [G_MAXINT], and the value of a [gint] after an atomic increment or
    decrement, which wraps around in 32 bits. *)
Definition G_MAXINT : Z := 2147483647.

Definition gint (z : Z) : Z := (z + 2147483648) mod 4294967296 - 2147483648.

(** [chafa_symbol_map_deinit]: the table and the array are released; the
    fields of the map are not written. *)
Definition chafa_symbol_map_deinit (symbol_map : ChafaSymbolMap) : M unit :=
  match desired_symbols symbol_map with
  | Some ht => g_hash_table_unref ht
  | None => ret tt
  end ;;
  g_free (symbols symbol_map).

(** [chafa_symbol_map_ref]; its second [g_return_if_fail] leaves the
    map alone when [refs] is not positive. *)
Definition chafa_symbol_map_ref (symbol_map : ChafaSymbolMap) : ChafaSymbolMap :=
  if negb (refs symbol_map >? 0) then symbol_map
  else {| refs := gint (refs symbol_map + 1);
          need_rebuild := need_rebuild symbol_map;
          desired_symbols := desired_symbols symbol_map;
          symbols := symbols symbol_map;
          n_symbols := n_symbols symbol_map |}.

(** [chafa_symbol_map_unref]: the map afterwards, or [None] once
    [g_free (symbol_map)] has released the struct itself. As in
    [chafa_symbol_map_new], the struct is a value, not an object of the
    heap. *)
Definition chafa_symbol_map_unref (symbol_map : ChafaSymbolMap)
  : M (option ChafaSymbolMap) :=
  if negb (refs symbol_map >? 0) then ret (Some symbol_map)
  else
    let symbol_map' :=
      {| refs := gint (refs symbol_map - 1);
         need_rebuild := need_rebuild symbol_map;
         desired_symbols := desired_symbols symbol_map;
         symbols := symbols symbol_map;
         n_symbols := n_symbols symbol_map |} in
    if refs symbol_map' =? 0
    then chafa_symbol_map_deinit symbol_map' ;; ret None
    else ret (Some symbol_map').

(** The heap [h] is the heap [h0] and, in addition, the table and the
    array of the map, if it has them, and nothing else. *)
Record owns (h0 : Heap) (symbol_map : ChafaSymbolMap) (h : Heap) : Prop := {
  owns_table :
    match desired_symbols symbol_map with
    | Some ht => hash_tables h0 !! ht = None ∧ delete ht (hash_tables h) = hash_tables h0
    | None => hash_tables h = hash_tables h0
    end;
  owns_array :
    match symbols symbol_map with
    | Some base =>
        symbol_arrays h0 !! base = None ∧ delete base (symbol_arrays h) = symbol_arrays h0
    | None => symbol_arrays h = symbol_arrays h0
    end
}.

(** The calls that change the selection and leave the derived index to
    the next [chafa_symbol_map_prepare]. *)
Definition changes_selection (call : Call) : bool :=
  match call with
  | Prepare => false
  | _ => true
  end.

(** ** The alphabet of selector strings *)

(** The characters that the parser steps over without an error:
    letters, the two separators and the two signs. *)
Definition selector_char (ch : ascii) : bool :=
  char_in ch letters || char_in ch " ,+-".

(** Every character of a C string, up to its terminator, is one of them. *)
Fixpoint selector_chars_only (p : string) : bool :=
  match p with
  | EmptyString => true
  | String ch p' => (code ch =? 0) || (selector_char ch && selector_chars_only p')
  end.

(** A C string with its ASCII letters in lower case, character by
    character as [g_ascii_tolower] maps them. *)
Fixpoint lower_case (p : string) : string :=
  match p with
  | EmptyString => EmptyString
  | String ch p' => String (g_ascii_tolower ch) (lower_case p')
  end.

(** A loop state of the parser on the lower-case form of its string. *)
Definition lowered (st : ParseState) : ParseState :=
  mkParseState (lower_case (p0 st)) (is_add st) (is_remove st) (new_syms st).

(** The keys that one clause leaves in the scratch table, by the mode in
    which the parser applies it. *)
Definition clause_keys (chafa_symbols : list ChafaSymbol) (is_add is_remove : bool)
    (sc : ChafaSymbolTags) (keys : gset nat) : gset nat :=
  if is_add then entries_matching chafa_symbols sc ∪ keys
  else if is_remove then keys ∖ entries_matching chafa_symbols sc
  else entries_matching chafa_symbols sc.

(** ** The heap operations on live tables *)

Lemma set_tables_id h : set_tables (hash_tables h) h = h.
Proof. by destruct h. Qed.

Lemma set_arrays_id h : set_arrays (symbol_arrays h) h = h.
Proof. by destruct h. Qed.

Lemma set_tables_id' h : mkHeap (hash_tables h) (symbol_arrays h) = h.
Proof. by destruct h. Qed.

Lemma bind_done {A B} (m : M A) (f : A → M B) h a h' :
  m h = Done a h' → bind m f h = f a h'.
Proof. unfold bind. by intros ->. Qed.

Lemma bind_inv {A B} (m : M A) (f : A → M B) h b h2 :
  bind m f h = Done b h2 → ∃ a h1, m h = Done a h1 ∧ f a h1 = Done b h2.
Proof. unfold bind. destruct (m h) as [a h1| |]; [eauto | done | done]. Qed.

Lemma update_table_live ht f h keys :
  hash_tables h !! ht = Some keys →
  update_table ht f h = Done tt (set_tables (<[ht := f keys]> (hash_tables h)) h).
Proof. unfold update_table. by intros ->. Qed.

Section TableLoops.
Variable chafa_symbols : list ChafaSymbol.

Lemma add_by_tags_from_live syms i ht tags h keys :
  hash_tables h !! ht = Some keys →
  add_by_tags_from syms i ht tags h =
  Done tt (set_tables (<[ht := matching_from syms i tags ∪ keys]> (hash_tables h)) h).
Proof.
  revert i h keys. induction syms as [|sym syms IH]; intros i h keys Hlive; simpl.
  - unfold ret. by rewrite (left_id_L ∅ (∪)), insert_id, set_tables_id.
  - destruct (c sym =? 0).
    { unfold ret. by rewrite (left_id_L ∅ (∪)), insert_id, set_tables_id. }
    destruct (Z.land (sc sym) tags =? 0).
    + rewrite (bind_done _ _ h tt h) by done.
      rewrite (IH _ _ _ Hlive). by rewrite (left_id_L ∅ (∪)).
    + erewrite bind_done; [|by apply update_table_live].
      erewrite IH; [|by apply lookup_insert_eq].
      unfold set_tables; simpl. rewrite insert_insert_eq. do 3 f_equal. set_solver.
Qed.

Lemma add_by_tags_live ht tags h keys :
  hash_tables h !! ht = Some keys →
  add_by_tags chafa_symbols ht tags h =
  Done tt (set_tables (<[ht := entries_matching chafa_symbols tags ∪ keys]>
                         (hash_tables h)) h).
Proof. apply add_by_tags_from_live. Qed.

Lemma remove_by_tags_from_live syms i ht tags h keys :
  hash_tables h !! ht = Some keys →
  remove_by_tags_from syms i ht tags h =
  Done tt (set_tables (<[ht := keys ∖ matching_from syms i tags]> (hash_tables h)) h).
Proof.
  revert i h keys. induction syms as [|sym syms IH]; intros i h keys Hlive; simpl.
  - unfold ret. by rewrite difference_empty_L, insert_id, set_tables_id.
  - destruct (c sym =? 0).
    { unfold ret. by rewrite difference_empty_L, insert_id, set_tables_id. }
    destruct (Z.land (sc sym) tags =? 0).
    + rewrite (bind_done _ _ h tt h) by done.
      rewrite (IH _ _ _ Hlive). by rewrite (left_id_L ∅ (∪)).
    + erewrite bind_done; [|by apply update_table_live].
      erewrite IH; [|by apply lookup_insert_eq].
      unfold set_tables; simpl. rewrite insert_insert_eq. do 3 f_equal. set_solver.
Qed.

Lemma remove_by_tags_live ht tags h keys :
  hash_tables h !! ht = Some keys →
  remove_by_tags chafa_symbols ht tags h =
  Done tt (set_tables (<[ht := keys ∖ entries_matching chafa_symbols tags]>
                         (hash_tables h)) h).
Proof. apply remove_by_tags_from_live. Qed.

Lemma copy_keys_live dest keys h old :
  hash_tables h !! dest = Some old →
  copy_keys dest keys h =
  Done tt (set_tables (<[dest := list_to_set keys ∪ old]> (hash_tables h)) h).
Proof.
  revert h old. induction keys as [|key keys IH]; intros h old Hlive; simpl.
  - unfold ret. by rewrite (left_id_L ∅ (∪)), insert_id, set_tables_id.
  - erewrite bind_done; [|by apply update_table_live].
    erewrite IH; [|by apply lookup_insert_eq].
    unfold set_tables; simpl. rewrite insert_insert_eq. do 3 f_equal. set_solver.
Qed.

Lemma fresh_table_dead (h : Heap) : hash_tables h !! fresh (dom (hash_tables h)) = None.
Proof. apply not_elem_of_dom, is_fresh. Qed.

Lemma fresh_array_dead (h : Heap) :
  symbol_arrays h !! fresh (dom (symbol_arrays h)) = None.
Proof. apply not_elem_of_dom, is_fresh. Qed.

Lemma copy_hash_table_live src h keys :
  hash_tables h !! src = Some keys →
  copy_hash_table (Some src) h =
  Done (fresh (dom (hash_tables h)))
       (set_tables (<[fresh (dom (hash_tables h)) := keys]> (hash_tables h)) h).
Proof.
  intros Hlive. unfold copy_hash_table.
  pose proof (fresh_table_dead h) as Hfresh.
  set (dest := fresh (dom (hash_tables h))) in *.
  assert (src ≠ dest) as Hne by congruence.
  erewrite bind_done; [|reflexivity].
  erewrite bind_done; cycle 1.
  { unfold g_hash_table_iter. simpl. rewrite lookup_insert_ne by done.
    by rewrite Hlive. }
  erewrite bind_done; cycle 1.
  { apply copy_keys_live. simpl. apply lookup_insert_eq. }
  unfold ret, set_tables; simpl. rewrite insert_insert_eq. do 3 f_equal.
  rewrite (right_id_L ∅ (∪)). apply list_to_set_elements_L.
Qed.

End TableLoops.

(** ** Strings *)

Lemma length_advance n p : String.length (advance n p) = (String.length p - n)%nat.
Proof.
  revert p. induction n as [|n IH]; intros [|ch p]; simpl; try done; lia.
Qed.

Lemma strspn_le s accept : (strspn s accept ≤ String.length s)%nat.
Proof.
  induction s as [|ch s IH]; simpl; [lia|].
  destruct (negb (code ch =? 0) && char_in ch accept); lia.
Qed.

(** ** One turn of the loop *)

Section TurnLemmas.
Context {tv : TagValues}.
Variable chafa_symbols : list ChafaSymbol.

Lemma parse_clause_scan symbol_map st :
  parse_clause chafa_symbols symbol_map st =
  match scan_clause st with
  | ScanBreak st' => ret (Break st')
  | ScanError st' error => ret (GotoOut st' error)
  | ScanTag st' sc => dispatch chafa_symbols symbol_map st' sc
  end.
Proof.
  unfold parse_clause, scan_clause.
  repeat match goal with
         | |- context [if ?b then _ else _] => destruct b; simpl; try done
         | |- context [match parse_symbol_tag ?p ?n with _ => _ end] =>
             destruct (parse_symbol_tag p n); simpl; try done
         end.
Qed.

Lemma copy_hash_table_done src h syms h1 :
  copy_hash_table src h = Done syms h1 →
  hash_tables h !! syms = None ∧
  ∃ keys, h1 = set_tables (<[syms := keys]> (hash_tables h)) h.
Proof.
  unfold copy_hash_table. intros Hrun.
  apply bind_inv in Hrun as (dest & h2 & Hnew & Hrun).
  injection Hnew as <- <-.
  apply bind_inv in Hrun as (keys & h3 & Hiter & Hrun).
  destruct src as [src|]; [|done].
  unfold g_hash_table_iter in Hiter.
  destruct (hash_tables _ !! src) as [old|] eqn:Hold; [|done].
  injection Hiter as <- <-.
  erewrite bind_done in Hrun; cycle 1.
  { apply copy_keys_live. simpl. apply lookup_insert_eq. }
  injection Hrun as <- <-. split; [apply fresh_table_dead|].
  eexists. unfold set_tables; simpl. by rewrite insert_insert_eq.
Qed.

(** The branch [if (is_add)] on a scratch table that exists already. *)
Lemma dispatch_add_scratch symbol_map st sc h syms keys :
  is_add st = true → new_syms st = Some syms →
  hash_tables h !! syms = Some keys →
  dispatch chafa_symbols symbol_map st sc h =
  Done (Next (mkParseState (p0 st) true (is_remove st) (Some syms)))
       (set_tables (<[syms := entries_matching chafa_symbols sc ∪ keys]>
                      (hash_tables h)) h).
Proof.
  intros Hadd Hsyms Hlive. unfold dispatch. rewrite Hadd, Hsyms.
  rewrite (bind_done _ _ h syms h) by done.
  erewrite bind_done; [|by apply add_by_tags_live]. done.
Qed.

(** The branch [else if (is_remove)], likewise. *)
Lemma dispatch_remove_scratch symbol_map st sc h syms keys :
  is_add st = false → is_remove st = true → new_syms st = Some syms →
  hash_tables h !! syms = Some keys →
  dispatch chafa_symbols symbol_map st sc h =
  Done (Next (mkParseState (p0 st) false true (Some syms)))
       (set_tables (<[syms := keys ∖ entries_matching chafa_symbols sc]>
                      (hash_tables h)) h).
Proof.
  intros Hadd Hrem Hsyms Hlive. unfold dispatch. rewrite Hadd, Hrem, Hsyms.
  rewrite (bind_done _ _ h syms h) by done.
  erewrite bind_done; [|by apply remove_by_tags_live]. done.
Qed.

(** The two branches when the scratch table is still to be made: it
    starts as a copy of the map's table. *)
Lemma dispatch_add_copy symbol_map st sc h ht keys :
  is_add st = true → new_syms st = None →
  desired_symbols symbol_map = Some ht → hash_tables h !! ht = Some keys →
  dispatch chafa_symbols symbol_map st sc h =
  Done (Next (mkParseState (p0 st) true (is_remove st)
                           (Some (fresh (dom (hash_tables h))))))
       (set_tables (<[fresh (dom (hash_tables h)) :=
                        entries_matching chafa_symbols sc ∪ keys]>
                      (hash_tables h)) h).
Proof.
  intros Hadd Hsyms Hht Hlive. unfold dispatch. rewrite Hadd, Hsyms, Hht.
  erewrite bind_done; [|by apply copy_hash_table_live].
  erewrite bind_done; [|apply add_by_tags_live; simpl; apply lookup_insert_eq].
  unfold ret, set_tables; simpl. by rewrite insert_insert_eq.
Qed.

Lemma dispatch_remove_copy symbol_map st sc h ht keys :
  is_add st = false → is_remove st = true → new_syms st = None →
  desired_symbols symbol_map = Some ht → hash_tables h !! ht = Some keys →
  dispatch chafa_symbols symbol_map st sc h =
  Done (Next (mkParseState (p0 st) false true
                           (Some (fresh (dom (hash_tables h))))))
       (set_tables (<[fresh (dom (hash_tables h)) :=
                        keys ∖ entries_matching chafa_symbols sc]>
                      (hash_tables h)) h).
Proof.
  intros Hadd Hrem Hsyms Hht Hlive. unfold dispatch. rewrite Hadd, Hrem, Hsyms, Hht.
  erewrite bind_done; [|by apply copy_hash_table_live].
  erewrite bind_done; [|apply remove_by_tags_live; simpl; apply lookup_insert_eq].
  unfold ret, set_tables; simpl. by rewrite insert_insert_eq.
Qed.

(** The last branch, with no mode set: a new table, whatever the map
    and the scratch table held. *)
Lemma dispatch_reset_none symbol_map st sc h :
  is_add st = false → is_remove st = false → new_syms st = None →
  dispatch chafa_symbols symbol_map st sc h =
  Done (Next (mkParseState (p0 st) true false
                           (Some (fresh (dom (hash_tables h))))))
       (set_tables (<[fresh (dom (hash_tables h)) :=
                        entries_matching chafa_symbols sc]>
                      (hash_tables h)) h).
Proof.
  intros Hadd Hrem Hsyms. unfold dispatch. rewrite Hadd, Hrem, Hsyms.
  rewrite (bind_done _ _ h tt h) by done.
  erewrite bind_done; [|reflexivity].
  erewrite bind_done; [|apply add_by_tags_live; simpl; apply lookup_insert_eq].
  unfold ret, set_tables; simpl.
  by rewrite insert_insert_eq, (right_id_L ∅ (∪)).
Qed.

Lemma dispatch_reset_scratch symbol_map st sc h syms keys :
  is_add st = false → is_remove st = false → new_syms st = Some syms →
  hash_tables h !! syms = Some keys →
  dispatch chafa_symbols symbol_map st sc h =
  Done (Next (mkParseState (p0 st) true false
                           (Some (fresh (dom (delete syms (hash_tables h)))))))
       (set_tables (<[fresh (dom (delete syms (hash_tables h))) :=
                        entries_matching chafa_symbols sc]>
                      (delete syms (hash_tables h))) h).
Proof.
  intros Hadd Hrem Hsyms Hlive. unfold dispatch. rewrite Hadd, Hrem, Hsyms.
  erewrite bind_done; cycle 1.
  { unfold g_hash_table_unref. by rewrite Hlive. }
  erewrite bind_done; [|reflexivity].
  erewrite bind_done; [|apply add_by_tags_live; simpl; apply lookup_insert_eq].
  unfold ret, set_tables; simpl.
  by rewrite insert_insert_eq, (right_id_L ∅ (∪)).
Qed.

Lemma scratch_of_live h0 st h syms :
  scratch_of h0 st h → new_syms st = Some syms →
  ∃ keys, hash_tables h !! syms = Some keys.
Proof.
  unfold scratch_of. intros Hs Hsyms. rewrite Hsyms in Hs.
  destruct Hs as (_ & keys & ->). exists keys. simpl. apply lookup_insert_eq.
Qed.

(** Whatever the branch, a turn that applies a tag leaves a mode set
    and one scratch table next to the heap of the call. *)
Lemma dispatch_done symbol_map st sc h0 h flow h' :
  scratch_of h0 st h →
  dispatch chafa_symbols symbol_map st sc h = Done flow h' →
  ∃ st', flow = Next st' ∧ scratch_of h0 st' h' ∧ p0 st' = p0 st ∧
         is_add st' || is_remove st' = true ∧ is_Some (new_syms st').
Proof.
  intros Hs Hrun.
  destruct (new_syms st) as [syms|] eqn:Hsyms.
  - destruct (scratch_of_live _ _ _ _ Hs Hsyms) as [keys Hlive].
    unfold scratch_of in Hs. rewrite Hsyms in Hs. destruct Hs as (Hdead & keys' & ->).
    destruct (is_add st) eqn:Hadd; [|destruct (is_remove st) eqn:Hrem].
    + rewrite (dispatch_add_scratch _ _ _ _ _ _ Hadd Hsyms Hlive) in Hrun.
      injection Hrun as <- <-. eexists; split_and!; try done.
      unfold scratch_of; simpl. split; [done|].
      eexists. unfold set_tables; simpl. by rewrite insert_insert_eq.
    + rewrite (dispatch_remove_scratch _ _ _ _ _ _ Hadd Hrem Hsyms Hlive) in Hrun.
      injection Hrun as <- <-. eexists; split_and!; try done.
      unfold scratch_of; simpl. split; [done|].
      eexists. unfold set_tables; simpl. by rewrite insert_insert_eq.
    + rewrite (dispatch_reset_scratch _ _ _ _ _ _ Hadd Hrem Hsyms Hlive) in Hrun.
      injection Hrun as <- <-. simpl. rewrite delete_insert_id by done.
      eexists; split_and!; try done.
      unfold scratch_of; simpl. split; [apply fresh_table_dead|]. by eexists.
  - unfold scratch_of in Hs. rewrite Hsyms in Hs. subst h.
    destruct (is_add st) eqn:Hadd; [|destruct (is_remove st) eqn:Hrem].
    + unfold dispatch in Hrun. rewrite Hadd, Hsyms in Hrun.
      apply bind_inv in Hrun as (syms & h1 & Hcopy & Hrun).
      apply copy_hash_table_done in Hcopy as (Hdead & keys & ->).
      erewrite bind_done in Hrun;
        [|apply add_by_tags_live; simpl; apply lookup_insert_eq].
      injection Hrun as <- <-. eexists; split_and!; try done.
      unfold scratch_of; simpl. split; [done|].
      eexists. unfold set_tables; simpl. by rewrite insert_insert_eq.
    + unfold dispatch in Hrun. rewrite Hadd, Hrem, Hsyms in Hrun.
      apply bind_inv in Hrun as (syms & h1 & Hcopy & Hrun).
      apply copy_hash_table_done in Hcopy as (Hdead & keys & ->).
      erewrite bind_done in Hrun;
        [|apply remove_by_tags_live; simpl; apply lookup_insert_eq].
      injection Hrun as <- <-. eexists; split_and!; try done.
      unfold scratch_of; simpl. split; [done|].
      eexists. unfold set_tables; simpl. by rewrite insert_insert_eq.
    + rewrite (dispatch_reset_none _ _ _ _ Hadd Hrem Hsyms) in Hrun.
      injection Hrun as <- <-. eexists; split_and!; try done.
      unfold scratch_of; simpl. split; [apply fresh_table_dead|]. by eexists.
Qed.

Lemma scan_clause_new_syms st :
  match scan_clause st with
  | ScanBreak st' | ScanError st' _ | ScanTag st' _ => new_syms st' = new_syms st
  end.
Proof.
  unfold scan_clause.
  repeat match goal with
         | |- context [if ?b then _ else _] => destruct b; simpl; try done
         | |- context [match parse_symbol_tag ?p ?n with _ => _ end] =>
             destruct (parse_symbol_tag p n); simpl; try done
         end.
Qed.

(** A turn that finds a tag leaves [p0] strictly further in the string. *)
Lemma scan_clause_shorter st st' sc :
  scan_clause st = ScanTag st' sc →
  (String.length (p0 st') < String.length (p0 st))%nat.
Proof.
  unfold scan_clause.
  set (p1 := advance (strspn (p0 st) " ,") (p0 st)).
  assert (String.length p1 ≤ String.length (p0 st))%nat as Hp1
    by (unfold p1; rewrite length_advance; lia).
  destruct (at_nul p1); [done|].
  set (st1 := if Ascii.eqb (deref p1) "-" then _ else _).
  assert (String.length (p0 st1) ≤ String.length p1)%nat as Hst1.
  { unfold st1. destruct (Ascii.eqb (deref p1) "-"); [|destruct (Ascii.eqb (deref p1) "+")];
      cbn [p0]; rewrite ?length_advance; lia. }
  set (p2 := advance (strspn (p0 st1) " ") (p0 st1)).
  assert (String.length p2 ≤ String.length (p0 st1))%nat as Hp2
    by (unfold p2; rewrite length_advance; lia).
  destruct (at_nul p2); [done|].
  set (n := strspn p2 _).
  pose proof (strspn_le p2 "abcdefghijklmnopqrstuvwxyzABCDEFGHIJKLMNOPQRSTUVWXYZ") as Hn.
  fold n in Hn.
  destruct (n =? 0)%nat eqn:Hn0; [done|]. apply Nat.eqb_neq in Hn0.
  destruct (parse_symbol_tag p2 n); [|done].
  intros [= <- <-]. simpl. rewrite length_advance. lia.
Qed.

Lemma scratch_of_new_syms h0 st st' h :
  new_syms st' = new_syms st → scratch_of h0 st h → scratch_of h0 st' h.
Proof. unfold scratch_of. by intros ->. Qed.

(** ** The loop *)

Lemma parse_loop_S fuel symbol_map st :
  parse_loop chafa_symbols (S fuel) symbol_map st =
  if at_nul (p0 st) then ret (st, None)
  else
    match scan_clause st with
    | ScanBreak st' => ret (st', None)
    | ScanError st' error => ret (st', Some error)
    | ScanTag st' sc =>
        let* flow := dispatch chafa_symbols symbol_map st' sc in
        match flow with
        | Next st'' => parse_loop chafa_symbols fuel symbol_map st''
        | Break st'' => ret (st'', None)
        | GotoOut st'' error => ret (st'', Some error)
        end
    end.
Proof.
  simpl. destruct (at_nul (p0 st)); [done|].
  rewrite parse_clause_scan. by destruct (scan_clause st).
Qed.

(** The loop keeps the heap of the call next to its scratch table. *)
Lemma parse_loop_scratch fuel symbol_map st h0 h st' error h' :
  scratch_of h0 st h →
  parse_loop chafa_symbols fuel symbol_map st h = Done (st', error) h' →
  scratch_of h0 st' h'.
Proof.
  revert st h. induction fuel as [|fuel IH]; intros st h Hs; [done|].
  rewrite parse_loop_S. destruct (at_nul (p0 st)).
  { by intros [= <- <- <-]. }
  pose proof (scan_clause_new_syms st) as Hnew.
  destruct (scan_clause st) as [st1|st1 e|st1 sc].
  - intros [= <- <- <-]. by eapply scratch_of_new_syms.
  - intros [= <- <- <-]. by eapply scratch_of_new_syms.
  - intros Hrun. apply bind_inv in Hrun as (flow & h1 & Hd & Hrun).
    eapply dispatch_done in Hd as (st2 & -> & Hs2 & _);
      [|by eapply scratch_of_new_syms].
    by eapply IH.
Qed.

Lemma add_by_tags_from_no_timeout syms i ht tags h :
  add_by_tags_from syms i ht tags h ≠ OutOfFuel.
Proof.
  revert i h. induction syms as [|sym syms IH]; intros i h; simpl; [done|].
  destruct (c sym =? 0); [done|]. unfold bind.
  destruct (Z.land (sc sym) tags =? 0); [apply IH|].
  unfold g_hash_table_add, update_table.
  destruct (hash_tables h !! ht); [apply IH | done].
Qed.

Lemma remove_by_tags_from_no_timeout syms i ht tags h :
  remove_by_tags_from syms i ht tags h ≠ OutOfFuel.
Proof.
  revert i h. induction syms as [|sym syms IH]; intros i h; simpl; [done|].
  destruct (c sym =? 0); [done|]. unfold bind.
  destruct (Z.land (sc sym) tags =? 0); [apply IH|].
  unfold g_hash_table_remove, update_table.
  destruct (hash_tables h !! ht); [apply IH | done].
Qed.

Lemma copy_keys_no_timeout dest keys h : copy_keys dest keys h ≠ OutOfFuel.
Proof.
  revert h. induction keys as [|key keys IH]; intros h; simpl; [done|].
  unfold bind, g_hash_table_insert, update_table.
  destruct (hash_tables h !! dest); [apply IH | done].
Qed.

Lemma copy_hash_table_no_timeout src h : copy_hash_table src h ≠ OutOfFuel.
Proof.
  unfold copy_hash_table, bind. simpl.
  destruct (g_hash_table_iter src _) as [keys h1| |] eqn:Hiter; try done.
  - pose proof (copy_keys_no_timeout (fresh (dom (hash_tables h))) keys h1).
    by destruct (copy_keys _ keys h1).
  - unfold g_hash_table_iter in Hiter. destruct src; [|done].
    by destruct (hash_tables _ !! _).
Qed.

Lemma dispatch_no_timeout symbol_map st sc h :
  dispatch chafa_symbols symbol_map st sc h ≠ OutOfFuel.
Proof.
  unfold dispatch.
  destruct (is_add st); [|destruct (is_remove st)]; unfold bind.
  - destruct (new_syms st) as [syms|].
    + simpl. pose proof (add_by_tags_from_no_timeout chafa_symbols O syms sc h).
      unfold add_by_tags. by destruct (add_by_tags_from _ _ _ _ _).
    + pose proof (copy_hash_table_no_timeout (desired_symbols symbol_map) h).
      destruct (copy_hash_table _ h) as [syms h1| |]; try done.
      pose proof (add_by_tags_from_no_timeout chafa_symbols O syms sc h1).
      unfold add_by_tags. by destruct (add_by_tags_from _ _ _ _ _).
  - destruct (new_syms st) as [syms|].
    + simpl. pose proof (remove_by_tags_from_no_timeout chafa_symbols O syms sc h).
      unfold remove_by_tags. by destruct (remove_by_tags_from _ _ _ _ _).
    + pose proof (copy_hash_table_no_timeout (desired_symbols symbol_map) h).
      destruct (copy_hash_table _ h) as [syms h1| |]; try done.
      pose proof (remove_by_tags_from_no_timeout chafa_symbols O syms sc h1).
      unfold remove_by_tags. by destruct (remove_by_tags_from _ _ _ _ _).
  - destruct (new_syms st) as [syms|].
    + unfold g_hash_table_unref. destruct (hash_tables h !! syms); [|done].
      simpl. unfold add_by_tags.
      match goal with |- context [add_by_tags_from ?a ?b ?c ?d ?e] =>
        pose proof (add_by_tags_from_no_timeout a b c d e);
        by destruct (add_by_tags_from a b c d e) end.
    + simpl. unfold add_by_tags.
      match goal with |- context [add_by_tags_from ?a ?b ?c ?d ?e] =>
        pose proof (add_by_tags_from_no_timeout a b c d e);
        by destruct (add_by_tags_from a b c d e) end.
Qed.

Lemma dispatch_flow symbol_map st sc h flow h' :
  dispatch chafa_symbols symbol_map st sc h = Done flow h' →
  ∃ st', flow = Next st' ∧ p0 st' = p0 st.
Proof.
  unfold dispatch. intros Hrun.
  destruct (is_add st); [|destruct (is_remove st)];
    repeat (apply bind_inv in Hrun as (? & ? & ? & Hrun));
    injection Hrun as <- <-; by eexists.
Qed.

(** The bound that [parse_selectors] gives the loop is never reached:
    the loop ends by itself. *)
Lemma parse_loop_no_timeout fuel symbol_map st h :
  (String.length (p0 st) < fuel)%nat →
  parse_loop chafa_symbols fuel symbol_map st h ≠ OutOfFuel.
Proof.
  revert st h. induction fuel as [|fuel IH]; intros st h Hlen; [lia|].
  rewrite parse_loop_S. destruct (at_nul (p0 st)); [done|].
  pose proof (scan_clause_shorter st) as Hshort.
  destruct (scan_clause st) as [st1|st1 e|st1 sc]; [done|done|].
  specialize (Hshort _ _ eq_refl). unfold bind.
  pose proof (dispatch_no_timeout symbol_map st1 sc h) as Hnt.
  destruct (dispatch _ _ _ _ _) as [flow h1| |] eqn:Hd; try done.
  apply dispatch_flow in Hd as (st2 & -> & Hp). apply IH. rewrite Hp. lia.
Qed.

Lemma parse_selectors_no_timeout symbol_map selectors h :
  parse_selectors chafa_symbols symbol_map selectors h ≠ OutOfFuel.
Proof.
  unfold parse_selectors, bind.
  pose proof (parse_loop_no_timeout (S (String.length selectors)) symbol_map
                (mkParseState selectors false false None) h) as Hnt.
  destruct (parse_loop _ _ _ _ _) as [[st [e|]] h1| |]; simpl in *;
    [..|done|by exfalso; apply Hnt; [lia|]].
  - by destruct (new_syms st); [unfold g_hash_table_unref; destruct (_ !! _)|].
  - by destruct (desired_symbols symbol_map);
      [unfold g_hash_table_unref; destruct (_ !! _)|].
Qed.

(** ** The verdict on the string *)

(** The scan reads the string only: the mode and the scratch table pass
    through it. *)
Lemma scan_clause_initial st :
  match scan_clause st, scan_clause (initial_state (p0 st)) with
  | ScanBreak _, ScanBreak _ => True
  | ScanError _ e, ScanError _ e' => e = e'
  | ScanTag st1 sc, ScanTag st1' sc' => p0 st1 = p0 st1' ∧ sc = sc'
  | _, _ => False
  end.
Proof.
  unfold scan_clause, initial_state. cbn [p0 is_add is_remove new_syms].
  destruct (at_nul _); [done|].
  destruct (Ascii.eqb _ "-"); [|destruct (Ascii.eqb _ "+")]; cbn [p0];
    (destruct (at_nul _); [done|]);
    (destruct (_ =? 0)%nat; [done|]);
    by destruct (parse_symbol_tag _ _).
Qed.

Lemma parse_loop_error fuel symbol_map st h st' error h' :
  parse_loop chafa_symbols fuel symbol_map st h = Done (st', error) h' →
  error = error_from fuel (p0 st).
Proof.
  revert st h. induction fuel as [|fuel IH]; intros st h; [done|].
  rewrite parse_loop_S. simpl. destruct (at_nul (p0 st)).
  { by intros [= <- <- <-]. }
  pose proof (scan_clause_initial st) as Hscan.
  destruct (scan_clause st) as [st1|st1 e|st1 sc];
    destruct (scan_clause (initial_state (p0 st))) as [st2|st2 e2|st2 sc2];
    try done.
  - by intros [= <- <- <-].
  - intros [= <- <- <-]. by subst.
  - destruct Hscan as [Hp _]. intros Hrun.
    apply bind_inv in Hrun as (flow & h1 & Hd & Hrun).
    apply dispatch_flow in Hd as (st3 & -> & Hp3).
    apply IH in Hrun. by rewrite Hrun, Hp3, Hp.
Qed.

(** ** The calls that are defined *)

Lemma scratch_of_table_live h0 st h ht :
  scratch_of h0 st h → is_Some (hash_tables h0 !! ht) → 
  hash_tables h !! ht = hash_tables h0 !! ht.
Proof.
  unfold scratch_of. destruct (new_syms st) as [syms|]; [|by intros ->].
  intros (Hdead & keys & ->) [old Hold]. simpl.
  apply lookup_insert_ne. congruence.
Qed.

Lemma dispatch_defined symbol_map st sc h0 h :
  (new_syms st = None → is_add st || is_remove st = true →
   ∃ ht, desired_symbols symbol_map = Some ht ∧ is_Some (hash_tables h0 !! ht)) →
  scratch_of h0 st h →
  ∃ flow h', dispatch chafa_symbols symbol_map st sc h = Done flow h'.
Proof.
  intros Hcopy Hs. destruct (new_syms st) as [syms|] eqn:Hsyms.
  - destruct (scratch_of_live _ _ _ _ Hs Hsyms) as [keys Hlive].
    destruct (is_add st) eqn:Hadd; [|destruct (is_remove st) eqn:Hrem].
    + rewrite (dispatch_add_scratch _ _ _ _ _ _ Hadd Hsyms Hlive). by eexists _, _.
    + rewrite (dispatch_remove_scratch _ _ _ _ _ _ Hadd Hrem Hsyms Hlive).
      by eexists _, _.
    + rewrite (dispatch_reset_scratch _ _ _ _ _ _ Hadd Hrem Hsyms Hlive).
      by eexists _, _.
  - assert (h = h0) as -> by (unfold scratch_of in Hs; by rewrite Hsyms in Hs).
    destruct (is_add st) eqn:Hadd; [|destruct (is_remove st) eqn:Hrem].
    + destruct Hcopy as (ht & Hht & keys & Hlive); [done..|].
      rewrite (dispatch_add_copy _ _ _ _ _ _ Hadd Hsyms Hht Hlive). by eexists _, _.
    + destruct Hcopy as (ht & Hht & keys & Hlive); [done..|].
      rewrite (dispatch_remove_copy _ _ _ _ _ _ Hadd Hrem Hsyms Hht Hlive).
      by eexists _, _.
    + rewrite (dispatch_reset_none _ _ _ _ Hadd Hrem Hsyms). by eexists _, _.
Qed.

(** The loop is defined whenever its first copy is: the map has a
    table, or the scratch table is there already. *)
Lemma parse_loop_defined fuel symbol_map st h0 h :
  (String.length (p0 st) < fuel)%nat →
  (new_syms st = None →
   ∃ ht, desired_symbols symbol_map = Some ht ∧ is_Some (hash_tables h0 !! ht)) →
  scratch_of h0 st h →
  ∃ exit h', parse_loop chafa_symbols fuel symbol_map st h = Done exit h'.
Proof.
  revert st h. induction fuel as [|fuel IH]; intros st h Hlen Hcopy Hs; [lia|].
  rewrite parse_loop_S. destruct (at_nul (p0 st)); [by eexists _, _|].
  pose proof (scan_clause_new_syms st) as Hnew.
  pose proof (scan_clause_shorter st) as Hshort.
  destruct (scan_clause st) as [st1|st1 e|st1 sc]; [by eexists _, _..|].
  specialize (Hshort _ _ eq_refl).
  destruct (dispatch_defined symbol_map st1 sc h0 h) as (flow & h1 & Hd).
  { rewrite Hnew. auto. }
  { by eapply scratch_of_new_syms. }
  rewrite (bind_done _ _ _ _ _ Hd).
  eapply dispatch_done in Hd as (st2 & -> & Hs2 & Hp & _ & [syms Hsyms]);
    [|by eapply scratch_of_new_syms].
  apply IH; [rewrite Hp; lia | by rewrite Hsyms | done].
Qed.

(** ** [parse_selectors] as a whole *)

Lemma scratch_of_initial selectors h : scratch_of h (initial_state selectors) h.
Proof. done. Qed.

Lemma unref_scratch h0 st h :
  scratch_of h0 st h →
  match new_syms st with
  | Some syms => g_hash_table_unref syms
  | None => ret tt
  end h = Done tt h0.
Proof.
  unfold scratch_of. destruct (new_syms st) as [syms|]; [|by intros ->].
  intros (Hdead & keys & ->). unfold g_hash_table_unref. simpl.
  rewrite lookup_insert_eq. unfold set_tables; simpl.
  by rewrite delete_insert_id, set_tables_id' by done.
Qed.

(** What a call of [parse_selectors] that returns has done. *)
Lemma parse_selectors_inv symbol_map selectors h result error symbol_map' h' :
  parse_selectors chafa_symbols symbol_map selectors h
  = Done (result, error, symbol_map') h' →
  result = true ∧ error = selectors_error selectors ∧
  match error with
  | Some _ => symbol_map' = symbol_map ∧ h' = h
  | None =>
      need_rebuild symbol_map' = true ∧ refs symbol_map' = refs symbol_map ∧
      symbols symbol_map' = symbols symbol_map ∧
      symbol_arrays h' = symbol_arrays h
  end.
Proof.
  unfold parse_selectors. intros Hrun.
  apply bind_inv in Hrun as ([st e] & h1 & Hloop & Hrun).
  pose proof (parse_loop_scratch _ _ _ _ _ _ _ _ (scratch_of_initial _ _) Hloop) as Hs.
  apply parse_loop_error in Hloop. simpl in Hloop.
  destruct e as [e|].
  - rewrite (bind_done _ _ _ _ _ (unref_scratch _ _ _ Hs)) in Hrun.
    by injection Hrun as <- <- <- <-.
  - apply bind_inv in Hrun as ([] & h2 & Hunref & Hrun).
    injection Hrun as <- <- <- <-. split_and!; try done.
    assert (symbol_arrays h1 = symbol_arrays h) as <-.
    { unfold scratch_of in Hs. destruct (new_syms st); [|by subst].
      by destruct Hs as (_ & keys & ->). }
    destruct (desired_symbols symbol_map) as [old|]; [|by injection Hunref as <-].
    unfold g_hash_table_unref in Hunref.
    destruct (hash_tables h1 !! old); [|done]. by injection Hunref as <-.
Qed.

Lemma first_clause_signed_not_nul selectors :
  first_clause_signed selectors = true → at_nul selectors = false.
Proof.
  unfold first_clause_signed, scan_clause, initial_state. cbn [p0].
  destruct selectors as [|ch selectors]; [done|]. unfold at_nul at 3. simpl.
  destruct (code ch =? 0) eqn:Hnul; [|done]. simpl.
  unfold at_nul. simpl. by rewrite Hnul.
Qed.

(** The loop from its first turn on, for a map whose first copy has a
    source. *)
Lemma parse_loop_initial_defined symbol_map selectors h :
  copy_source_ok symbol_map selectors h →
  ∃ exit h', parse_loop chafa_symbols (S (String.length selectors)) symbol_map
               (initial_state selectors) h = Done exit h'.
Proof.
  unfold copy_source_ok. intros Hok.
  destruct (desired_symbols symbol_map) as [ht|] eqn:Hht.
  { apply (parse_loop_defined _ _ _ h); [simpl; lia | by eauto | done]. }
  rewrite parse_loop_S. destruct (at_nul _); [by eexists _, _|].
  unfold first_clause_signed in Hok.
  pose proof (scan_clause_new_syms (initial_state selectors)) as Hnew.
  pose proof (scan_clause_shorter (initial_state selectors)) as Hshort.
  destruct (scan_clause _) as [st1|st1 e|st1 sc]; [by eexists _, _..|].
  specialize (Hshort _ _ eq_refl). apply orb_false_iff in Hok as [Hadd Hrem].
  rewrite (bind_done _ _ _ _ _ (dispatch_reset_none _ _ _ _ Hadd Hrem Hnew)).
  apply (parse_loop_defined _ _ _ h); [simpl in *; lia | done |].
  unfold scratch_of; simpl. split; [apply fresh_table_dead | by eexists].
Qed.

Lemma parse_selectors_defined symbol_map selectors h :
  copy_source_ok symbol_map selectors h →
  ∃ res h', parse_selectors chafa_symbols symbol_map selectors h = Done res h'.
Proof.
  intros Hok. unfold parse_selectors.
  destruct (parse_loop_initial_defined _ _ _ Hok) as ([st e] & h1 & Hloop).
  change (mkParseState selectors false false None) with (initial_state selectors).
  rewrite (bind_done _ _ _ _ _ Hloop).
  pose proof (parse_loop_scratch _ _ _ _ _ _ _ _ (scratch_of_initial _ _) Hloop) as Hs.
  destruct e as [e|].
  - rewrite (bind_done _ _ _ _ _ (unref_scratch _ _ _ Hs)). by eexists _, _.
  - unfold copy_source_ok in Hok.
    destruct (desired_symbols symbol_map) as [old|]; [|by eexists _, _].
    unfold bind, g_hash_table_unref.
    rewrite (scratch_of_table_live _ _ _ _ Hs Hok).
    destruct Hok as [keys ->]. by eexists _, _.
Qed.

Lemma parse_selectors_null_signed symbol_map selectors h :
  desired_symbols symbol_map = None →
  first_clause_signed selectors = true →
  parse_selectors chafa_symbols symbol_map selectors h = Undefined.
Proof.
  intros Hnull Hsigned. unfold parse_selectors, bind.
  change (mkParseState selectors false false None) with (initial_state selectors).
  rewrite parse_loop_S.
  change (p0 (initial_state selectors)) with selectors.
  rewrite (first_clause_signed_not_nul _ Hsigned).
  unfold first_clause_signed in Hsigned.
  pose proof (scan_clause_new_syms (initial_state selectors)) as Hnew.
  destruct (scan_clause _) as [st1|st1 e|st1 sc]; [done..|].
  unfold bind, dispatch. simpl in Hnew. rewrite Hnew, Hnull.
  destruct (is_add st1); [done|]. by destruct (is_remove st1).
Qed.
End TurnLemmas.

(** ** Parse errors, the empty string, and the domain of the parser *)

Section ParserClaims.
Context {tv : TagValues}.
Variable chafa_symbols : list ChafaSymbol.

(** C4: whenever [parse_selectors] leaves through [goto out], with an
    error set (an unrecognized tag name, or no letter where a tag name
    has to start), the map is as it was before the call: its selection
    table with the same keys, its [need_rebuild] flag, and the whole
    heap, so that nothing of the clauses already processed remains. *)
Theorem parse_selectors_abort_leaves_map
    symbol_map selectors h result error symbol_map' h' :
  parse_selectors chafa_symbols symbol_map selectors h
  = Done (result, Some error, symbol_map') h' →
  symbol_map' = symbol_map ∧ h' = h ∧
  selection symbol_map' h' = selection symbol_map h ∧
  need_rebuild symbol_map' = need_rebuild symbol_map.
Proof.
  intros Hrun. apply parse_selectors_inv in Hrun as (_ & _ & -> & ->). done.
Qed.

Lemma no_clauses_advance selectors :
  no_clauses selectors = true →
  advance (strspn selectors " ,") selectors = EmptyString.
Proof.
  induction selectors as [|ch selectors IH]; [done|]. simpl.
  intros [Hch Hrest]%andb_true_iff.
  apply orb_true_iff in Hch as [->%Ascii.eqb_eq| ->%Ascii.eqb_eq]; simpl; auto.
Qed.

Lemma no_clauses_loop symbol_map selectors h :
  no_clauses selectors = true →
  ∃ st, parse_loop chafa_symbols (S (String.length selectors)) symbol_map
          (initial_state selectors) h = Done (st, None) h ∧ new_syms st = None.
Proof.
  intros Hno. rewrite parse_loop_S.
  destruct (at_nul _); [by eexists|].
  unfold scan_clause. cbn [p0 initial_state].
  rewrite (no_clauses_advance _ Hno). by eexists.
Qed.

(** C10: on a live map, a selector string with no clause in it (the
    empty string, or spaces and commas only) is applied with success
    and no error; the map is left with no selection table, that is,
    with the empty selection, and with [need_rebuild] set. *)
Theorem apply_selectors_no_clauses_clears symbol_map selectors h :
  0 < refs symbol_map →
  table_live symbol_map h →
  no_clauses selectors = true →
  ∃ symbol_map' h',
    chafa_symbol_map_apply_selectors chafa_symbols symbol_map selectors h
    = Done (true, None, symbol_map') h' ∧
    desired_symbols symbol_map' = None ∧
    selection symbol_map' h' = ∅ ∧
    need_rebuild symbol_map' = true.
Proof.
  intros Hrefs Hlive Hno. unfold chafa_symbol_map_apply_selectors.
  replace (refs symbol_map >? 0) with true by (symmetry; apply Z.gtb_lt; lia).
  simpl. unfold parse_selectors.
  destruct (no_clauses_loop symbol_map selectors h Hno) as (st & Hloop & Hsyms).
  change (mkParseState selectors false false None) with (initial_state selectors).
  rewrite (bind_done _ _ _ _ _ Hloop). rewrite Hsyms.
  unfold table_live in Hlive.
  destruct (desired_symbols symbol_map) as [old|].
  - destruct Hlive as [keys Hkeys].
    unfold bind, g_hash_table_unref. rewrite Hkeys. by eexists _, _.
  - by eexists _, _.
Qed.

(** C9: a call of [chafa_symbol_map_apply_selectors] on a live map is
    defined exactly under this precondition: if the first clause that
    the parser applies carries a sign, the map has a selection table.
    On a map without one, as [chafa_symbol_map_init] leaves it, such a
    string takes the parser to [copy_hash_table] with NULL, which is
    undefined; in every other case the call returns. *)
Theorem apply_selectors_domain symbol_map selectors h :
  0 < refs symbol_map →
  table_live symbol_map h →
  (desired_symbols symbol_map = None ∧ first_clause_signed selectors = true →
   chafa_symbol_map_apply_selectors chafa_symbols symbol_map selectors h = Undefined) ∧
  (¬ (desired_symbols symbol_map = None ∧ first_clause_signed selectors = true) →
   ∃ res h',
     chafa_symbol_map_apply_selectors chafa_symbols symbol_map selectors h
     = Done res h').
Proof.
  intros Hrefs Hlive. unfold chafa_symbol_map_apply_selectors.
  replace (refs symbol_map >? 0) with true by (symmetry; apply Z.gtb_lt; lia).
  simpl. split.
  - intros [Hnull Hsigned]. by apply parse_selectors_null_signed.
  - intros Hnot. apply parse_selectors_defined. unfold copy_source_ok.
    unfold table_live in Hlive. destruct (desired_symbols symbol_map); [done|].
    destruct (first_clause_signed selectors); [|done]. by destruct Hnot.
Qed.
End ParserClaims.

Lemma parse_selectors_abort_leaves_map_witness :
  parse_selectors (tv := sample_tags) sample_symbols sample_map "+block,b0rder" sample_heap
  = Done (true,
          Some (G_OPTION_ERROR_BAD_VALUE "Syntax error in symbol tag selectors."),
          sample_map) sample_heap ∧
  (sample_map = sample_map ∧ sample_heap = sample_heap ∧
   selection sample_map sample_heap = selection sample_map sample_heap ∧
   need_rebuild sample_map = need_rebuild sample_map).
Proof.
  split; [vm_compute; reflexivity|].
  apply (parse_selectors_abort_leaves_map (tv := sample_tags) sample_symbols
           sample_map "+block,b0rder" sample_heap true
           (G_OPTION_ERROR_BAD_VALUE "Syntax error in symbol tag selectors.")).
  vm_compute; reflexivity.
Defined.

(** The string ["block-"] is not in error: it is applied, with no error
    stored, and the selection of the space, index 0, becomes the
    selection of the two blocks, indices 1 and 3. *)
Lemma apply_selectors_trailing_sign_applied :
  let after :=
    {| refs := 1; need_rebuild := true; desired_symbols := Some 2%positive;
       symbols := None; n_symbols := O |} in
  let h' := mkHeap {[ 2%positive := {[ 1%nat; 3%nat ]} ]} ∅ in
  chafa_symbol_map_apply_selectors (tv := sample_tags) sample_symbols
    sample_map "block-" sample_heap
  = Done (true, None, after) h' ∧
  selection sample_map sample_heap = {[ O ]} ∧
  selection after h' = {[ 1%nat; 3%nat ]} ∧
  selection after h' ≠ selection sample_map sample_heap.
Proof.
  assert (selection sample_map sample_heap = {[ O ]}) as Hbefore
    by (vm_compute; reflexivity).
  assert (selection
            {| refs := 1; need_rebuild := true; desired_symbols := Some 2%positive;
               symbols := None; n_symbols := O |}
            (mkHeap {[ 2%positive := {[ 1%nat; 3%nat ]} ]} ∅)
          = {[ 1%nat; 3%nat ]}) as Hafter by (vm_compute; reflexivity).
  cbv zeta. split_and!; [vm_compute; reflexivity | done | done |].
  rewrite Hbefore, Hafter. intros Heq.
  assert (1%nat ∈ ({[ O ]} : gset nat)) as Hin by (rewrite <- Heq; set_solver).
  set_solver.
Qed.

Lemma apply_selectors_domain_witness :
  (desired_symbols chafa_symbol_map_new = None ∧
   first_clause_signed (tv := sample_tags) "+block" = true →
   chafa_symbol_map_apply_selectors (tv := sample_tags) sample_symbols
     chafa_symbol_map_new "+block" empty_heap = Undefined) ∧
  (¬ (desired_symbols chafa_symbol_map_new = None ∧
      first_clause_signed (tv := sample_tags) "+block" = true) →
   ∃ res h',
     chafa_symbol_map_apply_selectors (tv := sample_tags) sample_symbols
       chafa_symbol_map_new "+block" empty_heap = Done res h').
Proof.
  apply (apply_selectors_domain (tv := sample_tags) sample_symbols
           chafa_symbol_map_new "+block" empty_heap).
  - reflexivity.
  - vm_compute. exact I.
Defined.

Lemma apply_selectors_no_clauses_clears_witness :
  ∃ symbol_map' h',
    chafa_symbol_map_apply_selectors (tv := sample_tags) sample_symbols
      sample_map " , ," sample_heap
    = Done (true, None, symbol_map') h' ∧
    desired_symbols symbol_map' = None ∧
    selection symbol_map' h' = ∅ ∧
    need_rebuild symbol_map' = true.
Proof.
  apply (apply_selectors_no_clauses_clears (tv := sample_tags) sample_symbols
           sample_map " , ," sample_heap).
  - reflexivity.
  - vm_compute. eexists. reflexivity.
  - reflexivity.
Defined.

(** ** The clauses of a selector string, turn by turn *)

Section Clauses.
Context {tv : TagValues}.
Variable chafa_symbols : list ChafaSymbol.

Lemma parse_loop_turn fuel symbol_map st h st1 sc st2 h2 :
  at_nul (p0 st) = false →
  scan_clause st = ScanTag st1 sc →
  dispatch chafa_symbols symbol_map st1 sc h = Done (Next st2) h2 →
  parse_loop chafa_symbols (S fuel) symbol_map st h
  = parse_loop chafa_symbols fuel symbol_map st2 h2.
Proof.
  intros Hnul Hscan Hd. rewrite parse_loop_S, Hnul, Hscan.
  by rewrite (bind_done _ _ _ _ _ Hd).
Qed.

Lemma dispatch_add_onto symbol_map st sc t h syms keys :
  is_add st = true → new_syms st = Some syms →
  dispatch chafa_symbols symbol_map st sc (set_tables (<[syms := keys]> t) h) =
  Done (Next (mkParseState (p0 st) true (is_remove st) (Some syms)))
       (set_tables (<[syms := entries_matching chafa_symbols sc ∪ keys]> t) h).
Proof.
  intros Hadd Hsyms.
  erewrite dispatch_add_scratch; [|done|done|simpl; apply lookup_insert_eq].
  unfold set_tables; simpl. by rewrite insert_insert_eq.
Qed.

Lemma dispatch_remove_from symbol_map st sc t h syms keys :
  is_add st = false → is_remove st = true → new_syms st = Some syms →
  dispatch chafa_symbols symbol_map st sc (set_tables (<[syms := keys]> t) h) =
  Done (Next (mkParseState (p0 st) false true (Some syms)))
       (set_tables (<[syms := keys ∖ entries_matching chafa_symbols sc]> t) h).
Proof.
  intros Hadd Hrem Hsyms.
  erewrite dispatch_remove_scratch; [|done|done|done|simpl; apply lookup_insert_eq].
  unfold set_tables; simpl. by rewrite insert_insert_eq.
Qed.

(** C5: on a live map whose selection is exactly the catalog indices
    matching SPACE, as [chafa_symbol_map_add_by_tags] with SPACE leaves
    a new map, applying ["+block,border-dot,stipple"] succeeds, with no
    error, and the selection becomes the indices matching SPACE, BLOCK
    or BORDER, less those matching DOT or STIPPLE. *)
Theorem apply_selectors_block_border_scenario symbol_map h ht :
  0 < refs symbol_map →
  desired_symbols symbol_map = Some ht →
  hash_tables h !! ht = Some (entries_matching chafa_symbols CHAFA_SYMBOL_TAG_SPACE) →
  ∃ symbol_map' h',
    chafa_symbol_map_apply_selectors chafa_symbols symbol_map
      "+block,border-dot,stipple" h
    = Done (true, None, symbol_map') h' ∧
    need_rebuild symbol_map' = true ∧
    selection symbol_map' h' =
    (entries_matching chafa_symbols CHAFA_SYMBOL_TAG_SPACE
     ∪ entries_matching chafa_symbols CHAFA_SYMBOL_TAG_BLOCK
     ∪ entries_matching chafa_symbols CHAFA_SYMBOL_TAG_BORDER)
    ∖ (entries_matching chafa_symbols CHAFA_SYMBOL_TAG_DOT
       ∪ entries_matching chafa_symbols CHAFA_SYMBOL_TAG_STIPPLE).
Proof.
  intros Hrefs Hht Hlive. unfold chafa_symbol_map_apply_selectors.
  replace (refs symbol_map >? 0) with true by (symmetry; apply Z.gtb_lt; lia).
  cbn [negb]. unfold parse_selectors.
  pose proof (fresh_table_dead h) as Hfresh.
  set (syms := fresh (dom (hash_tables h))) in *.
  assert (ht ≠ syms) as Hne by congruence.
  set (space := entries_matching chafa_symbols CHAFA_SYMBOL_TAG_SPACE) in *.
  set (block := entries_matching chafa_symbols CHAFA_SYMBOL_TAG_BLOCK).
  set (border := entries_matching chafa_symbols CHAFA_SYMBOL_TAG_BORDER).
  set (dot := entries_matching chafa_symbols CHAFA_SYMBOL_TAG_DOT).
  set (stipple := entries_matching chafa_symbols CHAFA_SYMBOL_TAG_STIPPLE).
  erewrite bind_done; cycle 1.
  { change (String.length "+block,border-dot,stipple") with 25%nat.
    rewrite (parse_loop_turn _ _ _ _
               (mkParseState ",border-dot,stipple" true false None)
               CHAFA_SYMBOL_TAG_BLOCK
               (mkParseState ",border-dot,stipple" true false (Some syms))
               (set_tables (<[syms := block ∪ space]> (hash_tables h)) h));
      [|reflexivity|reflexivity|by apply dispatch_add_copy with (ht := ht)].
    rewrite (parse_loop_turn _ _ _ _
               (mkParseState "-dot,stipple" true false (Some syms))
               CHAFA_SYMBOL_TAG_BORDER
               (mkParseState "-dot,stipple" true false (Some syms))
               (set_tables (<[syms := border ∪ (block ∪ space)]> (hash_tables h)) h));
      [|reflexivity|reflexivity|by apply dispatch_add_onto].
    rewrite (parse_loop_turn _ _ _ _
               (mkParseState ",stipple" false true (Some syms))
               CHAFA_SYMBOL_TAG_DOT
               (mkParseState ",stipple" false true (Some syms))
               (set_tables (<[syms := (border ∪ (block ∪ space)) ∖ dot]>
                              (hash_tables h)) h));
      [|reflexivity|reflexivity|by apply dispatch_remove_from].
    rewrite (parse_loop_turn _ _ _ _
               (mkParseState "" false true (Some syms))
               CHAFA_SYMBOL_TAG_STIPPLE
               (mkParseState "" false true (Some syms))
               (set_tables (<[syms := (border ∪ (block ∪ space)) ∖ dot ∖ stipple]>
                              (hash_tables h)) h));
      [|reflexivity|reflexivity|by apply dispatch_remove_from].
    rewrite parse_loop_S. reflexivity. }
  cbn [new_syms]. rewrite Hht.
  erewrite bind_done; cycle 1.
  { unfold g_hash_table_unref. simpl. by rewrite lookup_insert_ne, Hlive. }
  eexists _, _. split; [reflexivity|]. split; [done|].
  unfold selection; simpl.
  rewrite lookup_delete_ne, lookup_insert_eq by done. simpl. set_solver.
Qed.
End Clauses.

Lemma apply_selectors_block_border_scenario_witness :
  ∃ symbol_map' h',
    chafa_symbol_map_apply_selectors (tv := sample_tags) sample_symbols sample_map
      "+block,border-dot,stipple" sample_heap
    = Done (true, None, symbol_map') h' ∧
    need_rebuild symbol_map' = true ∧
    selection symbol_map' h' =
    (entries_matching sample_symbols 1
     ∪ entries_matching sample_symbols 8
     ∪ entries_matching sample_symbols 16)
    ∖ (entries_matching sample_symbols 64 ∪ entries_matching sample_symbols 4).
Proof.
  apply (apply_selectors_block_border_scenario (tv := sample_tags) sample_symbols
           sample_map sample_heap 1%positive).
  - reflexivity.
  - reflexivity.
  - vm_compute. reflexivity.
Defined.

Section UnsignedClauses.
Context {tv : TagValues}.
Variable chafa_symbols : list ChafaSymbol.

Lemma clause_unsigned_scan st st1 sc :
  clause_unsigned st = true →
  scan_clause st = ScanTag st1 sc →
  is_add st1 = is_add st ∧ is_remove st1 = is_remove st ∧
  new_syms st1 = new_syms st.
Proof.
  unfold clause_unsigned, scan_clause.
  intros [Hminus Hplus]%andb_true_iff.
  apply negb_true_iff in Hminus, Hplus. rewrite Hminus, Hplus.
  cbn [p0 is_add is_remove new_syms].
  destruct (at_nul _); [done|]. destruct (at_nul _); [done|].
  destruct (_ =? 0)%nat; [done|].
  destruct (parse_symbol_tag _ _); [|done]. by intros [= <- <-].
Qed.

(** Every turn that applies a tag leaves a mode set. *)
Lemma parse_clause_sets_mode symbol_map st h st' h' :
  parse_clause chafa_symbols symbol_map st h = Done (Next st') h' →
  is_add st' || is_remove st' = true.
Proof.
  rewrite parse_clause_scan.
  destruct (scan_clause st) as [st1|st1 e|st1 sc]; [done..|].
  unfold dispatch. intros Hrun.
  destruct (is_add st1) eqn:Hadd; [|destruct (is_remove st1) eqn:Hrem];
    repeat (apply bind_inv in Hrun as (? & ? & ? & Hrun));
    injection Hrun as <- <-; simpl; by rewrite ?Hadd, ?Hrem.
Qed.

(** C3, as amended: a clause without a sign replaces the scratch
    selection by a new set, holding the symbols that match its tag and
    nothing else, only when no mode is set, that is, when no clause has
    been applied before it. With a mode set, after a ['+'] or ['-']
    clause or after any clause without a sign, it keeps the scratch
    table and adds the matching symbols to it in add mode, or removes
    them from it in remove mode. Every clause that is applied sets a
    mode, so only the first one can start from a new set. *)
Theorem unsigned_clause_resets_only_without_mode symbol_map st st1 sc h :
  clause_unsigned st = true →
  scan_clause st = ScanTag st1 sc →
  (∀ syms, new_syms st = Some syms → is_Some (hash_tables h !! syms)) →
  (new_syms st = None → is_add st = false ∧ is_remove st = false) →
  (∃ st' h',
     parse_clause chafa_symbols symbol_map st h = Done (Next st') h' ∧
     is_add st' || is_remove st' = true ∧
     (is_add st || is_remove st = true → new_syms st' = new_syms st) ∧
     scratch_keys st' h' =
     Some (if is_add st
           then entries_matching chafa_symbols sc ∪ default ∅ (scratch_keys st h)
           else if is_remove st
           then default ∅ (scratch_keys st h) ∖ entries_matching chafa_symbols sc
           else entries_matching chafa_symbols sc)) ∧
  (∀ st0 h0 st0' h0',
     parse_clause chafa_symbols symbol_map st0 h0 = Done (Next st0') h0' →
     is_add st0' || is_remove st0' = true).
Proof.
  intros Hunsigned Hscan Hlive Hfirst. split; [|apply parse_clause_sets_mode].
  rewrite parse_clause_scan, Hscan.
  destruct (clause_unsigned_scan _ _ _ Hunsigned Hscan) as (Hadd & Hrem & Hsyms).
  unfold scratch_keys at 2 3.
  destruct (new_syms st) as [syms|] eqn:Hnew.
  - destruct (Hlive syms eq_refl) as [keys Hkeys]. rewrite Hkeys. simpl.
    destruct (is_add st) eqn:Hadd'; [|destruct (is_remove st) eqn:Hrem'].
    + rewrite (dispatch_add_scratch _ _ _ _ _ _ _ Hadd Hsyms Hkeys).
      eexists _, _. split_and!; try done.
      unfold scratch_keys; simpl. apply lookup_insert_eq.
    + rewrite (dispatch_remove_scratch _ _ _ _ _ _ _ Hadd Hrem Hsyms Hkeys).
      eexists _, _. split_and!; try done.
      unfold scratch_keys; simpl. apply lookup_insert_eq.
    + rewrite (dispatch_reset_scratch _ _ _ _ _ _ _ Hadd Hrem Hsyms Hkeys).
      eexists _, _. split_and!; try done.
      unfold scratch_keys; simpl. apply lookup_insert_eq.
  - destruct (Hfirst eq_refl) as [Hadd' Hrem']. rewrite Hadd', Hrem' in *.
    rewrite (dispatch_reset_none _ _ _ _ _ Hadd Hrem Hsyms).
    eexists _, _. split_and!; try done.
    unfold scratch_keys; simpl. apply lookup_insert_eq.
Qed.
End UnsignedClauses.

(** In ["+block,border"] the clause ["border"] has no sign and comes
    after a ['+'] clause. A new empty set before it would leave the
    border symbols alone, indices 4, 5 and 6; the space and the blocks
    are still selected. *)
Lemma unsigned_clause_after_sign_keeps_scratch :
  chafa_symbol_map_apply_selectors (tv := sample_tags) sample_symbols
    sample_map "+block,border" sample_heap
  = Done (true, None,
          {| refs := 1; need_rebuild := true; desired_symbols := Some 2%positive;
             symbols := None; n_symbols := O |})
         (mkHeap {[ 2%positive := {[ 0%nat; 1%nat; 3%nat; 4%nat; 5%nat; 6%nat ]} ]} ∅) ∧
  entries_matching sample_symbols (CHAFA_SYMBOL_TAG_BORDER (TagValues := sample_tags))
  = {[ 4%nat; 5%nat; 6%nat ]} ∧
  ({[ 0%nat; 1%nat; 3%nat; 4%nat; 5%nat; 6%nat ]} : gset nat)
  ≠ {[ 4%nat; 5%nat; 6%nat ]}.
Proof.
  split_and!; [vm_compute; reflexivity..|].
  intros Heq.
  assert (0%nat ∈ ({[ 4%nat; 5%nat; 6%nat ]} : gset nat)) as Hin
    by (rewrite <- Heq; set_solver).
  set_solver.
Qed.

Lemma unsigned_clause_resets_only_without_mode_witness :
  (∃ st' h',
     parse_clause (tv := sample_tags) sample_symbols sample_map
       (mkParseState ",border" true false (Some 1%positive)) sample_heap
     = Done (Next st') h' ∧
     is_add st' || is_remove st' = true ∧
     (true || false = true → new_syms st' = Some 1%positive) ∧
     scratch_keys st' h' =
     Some (entries_matching sample_symbols 16
           ∪ default ∅ (scratch_keys (mkParseState ",border" true false (Some 1%positive))
                                     sample_heap))) ∧
  (∀ st0 h0 st0' h0',
     parse_clause (tv := sample_tags) sample_symbols sample_map st0 h0
     = Done (Next st0') h0' →
     is_add st0' || is_remove st0' = true).
Proof.
  apply (unsigned_clause_resets_only_without_mode (tv := sample_tags) sample_symbols
           sample_map (mkParseState ",border" true false (Some 1%positive))
           (mkParseState "" true false (Some 1%positive)) 16 sample_heap).
  - reflexivity.
  - reflexivity.
  - intros syms [= <-]. vm_compute. eexists. reflexivity.
  - intros [=].
Defined.

(** ** The symbol array *)

Lemma store_at base i sym slots a h :
  (i < length slots)%nat →
  store base i sym (set_arrays (<[base := slots]> a) h)
  = Done tt (set_arrays (<[base := <[i := Some sym]> slots]> a) h).
Proof.
  intros Hi. unfold store. simpl. rewrite lookup_insert_eq.
  rewrite decide_True by done. unfold set_arrays; simpl.
  by rewrite insert_insert_eq.
Qed.

Lemma qsort_at base compar syms rest a h :
  qsort base (length syms) compar (set_arrays (<[base := (Some <$> syms) ++ rest]> a) h)
  = Done tt (set_arrays
               (<[base := (Some <$> merge_sort (compar_le compar) syms) ++ rest]> a) h).
Proof.
  unfold qsort. simpl. rewrite lookup_insert_eq.
  rewrite decide_True by (rewrite length_app, length_fmap; lia).
  rewrite take_app_length' by (by rewrite length_fmap).
  rewrite drop_app_length' by (by rewrite length_fmap).
  rewrite (mapM_fmap_Some id Some) by done.
  unfold set_arrays; simpl. by rewrite insert_insert_eq.
Qed.

Section Rebuild.
Variable chafa_symbols : list ChafaSymbol.

Lemma store_symbols_at base keys syms written k a h :
  Forall2 (λ i sym, chafa_symbols_at chafa_symbols i = Some sym) keys syms →
  store_symbols chafa_symbols base (length written) keys
    (set_arrays (<[base := written ++ replicate (length keys + k) None]> a) h)
  = Done tt (set_arrays (<[base := written ++ (Some <$> syms) ++ replicate k None]> a) h).
Proof.
  intros Hkeys. revert written.
  induction Hkeys as [|key sym keys syms Hkey _ IH]; intros written; [done|].
  cbn [store_symbols]. rewrite Hkey. cbn [length Nat.add replicate].
  erewrite bind_done; cycle 1.
  { apply store_at. rewrite length_app. simpl. lia. }
  replace (<[length written := Some sym]> (written ++ None :: replicate (length keys + k) None))
    with ((written ++ [Some sym]) ++ replicate (length keys + k) None); cycle 1.
  { rewrite <- (Nat.add_0_r (length written)). rewrite insert_app_r. simpl.
    by rewrite <- app_assoc. }
  replace (S (length written)) with (length (written ++ [Some sym]))
    by (rewrite length_app; simpl; lia).
  rewrite IH. rewrite <- app_assoc. done.
Qed.

Lemma referenced_Forall2 (keys : list nat) :
  Forall (λ i, is_Some (chafa_symbols_at chafa_symbols i)) keys →
  Forall2 (λ i sym, chafa_symbols_at chafa_symbols i = Some sym) keys
          (omap (chafa_symbols_at chafa_symbols) keys).
Proof.
  induction 1 as [|key keys [sym Hsym] _ IH]; [constructor|].
  simpl. rewrite Hsym. simpl. by constructor.
Qed.

(** What [rebuild_symbols] does on a live map whose selection refers to
    entries of the catalog. *)
Lemma rebuild_symbols_live symbol_map h :
  table_live symbol_map h →
  array_live symbol_map h →
  (∀ i, i ∈ selection symbol_map h → is_Some (chafa_symbols_at chafa_symbols i)) →
  rebuild_symbols chafa_symbols symbol_map h
  = Done {| refs := refs symbol_map;
            need_rebuild := false;
            desired_symbols := desired_symbols symbol_map;
            symbols := Some (fresh (dom (arrays_without symbol_map h)));
            n_symbols := size (selection symbol_map h) |}
         (set_arrays
            (<[fresh (dom (arrays_without symbol_map h)) :=
                 (Some <$> sorted_entries chafa_symbols symbol_map h) ++ [Some zero_symbol]]>
               (arrays_without symbol_map h)) h).
Proof.
  intros Htable Harray Hvalid. unfold rebuild_symbols.
  set (a := arrays_without symbol_map h).
  erewrite (bind_done _ _ h tt (set_arrays a h)); cycle 1.
  { unfold g_free, array_live, a, arrays_without in *.
    destruct (symbols symbol_map) as [old|]; [|by rewrite set_arrays_id].
    by destruct Harray as [slots ->]. }
  unfold sorted_entries, selection, table_live in *.
  destruct (desired_symbols symbol_map) as [ht|] eqn:Hht.
  - destruct Htable as [keys Hkeys]. rewrite Hkeys in *. simpl in Hvalid |- *.
    erewrite bind_done; cycle 1.
    { unfold g_hash_table_size. simpl. by rewrite Hkeys. }
    erewrite bind_done; [|reflexivity].
    unfold set_arrays at 1 2. cbn [symbol_arrays hash_tables].
    change (mkHeap (hash_tables h) ?x) with (set_arrays x h).
    erewrite bind_done; cycle 1.
    { erewrite bind_done; cycle 1.
      { unfold g_hash_table_iter. simpl. by rewrite Hkeys. }
      assert (Forall2 (λ i sym, chafa_symbols_at chafa_symbols i = Some sym)
                (elements keys) (referenced chafa_symbols keys)) as Hrefd.
      { apply referenced_Forall2, Forall_forall. intros i Hi.
        apply Hvalid. by apply elem_of_elements. }
      erewrite bind_done; cycle 1.
      { apply (store_symbols_at _ _ _ [] 1 _ _ Hrefd). }
      simpl. replace (size keys) with (length (referenced chafa_symbols keys))
        by (symmetry; apply (Forall2_length _ _ _ Hrefd)).
      apply qsort_at. }
    erewrite bind_done; cycle 1.
    { apply store_at. rewrite length_app, length_fmap. simpl.
      rewrite merge_sort_Permutation.
      assert (length (referenced chafa_symbols keys) = size keys) as ->; [|lia].
      symmetry. eapply Forall2_length, referenced_Forall2, Forall_forall.
      intros i Hi. apply Hvalid. by apply elem_of_elements. }
    unfold ret.
    assert (size keys = length (Some <$> merge_sort (compar_le compare_symbols)
                                           (referenced chafa_symbols keys))) as Hsize.
    { rewrite length_fmap, merge_sort_Permutation.
      eapply Forall2_length, referenced_Forall2, Forall_forall.
      intros i Hi. apply Hvalid. by apply elem_of_elements. }
    assert (<[size keys := Some zero_symbol]>
              ((Some <$> merge_sort (compar_le compare_symbols)
                           (referenced chafa_symbols keys)) ++ [None])
            = (Some <$> merge_sort (compar_le compare_symbols)
                          (referenced chafa_symbols keys)) ++ [Some zero_symbol])
      as ->; [|reflexivity].
    rewrite Hsize, <- (Nat.add_0_r (length _)), insert_app_r. done.
  - rewrite size_empty. unfold referenced. rewrite elements_empty.
    erewrite bind_done; [|reflexivity].
    erewrite bind_done; [|reflexivity].
    unfold set_arrays at 1 2. cbn [symbol_arrays hash_tables].
    change (mkHeap (hash_tables h) ?x) with (set_arrays x h).
    erewrite (bind_done _ _ _ tt); [|reflexivity].
    erewrite bind_done; [|by apply store_at; simpl; lia].
    reflexivity.
Qed.
End Rebuild.

(** ** The order of [compare_symbols] *)

Lemma compare_symbols_le a b : compar_le compare_symbols a b ↔ c a ≤ c b.
Proof.
  unfold compar_le, compare_symbols.
  destruct (c a <? c b) eqn:Hlt; [apply Z.ltb_lt in Hlt; lia|].
  apply Z.ltb_ge in Hlt.
  destruct (c a >? c b) eqn:Hgt; [apply Z.gtb_lt in Hgt; lia|].
  rewrite Z.gtb_ltb in Hgt. apply Z.ltb_ge in Hgt. lia.
Qed.

Global Instance compare_symbols_total : Total (compar_le compare_symbols).
Proof. intros a b. rewrite !compare_symbols_le. lia. Qed.

Global Instance compare_symbols_trans : Transitive (compar_le compare_symbols).
Proof. intros a b d. rewrite !compare_symbols_le. lia. Qed.

Lemma StronglySorted_weaken {A} (R R' : relation A) l :
  (∀ x y, R x y → R' x y) → StronglySorted R l → StronglySorted R' l.
Proof.
  intros HR. induction 1 as [|x l _ IH Hx]; constructor; [done|].
  eapply Forall_impl; [exact Hx | auto].
Qed.

Lemma sorted_strict (body : list ChafaSymbol) :
  StronglySorted (λ a b, c a ≤ c b) body →
  NoDup (c <$> body) →
  StronglySorted (λ a b, c a < c b) body.
Proof.
  induction 1 as [|x l _ IH Hx]; [constructor|].
  rewrite fmap_cons. intros [Hnotin Hnodup]%NoDup_cons.
  constructor; [by apply IH|].
  apply Forall_forall. intros y Hy.
  pose proof (proj1 (Forall_forall _ _) Hx y Hy) as Hle. simpl in Hle.
  assert (c x ≠ c y); [|lia].
  intros Heq. apply Hnotin. rewrite Heq. by apply list_elem_of_fmap_2.
Qed.

(** ** The catalog and its indices *)

Section CatalogLemmas.
Variable chafa_symbols : list ChafaSymbol.

Lemma catalog_size_of_le syms : (catalog_size_of syms ≤ length syms)%nat.
Proof.
  induction syms as [|sym syms IH]; simpl; [lia|].
  destruct (c sym =? 0); simpl; lia.
Qed.

Lemma catalog_size_le : (catalog_size chafa_symbols ≤ length chafa_symbols)%nat.
Proof. apply catalog_size_of_le. Qed.

Lemma chafa_symbols_at_lookup i :
  (i < length chafa_symbols)%nat →
  chafa_symbols_at chafa_symbols i = chafa_symbols !! i.
Proof. intros Hi. unfold chafa_symbols_at. by apply lookup_app_l. Qed.

Lemma chafa_symbols_at_valid i :
  (i < catalog_size chafa_symbols)%nat →
  is_Some (chafa_symbols_at chafa_symbols i).
Proof.
  intros Hi. pose proof catalog_size_le.
  rewrite chafa_symbols_at_lookup by lia. apply lookup_lt_is_Some. lia.
Qed.

(** The loop of [add_by_tags] meets exactly the entries before the
    first one of codepoint 0 whose tags intersect [tags]. *)
Lemma elem_of_matching_from syms k tags i :
  i ∈ matching_from syms k tags ↔
  (k ≤ i < k + catalog_size_of syms)%nat ∧
  ∃ sym, syms !! (i - k)%nat = Some sym ∧ Z.land (sc sym) tags ≠ 0.
Proof.
  revert k. induction syms as [|sym syms IH]; intros k; simpl.
  - rewrite elem_of_empty. split; [done|]. lia.
  - destruct (c sym =? 0) eqn:Hc.
    { rewrite elem_of_empty. split; [done|]. lia. }
    rewrite elem_of_union, IH. split.
    + intros [Hi | [Hi (sym' & Hsym' & Htags)]].
      * destruct (Z.land (sc sym) tags =? 0) eqn:Hland;
          [by apply elem_of_empty in Hi|].
        apply elem_of_singleton in Hi as ->. split; [lia|].
        exists sym. rewrite Nat.sub_diag. split; [done|]. by apply Z.eqb_neq.
      * split; [lia|]. exists sym'. split; [|done].
        replace (i - k)%nat with (S (i - S k)) by lia. done.
    + intros [Hi (sym' & Hsym' & Htags)].
      destruct (decide (i = k)) as [->|Hne].
      * left. rewrite Nat.sub_diag in Hsym'. injection Hsym' as <-.
        apply Z.eqb_neq in Htags. rewrite Htags. by apply elem_of_singleton.
      * right. split; [lia|]. exists sym'. split; [|done].
        replace (i - k)%nat with (S (i - S k)) in Hsym' by lia. done.
Qed.

Lemma elem_of_entries_matching tags i :
  i ∈ entries_matching chafa_symbols tags ↔
  (i < catalog_size chafa_symbols)%nat ∧
  ∃ sym, chafa_symbols !! i = Some sym ∧ Z.land (sc sym) tags ≠ 0.
Proof.
  unfold entries_matching. rewrite elem_of_matching_from, Nat.sub_0_r.
  unfold catalog_size. split; intros [? ?]; (split; [lia|done]).
Qed.

Lemma entries_matching_valid tags :
  indices_valid chafa_symbols (entries_matching chafa_symbols tags).
Proof. intros i Hi. by apply elem_of_entries_matching in Hi as [? _]. Qed.

Lemma indices_valid_union keys keys' :
  indices_valid chafa_symbols keys → indices_valid chafa_symbols keys' →
  indices_valid chafa_symbols (keys ∪ keys').
Proof. intros H1 H2 i [?|?]%elem_of_union; auto. Qed.

Lemma indices_valid_difference keys keys' :
  indices_valid chafa_symbols keys → indices_valid chafa_symbols (keys ∖ keys').
Proof. intros H1 i [? _]%elem_of_difference. auto. Qed.

Lemma indices_valid_empty : indices_valid chafa_symbols ∅.
Proof. intros i Hi. by apply elem_of_empty in Hi. Qed.

Lemma elem_of_referenced keys sym :
  indices_valid chafa_symbols keys →
  sym ∈ referenced chafa_symbols keys ↔
  ∃ i, i ∈ keys ∧ chafa_symbols !! i = Some sym.
Proof.
  intros Hvalid. unfold referenced. rewrite list_elem_of_omap.
  pose proof catalog_size_le.
  split; intros (i & Hi & Hsym); exists i.
  - apply elem_of_elements in Hi. split; [done|].
    rewrite <- chafa_symbols_at_lookup; [done|]. specialize (Hvalid i Hi). lia.
  - split; [by apply elem_of_elements|].
    rewrite chafa_symbols_at_lookup; [done|]. specialize (Hvalid i Hi). lia.
Qed.

Lemma length_referenced keys :
  indices_valid chafa_symbols keys →
  length (referenced chafa_symbols keys) = size keys.
Proof.
  intros Hvalid. symmetry. eapply Forall2_length, referenced_Forall2, Forall_forall.
  intros i Hi. apply chafa_symbols_at_valid, Hvalid. by apply elem_of_elements.
Qed.

Lemma omap_codepoints_NoDup (keys : list nat) :
  NoDup (c <$> chafa_symbols) →
  NoDup keys →
  Forall (λ i, (i < length chafa_symbols)%nat) keys →
  NoDup (c <$> omap (chafa_symbols_at chafa_symbols) keys).
Proof.
  intros Hcat. induction 1 as [|i keys Hi _ IH]; [constructor|].
  intros [Hlt Hkeys]%Forall_cons. simpl.
  rewrite chafa_symbols_at_lookup by done.
  destruct (lookup_lt_is_Some_2 chafa_symbols i Hlt) as [sym Hsym].
  rewrite Hsym. simpl. apply NoDup_cons. split; [|by apply IH].
  intros (sym' & Hc & (j & Hj & Hsym')%list_elem_of_omap)%list_elem_of_fmap.
  rewrite chafa_symbols_at_lookup in Hsym'
    by (by apply (proj1 (Forall_forall _ _) Hkeys)).
  assert (i = j) as ->; [|done].
  apply (NoDup_lookup (c <$> chafa_symbols) i j (c sym)); [done|..];
    rewrite list_lookup_fmap.
  - by rewrite Hsym.
  - by rewrite Hsym', Hc.
Qed.

Lemma referenced_codepoints_NoDup keys :
  NoDup (c <$> chafa_symbols) →
  indices_valid chafa_symbols keys →
  NoDup (c <$> referenced chafa_symbols keys).
Proof.
  intros Hcat Hvalid. apply omap_codepoints_NoDup; [done|apply NoDup_elements|].
  apply Forall_forall. intros i Hi%elem_of_elements.
  pose proof catalog_size_le. specialize (Hvalid i Hi). lia.
Qed.

Lemma sorted_entries_index symbol_map h :
  index_of chafa_symbols (selection symbol_map h)
           (sorted_entries chafa_symbols symbol_map h).
Proof.
  unfold index_of, sorted_entries. split; [apply merge_sort_Permutation|].
  unfold sorted_by_codepoint.
  eapply StronglySorted_weaken; [|apply StronglySorted_merge_sort; apply _].
  intros x y. apply compare_symbols_le.
Qed.
End CatalogLemmas.

(** ** The derived index and the lookup in it *)

Section DerivedIndex.
Variable chafa_symbols : list ChafaSymbol.

Lemma index_of_exact keys body :
  indices_valid chafa_symbols keys →
  NoDup (c <$> chafa_symbols) →
  index_of chafa_symbols keys body →
  exact_index chafa_symbols keys ((Some <$> body) ++ [Some zero_symbol]).
Proof.
  intros Hvalid Hcat [Hperm Hsorted].
  assert (NoDup (c <$> body)) as Hnodup.
  { rewrite Hperm. by apply referenced_codepoints_NoDup. }
  exists body. split_and!; try done.
  - intros sym. rewrite Hperm. by apply elem_of_referenced.
  - by apply sorted_strict.
  - rewrite length_app, length_fmap, Hperm, length_referenced by done. done.
Qed.

(** C6, as amended: over a catalog without duplicate codepoints, after
    any rebuild of a map that satisfies the invariant of this file's
    maps, [need_rebuild] is FALSE and the derived index is exactly the
    catalog entries that the selection refers to, in ascending order of
    codepoint with no codepoint twice, followed by one sentinel entry of
    codepoint 0: its length is the cardinality of the selection plus
    one. Whenever [need_rebuild] is FALSE the derived index is of that
    kind, with one exception: a map as [chafa_symbol_map_init] left it,
    which has no derived index, [symbols] being NULL and [n_symbols] 0,
    and selects nothing. *)
Theorem rebuild_symbols_index symbol_map h :
  map_inv chafa_symbols symbol_map h →
  NoDup (c <$> chafa_symbols) →
  (∃ symbol_map' h' slots,
     rebuild_symbols chafa_symbols symbol_map h = Done symbol_map' h' ∧
     need_rebuild symbol_map' = false ∧
     selection symbol_map' h' = selection symbol_map h ∧
     n_symbols symbol_map' = size (selection symbol_map h) ∧
     derived_index symbol_map' h' = Some slots ∧
     exact_index chafa_symbols (selection symbol_map h) slots) ∧
  (need_rebuild symbol_map = false →
   (symbols symbol_map = None ∧ n_symbols symbol_map = O ∧
    selection symbol_map h = ∅) ∨
   ∃ slots,
     derived_index symbol_map h = Some slots ∧
     n_symbols symbol_map = size (selection symbol_map h) ∧
     exact_index chafa_symbols (selection symbol_map h) slots).
Proof.
  intros [Htable Harray Hvalid Hindex] Hcat. split.
  - eexists _, _, _. split.
    { apply rebuild_symbols_live; [done..|].
      intros i Hi. by apply chafa_symbols_at_valid, Hvalid. }
    split_and!; try done.
    + unfold derived_index. simpl. apply lookup_insert_eq.
    + apply index_of_exact; [done..|]. apply sorted_entries_index.
  - intros Hclean.
    destruct (Hindex Hclean) as [(Hnull & Hnone & Hn)|(body & Hidx & Hn & Harr)].
    + left. split_and!; try done. unfold selection. by rewrite Hnone.
    + right. eexists. split_and!; [done| |by apply index_of_exact].
      destruct Hidx as [Hperm _]. by rewrite Hn, Hperm, length_referenced.
Qed.

Lemma has_symbol_from_sorted base pre body rest symbol h :
  symbol_arrays h !! base = Some (pre ++ (Some <$> body) ++ rest) →
  StronglySorted (λ a b, c a ≤ c b) body →
  has_symbol_from (Some base) (length pre) (length body) symbol h
  = Done (bool_decide (symbol ∈ c <$> body)) h.
Proof.
  intros Hslots Hsorted. revert pre Hslots.
  induction Hsorted as [|sym body _ IH Hsym]; intros pre Hslots.
  { done. }
  cbn [length has_symbol_from].
  erewrite bind_done; cycle 1.
  { unfold load. rewrite Hslots. simpl. by rewrite list_lookup_middle. }
  destruct (c sym =? symbol) eqn:Heq.
  { apply Z.eqb_eq in Heq. rewrite bool_decide_true; [done|].
    rewrite fmap_cons, Heq. apply list_elem_of_here. }
  apply Z.eqb_neq in Heq.
  destruct (c sym >? symbol) eqn:Hgt.
  - apply Z.gtb_lt in Hgt. rewrite bool_decide_false; [done|].
    rewrite fmap_cons. intros [?|(y & -> & Hy)%list_elem_of_fmap]%elem_of_cons;
      [congruence|].
    pose proof (proj1 (Forall_forall _ _) Hsym y Hy) as Hle. simpl in Hle. lia.
  - replace (S (length pre)) with (length (pre ++ [Some sym]))
      by (rewrite length_app; simpl; lia).
    rewrite IH; cycle 1.
    { rewrite Hslots. f_equal. simpl. by rewrite <- app_assoc. }
    f_equal. apply bool_decide_ext. rewrite fmap_cons, elem_of_cons.
    split; [auto|]. by intros [?|?].
Qed.

(** On a map that holds the derived index of its selection, the lookup
    finds a codepoint exactly when a selected entry has it. *)
Lemma has_symbol_index symbol_map h body symbol :
  indices_valid chafa_symbols (selection symbol_map h) →
  index_of chafa_symbols (selection symbol_map h) body →
  n_symbols symbol_map = length body →
  derived_index symbol_map h = Some ((Some <$> body) ++ [Some zero_symbol]) →
  ∃ found,
    chafa_symbol_map_has_symbol symbol_map symbol h = Done found h ∧
    (found = true ↔
     ∃ i sym, i ∈ selection symbol_map h ∧ chafa_symbols !! i = Some sym ∧
              c sym = symbol).
Proof.
  intros Hvalid [Hperm Hsorted] Hn Hindex.
  unfold chafa_symbol_map_has_symbol, derived_index in *.
  destruct (symbols symbol_map) as [base|]; [|done].
  rewrite Hn. eexists. split.
  { by apply (has_symbol_from_sorted base [] body [Some zero_symbol]). }
  rewrite bool_decide_eq_true, list_elem_of_fmap. split.
  - intros (sym & -> & Hsym). rewrite Hperm in Hsym.
    apply elem_of_referenced in Hsym as (i & Hi & Hsym); [|done]. by exists i, sym.
  - intros (i & sym & Hi & Hsym & <-). exists sym. split; [done|].
    rewrite Hperm. apply elem_of_referenced; [done|]. by exists i.
Qed.

Lemma prepare_inv symbol_map h :
  map_inv chafa_symbols symbol_map h →
  ∃ symbol_map' h',
    chafa_symbol_map_prepare chafa_symbols symbol_map h = Done symbol_map' h' ∧
    need_rebuild symbol_map' = false ∧
    hash_tables h' = hash_tables h ∧
    desired_symbols symbol_map' = desired_symbols symbol_map ∧
    refs symbol_map' = refs symbol_map ∧
    map_inv chafa_symbols symbol_map' h'.
Proof.
  intros [Htable Harray Hvalid Hindex]. unfold chafa_symbol_map_prepare.
  destruct (need_rebuild symbol_map) eqn:Hdirty; simpl.
  - eexists _, _. split.
    { apply rebuild_symbols_live; [done..|].
      intros i Hi. by apply chafa_symbols_at_valid, Hvalid. }
    split_and!; try done. split; try done.
    + unfold array_live; simpl. rewrite lookup_insert_eq. by eexists.
    + intros _. right. exists (sorted_entries chafa_symbols symbol_map h).
      pose proof (sorted_entries_index chafa_symbols symbol_map h) as Hidx.
      split_and!; [done| |].
      * simpl. destruct Hidx as [Hperm _]. rewrite Hperm.
        by rewrite length_referenced.
      * unfold derived_index; simpl. apply lookup_insert_eq.
  - by eexists _, _.
Qed.

(** C7: on every map that satisfies the invariant of this file's maps,
    [chafa_symbol_map_prepare] returns with [need_rebuild] FALSE, and
    after it [chafa_symbol_map_has_symbol] returns TRUE for a codepoint
    if and only if some catalog index in the selection has that
    codepoint. The loop leaves early at the first stored codepoint
    above the one asked for; the equivalence holds with that exit in
    place. *)
Theorem has_symbol_after_prepare symbol_map h :
  map_inv chafa_symbols symbol_map h →
  ∃ symbol_map' h',
    chafa_symbol_map_prepare chafa_symbols symbol_map h = Done symbol_map' h' ∧
    need_rebuild symbol_map' = false ∧
    selection symbol_map' h' = selection symbol_map h ∧
    ∀ symbol,
      ∃ found,
        chafa_symbol_map_has_symbol symbol_map' symbol h' = Done found h' ∧
        (found = true ↔
         ∃ i sym, i ∈ selection symbol_map' h' ∧ chafa_symbols !! i = Some sym ∧
                  c sym = symbol).
Proof.
  intros Hinv.
  destruct (prepare_inv _ _ Hinv)
    as (symbol_map' & h' & Hrun & Hclean & Htables & Hdesired & _ & Hinv').
  exists symbol_map', h'. split_and!; try done.
  { unfold selection. by rewrite Hdesired, Htables. }
  intros symbol. destruct Hinv' as [_ _ Hvalid Hindex].
  destruct (Hindex Hclean) as [(Hnull & Hnone & Hn)|(body & Hidx & Hn & Harr)].
  - exists false. unfold chafa_symbol_map_has_symbol. rewrite Hn. split; [done|].
    split; [done|]. intros (i & _ & Hi & _).
    unfold selection in Hi. rewrite Hnone in Hi. by apply elem_of_empty in Hi.
  - by eapply has_symbol_index.
Qed.
End DerivedIndex.

(** A map as [chafa_symbol_map_init] leaves it has [need_rebuild] FALSE
    and no derived index at all: [symbols] is NULL, and there is no
    sentinel. No rebuild has run on it. *)
Lemma init_clean_without_index :
  need_rebuild chafa_symbol_map_init = false ∧
  symbols chafa_symbol_map_init = None ∧
  derived_index chafa_symbol_map_init empty_heap = None ∧
  selection chafa_symbol_map_init empty_heap = ∅.
Proof. done. Qed.

(** ** What the scratch table holds *)

Section ScratchKeys.
Context {tv : TagValues}.
Variable chafa_symbols : list ChafaSymbol.

(** A property of key sets that the three branches of the parser keep. *)
Variable P : gset nat → Prop.
Hypothesis P_empty : P ∅.
Hypothesis P_new : ∀ sc, P (entries_matching chafa_symbols sc).
Hypothesis P_add : ∀ sc keys, P keys → P (entries_matching chafa_symbols sc ∪ keys).
Hypothesis P_remove : ∀ sc keys, P keys → P (keys ∖ entries_matching chafa_symbols sc).

Lemma dispatch_keys symbol_map st sc h0 h flow h' :
  table_live symbol_map h0 →
  P (selection symbol_map h0) →
  scratch_of h0 st h →
  (∀ keys, scratch_keys st h = Some keys → P keys) →
  dispatch chafa_symbols symbol_map st sc h = Done flow h' →
  ∃ st', flow = Next st' ∧ ∀ keys, scratch_keys st' h' = Some keys → P keys.
Proof.
  intros Hlive Hsel Hs Hkeys Hrun. unfold scratch_keys in Hkeys.
  destruct (new_syms st) as [syms|] eqn:Hsyms.
  - destruct (scratch_of_live _ _ _ _ Hs Hsyms) as [keys Hk].
    specialize (Hkeys keys Hk).
    destruct (is_add st) eqn:Hadd; [|destruct (is_remove st) eqn:Hrem].
    + rewrite (dispatch_add_scratch _ _ _ _ _ _ _ Hadd Hsyms Hk) in Hrun.
      injection Hrun as <- <-. eexists; split; [done|].
      unfold scratch_keys; simpl. rewrite lookup_insert_eq. intros ? [= <-]. auto.
    + rewrite (dispatch_remove_scratch _ _ _ _ _ _ _ Hadd Hrem Hsyms Hk) in Hrun.
      injection Hrun as <- <-. eexists; split; [done|].
      unfold scratch_keys; simpl. rewrite lookup_insert_eq. intros ? [= <-]. auto.
    + rewrite (dispatch_reset_scratch _ _ _ _ _ _ _ Hadd Hrem Hsyms Hk) in Hrun.
      injection Hrun as <- <-. eexists; split; [done|].
      unfold scratch_keys; simpl. rewrite lookup_insert_eq. intros ? [= <-]. auto.
  - assert (h = h0) as -> by (unfold scratch_of in Hs; by rewrite Hsyms in Hs).
    unfold table_live, selection in *.
    destruct (is_add st) eqn:Hadd; [|destruct (is_remove st) eqn:Hrem].
    + destruct (desired_symbols symbol_map) as [ht|] eqn:Hht;
        [|by unfold dispatch in Hrun; rewrite Hadd, Hsyms, Hht in Hrun].
      destruct Hlive as [keys Hk]. rewrite Hk in Hsel.
      rewrite (dispatch_add_copy _ _ _ _ _ _ _ Hadd Hsyms Hht Hk) in Hrun.
      injection Hrun as <- <-. eexists; split; [done|].
      unfold scratch_keys; simpl. rewrite lookup_insert_eq. intros ? [= <-]. auto.
    + destruct (desired_symbols symbol_map) as [ht|] eqn:Hht;
        [|by unfold dispatch in Hrun; rewrite Hadd, Hrem, Hsyms, Hht in Hrun].
      destruct Hlive as [keys Hk]. rewrite Hk in Hsel.
      rewrite (dispatch_remove_copy _ _ _ _ _ _ _ Hadd Hrem Hsyms Hht Hk) in Hrun.
      injection Hrun as <- <-. eexists; split; [done|].
      unfold scratch_keys; simpl. rewrite lookup_insert_eq. intros ? [= <-]. auto.
    + rewrite (dispatch_reset_none _ _ _ _ _ Hadd Hrem Hsyms) in Hrun.
      injection Hrun as <- <-. eexists; split; [done|].
      unfold scratch_keys; simpl. rewrite lookup_insert_eq. intros ? [= <-]. auto.
Qed.

Lemma scratch_keys_new_syms st st' h :
  new_syms st' = new_syms st → scratch_keys st' h = scratch_keys st h.
Proof. unfold scratch_keys. by intros ->. Qed.

Lemma parse_loop_keys fuel symbol_map st h0 h st' error h' :
  table_live symbol_map h0 →
  P (selection symbol_map h0) →
  scratch_of h0 st h →
  (∀ keys, scratch_keys st h = Some keys → P keys) →
  parse_loop chafa_symbols fuel symbol_map st h = Done (st', error) h' →
  ∀ keys, scratch_keys st' h' = Some keys → P keys.
Proof.
  intros Hlive Hsel. revert st h.
  induction fuel as [|fuel IH]; intros st h Hs Hkeys; [done|].
  rewrite parse_loop_S. destruct (at_nul (p0 st)).
  { by intros [= <- <- <-]. }
  pose proof (scan_clause_new_syms st) as Hnew.
  destruct (scan_clause st) as [st1|st1 e|st1 sc].
  - intros [= <- <- <-]. by rewrite (scratch_keys_new_syms _ _ _ Hnew).
  - intros [= <- <- <-]. by rewrite (scratch_keys_new_syms _ _ _ Hnew).
  - intros Hrun. apply bind_inv in Hrun as (flow & h1 & Hd & Hrun).
    pose proof Hd as Hd'.
    eapply dispatch_done in Hd' as (st2 & -> & Hs2 & _);
      [|by eapply scratch_of_new_syms].
    eapply dispatch_keys in Hd as (st2' & [= <-] & Hkeys2);
      [|done|done|by eapply scratch_of_new_syms
       |by rewrite (scratch_keys_new_syms _ _ _ Hnew)].
    by eapply IH.
Qed.

(** What a call of [parse_selectors] that succeeds leaves: the scratch
    table of the loop in the place of the map's table. *)
Lemma parse_selectors_success symbol_map selectors h result symbol_map' h' :
  table_live symbol_map h →
  P (selection symbol_map h) →
  parse_selectors chafa_symbols symbol_map selectors h
  = Done (result, None, symbol_map') h' →
  symbol_map' = {| refs := refs symbol_map;
                   need_rebuild := true;
                   desired_symbols := desired_symbols symbol_map';
                   symbols := symbols symbol_map;
                   n_symbols := n_symbols symbol_map |} ∧
  symbol_arrays h' = symbol_arrays h ∧
  table_live symbol_map' h' ∧
  P (selection symbol_map' h') ∧
  (∀ p, desired_symbols symbol_map' = Some p → hash_tables h !! p = None) ∧
  (∀ p, desired_symbols symbol_map ≠ Some p → desired_symbols symbol_map' ≠ Some p →
        hash_tables h' !! p = hash_tables h !! p).
Proof.
  intros Hlive Hsel. unfold parse_selectors. intros Hrun.
  apply bind_inv in Hrun as ([st e] & h1 & Hloop & Hrun).
  pose proof (parse_loop_scratch _ _ _ _ _ _ _ _ _ (scratch_of_initial _ _) Hloop)
    as Hs.
  assert (∀ keys, scratch_keys st h1 = Some keys → P keys) as Hkeys.
  { eapply parse_loop_keys; [done|done|apply scratch_of_initial| |exact Hloop].
    by intros keys [=]. }
  destruct e as [e|].
  { rewrite (bind_done _ _ _ _ _ (unref_scratch _ _ _ Hs)) in Hrun. done. }
  apply bind_inv in Hrun as ([] & h2 & Hunref & Hrun).
  injection Hrun as <- <- <-. cbn [desired_symbols].
  unfold scratch_of, scratch_keys, table_live, selection in *.
  cbn [desired_symbols].
  destruct (desired_symbols symbol_map) as [old|] eqn:Hold.
  - destruct Hlive as [old_keys Hold_keys].
    unfold g_hash_table_unref in Hunref.
    destruct (new_syms st) as [syms|] eqn:Hsyms.
    + destruct Hs as (Hdead & keys & ->). simpl in *.
      assert (old ≠ syms) as Hne by congruence.
      rewrite lookup_insert_ne, Hold_keys in Hunref by done.
      injection Hunref as <-. simpl.
      rewrite lookup_delete_ne, lookup_insert_eq by done.
      specialize (Hkeys keys). rewrite lookup_insert_eq in Hkeys.
      split_and!; try done; [simpl; auto|congruence|].
      intros p Hp1 Hp2.
      rewrite lookup_delete_ne, lookup_insert_ne by congruence. done.
    + subst h1. rewrite Hold_keys in Hunref. injection Hunref as <-. simpl.
      split_and!; try done.
      intros p Hp _. rewrite lookup_delete_ne by congruence. done.
  - injection Hunref as <-.
    destruct (new_syms st) as [syms|] eqn:Hsyms.
    + destruct Hs as (Hdead & keys & ->). simpl in *.
      rewrite lookup_insert_eq.
      specialize (Hkeys keys). rewrite lookup_insert_eq in Hkeys.
      split_and!; try done; [simpl; auto|congruence|].
      intros p _ Hp. rewrite lookup_insert_ne by congruence. done.
    + subst h1. split_and!; try done.
Qed.
End ScratchKeys.

(** ** The public functions keep the invariant *)

Section PublicFunctions.
Context {tv : TagValues}.
Variable chafa_symbols : list ChafaSymbol.

Lemma init_inv h : map_inv chafa_symbols chafa_symbol_map_init h.
Proof.
  split; try done; try apply indices_valid_empty. intros _. by left.
Qed.

Lemma table_for_lookup symbol_map h :
  table_live symbol_map h →
  match desired_symbols symbol_map with
  | Some ht => ret ht
  | None => g_hash_table_new
  end h
  = Done (table_for symbol_map h)
         (set_tables (<[table_for symbol_map h := selection symbol_map h]>
                        (hash_tables h)) h).
Proof.
  unfold table_live, table_for, selection.
  destruct (desired_symbols symbol_map) as [ht|]; [|done].
  intros [keys Hkeys]. rewrite Hkeys. simpl.
  by rewrite insert_id, set_tables_id.
Qed.

Lemma chafa_symbol_map_add_by_tags_live symbol_map tags h :
  table_live symbol_map h → 0 < refs symbol_map →
  chafa_symbol_map_add_by_tags chafa_symbols symbol_map tags h
  = Done {| refs := refs symbol_map;
            need_rebuild := true;
            desired_symbols := Some (table_for symbol_map h);
            symbols := symbols symbol_map;
            n_symbols := n_symbols symbol_map |}
         (set_tables (<[table_for symbol_map h :=
                          entries_matching chafa_symbols tags ∪ selection symbol_map h]>
                        (hash_tables h)) h).
Proof.
  intros Hlive Hrefs. unfold chafa_symbol_map_add_by_tags.
  replace (refs symbol_map >? 0) with true by (symmetry; apply Z.gtb_lt; lia).
  cbn [negb].
  rewrite (bind_done _ _ _ _ _ (table_for_lookup _ _ Hlive)).
  erewrite bind_done; [|apply add_by_tags_live; simpl; apply lookup_insert_eq].
  unfold ret, set_tables; simpl. by rewrite insert_insert_eq.
Qed.

Lemma chafa_symbol_map_remove_by_tags_live symbol_map tags h :
  table_live symbol_map h → 0 < refs symbol_map →
  chafa_symbol_map_remove_by_tags chafa_symbols symbol_map tags h
  = Done {| refs := refs symbol_map;
            need_rebuild := true;
            desired_symbols := Some (table_for symbol_map h);
            symbols := symbols symbol_map;
            n_symbols := n_symbols symbol_map |}
         (set_tables (<[table_for symbol_map h :=
                          selection symbol_map h ∖ entries_matching chafa_symbols tags]>
                        (hash_tables h)) h).
Proof.
  intros Hlive Hrefs. unfold chafa_symbol_map_remove_by_tags.
  replace (refs symbol_map >? 0) with true by (symmetry; apply Z.gtb_lt; lia).
  cbn [negb].
  rewrite (bind_done _ _ _ _ _ (table_for_lookup _ _ Hlive)).
  erewrite bind_done; [|apply remove_by_tags_live; simpl; apply lookup_insert_eq].
  unfold ret, set_tables; simpl. by rewrite insert_insert_eq.
Qed.

Lemma table_for_other symbol_map h p :
  desired_symbols symbol_map ≠ Some p → is_Some (hash_tables h !! p) →
  table_for symbol_map h ≠ p.
Proof.
  unfold table_for. destruct (desired_symbols symbol_map); [congruence|].
  intros _ [keys Hkeys] <-. by rewrite fresh_table_dead in Hkeys.
Qed.

Lemma table_for_new symbol_map h :
  desired_symbols symbol_map = Some (table_for symbol_map h) ∨
  hash_tables h !! table_for symbol_map h = None.
Proof.
  unfold table_for. destruct (desired_symbols symbol_map); [by left|].
  right. apply fresh_table_dead.
Qed.

Lemma footprint_refl a h : footprint a h a h.
Proof. split; auto. Qed.

(** A map with a new selection in the table that [table_for] gives,
    marked for rebuild. *)
Lemma update_selection_inv symbol_map h keys :
  map_inv chafa_symbols symbol_map h →
  indices_valid chafa_symbols keys →
  let symbol_map' :=
    {| refs := refs symbol_map;
       need_rebuild := true;
       desired_symbols := Some (table_for symbol_map h);
       symbols := symbols symbol_map;
       n_symbols := n_symbols symbol_map |} in
  let h' := set_tables (<[table_for symbol_map h := keys]> (hash_tables h)) h in
  map_inv chafa_symbols symbol_map' h' ∧ footprint symbol_map h symbol_map' h' ∧
  selection symbol_map' h' = keys.
Proof.
  intros [Htable Harray Hvalid Hindex] Hkeys. simpl.
  assert (selection {| refs := refs symbol_map; need_rebuild := true;
                       desired_symbols := Some (table_for symbol_map h);
                       symbols := symbols symbol_map;
                       n_symbols := n_symbols symbol_map |}
            (set_tables (<[table_for symbol_map h := keys]> (hash_tables h)) h)
          = keys) as Hsel.
  { unfold selection; simpl. by rewrite lookup_insert_eq. }
  split_and!; [split| split|done].
  - unfold table_live; simpl. rewrite lookup_insert_eq. by eexists.
  - done.
  - by rewrite Hsel.
  - by intros [=].
  - intros p Hp Hlive. simpl. apply lookup_insert_ne. by apply table_for_other.
  - done.
  - simpl. intros p [= <-]. apply table_for_new.
  - simpl. auto.
Qed.

Lemma add_by_tags_inv symbol_map tags h symbol_map' h' :
  map_inv chafa_symbols symbol_map h →
  chafa_symbol_map_add_by_tags chafa_symbols symbol_map tags h = Done symbol_map' h' →
  map_inv chafa_symbols symbol_map' h' ∧ footprint symbol_map h symbol_map' h'.
Proof.
  intros Hinv Hrun. destruct (decide (0 < refs symbol_map)) as [Hrefs|Hrefs].
  - rewrite chafa_symbol_map_add_by_tags_live in Hrun by (done || apply Hinv).
    injection Hrun as <- <-.
    destruct (update_selection_inv symbol_map h
                (entries_matching chafa_symbols tags ∪ selection symbol_map h) Hinv)
      as (? & ? & _); [|done].
    apply indices_valid_union; [apply entries_matching_valid | apply Hinv].
  - unfold chafa_symbol_map_add_by_tags in Hrun.
    replace (refs symbol_map >? 0) with false in Hrun
      by (symmetry; rewrite Z.gtb_ltb; apply Z.ltb_ge; lia).
    injection Hrun as <- <-. split; [done | apply footprint_refl].
Qed.

Lemma remove_by_tags_inv symbol_map tags h symbol_map' h' :
  map_inv chafa_symbols symbol_map h →
  chafa_symbol_map_remove_by_tags chafa_symbols symbol_map tags h
  = Done symbol_map' h' →
  map_inv chafa_symbols symbol_map' h' ∧ footprint symbol_map h symbol_map' h'.
Proof.
  intros Hinv Hrun. destruct (decide (0 < refs symbol_map)) as [Hrefs|Hrefs].
  - rewrite chafa_symbol_map_remove_by_tags_live in Hrun by (done || apply Hinv).
    injection Hrun as <- <-.
    destruct (update_selection_inv symbol_map h
                (selection symbol_map h ∖ entries_matching chafa_symbols tags) Hinv)
      as (? & ? & _); [|done].
    apply indices_valid_difference, Hinv.
  - unfold chafa_symbol_map_remove_by_tags in Hrun.
    replace (refs symbol_map >? 0) with false in Hrun
      by (symmetry; rewrite Z.gtb_ltb; apply Z.ltb_ge; lia).
    injection Hrun as <- <-. split; [done | apply footprint_refl].
Qed.

Lemma apply_selectors_inv symbol_map selectors h res symbol_map' h' :
  map_inv chafa_symbols symbol_map h →
  chafa_symbol_map_apply_selectors chafa_symbols symbol_map selectors h
  = Done (res, symbol_map') h' →
  map_inv chafa_symbols symbol_map' h' ∧ footprint symbol_map h symbol_map' h'.
Proof.
  intros Hinv Hrun. unfold chafa_symbol_map_apply_selectors in Hrun.
  destruct (negb (refs symbol_map >? 0)).
  { injection Hrun as <- <- <-. split; [done | apply footprint_refl]. }
  destruct res as [result [e|]].
  { apply parse_selectors_inv in Hrun as (_ & _ & -> & ->).
    split; [done | apply footprint_refl]. }
  destruct Hinv as [Htable Harray Hvalid Hindex].
  eapply (parse_selectors_success chafa_symbols (indices_valid chafa_symbols))
    in Hrun as (Hmap & Harrays & Htable' & Hvalid' & Hnew & Hother);
    [|apply indices_valid_empty|intros; apply entries_matching_valid
     |intros; apply indices_valid_union; [apply entries_matching_valid|done]
     |intros; by apply indices_valid_difference|done|done].
  split; [split|split]; try done.
  - unfold array_live in *. rewrite Hmap. simpl. by rewrite Harrays.
  - rewrite Hmap. by intros [=].
  - intros p Hp Hlive. apply Hother; [done|].
    intros Hp'. apply Hnew in Hp'. destruct Hlive as [? Hlive]. congruence.
  - intros q _ _. by rewrite Harrays.
  - intros p Hp. right. by apply Hnew.
  - intros q Hq. left. rewrite Hmap in Hq. done.
Qed.

Lemma prepare_footprint symbol_map h symbol_map' h' :
  map_inv chafa_symbols symbol_map h →
  chafa_symbol_map_prepare chafa_symbols symbol_map h = Done symbol_map' h' →
  map_inv chafa_symbols symbol_map' h' ∧ footprint symbol_map h symbol_map' h'.
Proof.
  intros Hinv Hrun.
  destruct (prepare_inv _ _ _ Hinv) as (m2 & h2 & Hrun' & _ & _ & _ & _ & Hinv').
  rewrite Hrun in Hrun'. injection Hrun' as <- <-. split; [done|].
  destruct Hinv as [Htable Harray Hvalid Hindex].
  unfold chafa_symbol_map_prepare in Hrun.
  destruct (need_rebuild symbol_map); simpl in Hrun;
    [|injection Hrun as <- <-; apply footprint_refl].
  rewrite rebuild_symbols_live in Hrun; [|done..|]; cycle 1.
  { intros i Hi. by apply chafa_symbols_at_valid, Hvalid. }
  injection Hrun as <- <-.
  pose proof (fresh_array_dead (set_arrays (arrays_without symbol_map h) h)) as Hfresh.
  simpl in Hfresh. unfold arrays_without in *.
  split; simpl; try done.
  - intros q Hq [slots Hslots]. destruct (symbols symbol_map) as [old|].
    + assert (old ≠ q) by congruence.
      rewrite lookup_insert_ne, lookup_delete_ne; [done..|].
      intros <-. by rewrite lookup_delete_ne, Hslots in Hfresh.
    + rewrite lookup_insert_ne; [done|]. intros <-. congruence.
  - auto.
  - intros q [= <-]. destruct (symbols symbol_map) as [old|]; [|by right].
    destruct (decide (fresh (dom (delete old (symbol_arrays h))) = old)) as [->|Hne];
      [by left|right].
    by rewrite lookup_delete_ne in Hfresh.
Qed.

(** Every call keeps the invariant of the map it is made on, and stays
    within the map's own objects and new ones. *)
Lemma run_call_inv call symbol_map h symbol_map' h' :
  map_inv chafa_symbols symbol_map h →
  run_call chafa_symbols call symbol_map h = Done symbol_map' h' →
  map_inv chafa_symbols symbol_map' h' ∧ footprint symbol_map h symbol_map' h'.
Proof.
  intros Hinv. destruct call as [tags|tags|selectors|]; simpl.
  - by apply add_by_tags_inv.
  - by apply remove_by_tags_inv.
  - intros Hrun. apply bind_inv in Hrun as ([res m2] & h2 & Hrun & Hret).
    injection Hret as <- <-. by eapply apply_selectors_inv.
  - by apply prepare_footprint.
Qed.
End PublicFunctions.

(** ** Two maps in one heap *)

Lemma separate_sym a b h : separate a b h → separate b a h.
Proof.
  intros [? ? ? ? Ht Ha]. split; try done.
  - intros p Hb Ha'. by apply (Ht p).
  - intros q Hb Ha'. by apply (Ha q).
Qed.

(** A call on one of two separate maps leaves the selection and the
    derived index of the other as they were, and the two separate. *)
Lemma footprint_frame a b h a' h' :
  footprint a h a' h' → separate a b h →
  table_live a' h' → array_live a' h' →
  separate a' b h' ∧
  selection b h' = selection b h ∧
  derived_index b h' = derived_index b h.
Proof.
  intros [Ftables Farrays Fnew_table Fnew_array] [Hta Htb Haa Hab Hts Has] Hta' Haa'.
  assert (∀ p, desired_symbols b = Some p →
               hash_tables h' !! p = hash_tables h !! p) as Hsame_table.
  { intros p Hp. apply Ftables.
    - intros Ha. by apply (Hts p).
    - unfold table_live in Htb. by rewrite Hp in Htb. }
  assert (∀ q, symbols b = Some q →
               symbol_arrays h' !! q = symbol_arrays h !! q) as Hsame_array.
  { intros q Hq. apply Farrays.
    - intros Ha. by apply (Has q).
    - unfold array_live in Hab. by rewrite Hq in Hab. }
  split_and!.
  - split; try done.
    + unfold table_live in *. destruct (desired_symbols b) as [p|]; [|done].
      by rewrite Hsame_table.
    + unfold array_live in *. destruct (symbols b) as [q|]; [|done].
      by rewrite Hsame_array.
    + intros p Hp Hb. destruct (Fnew_table p Hp) as [Ha|Hdead].
      * by apply (Hts p).
      * unfold table_live in Htb. rewrite Hb, Hdead in Htb. by destruct Htb.
    + intros q Hq Hb. destruct (Fnew_array q Hq) as [Ha|Hdead].
      * by apply (Has q).
      * unfold array_live in Hab. rewrite Hb, Hdead in Hab. by destruct Hab.
  - unfold selection. destruct (desired_symbols b) as [p|]; [|done].
    by rewrite Hsame_table.
  - unfold derived_index. destruct (symbols b) as [q|]; [|done].
    by apply Hsame_array.
Qed.

Section TwoMaps.
Context {tv : TagValues}.
Variable chafa_symbols : list ChafaSymbol.

Lemma map_inv_frame b h h' :
  map_inv chafa_symbols b h →
  table_live b h' → array_live b h' →
  selection b h' = selection b h →
  derived_index b h' = derived_index b h →
  map_inv chafa_symbols b h'.
Proof.
  intros [_ _ Hvalid Hindex] Htable Harray Hsel Hidx. split; try done.
  - by rewrite Hsel.
  - unfold index_current in *. by rewrite Hsel, Hidx.
Qed.

Lemma run_call_frame call a b h a' h' :
  map_inv chafa_symbols a h → map_inv chafa_symbols b h → separate a b h →
  run_call chafa_symbols call a h = Done a' h' →
  map_inv chafa_symbols a' h' ∧ map_inv chafa_symbols b h' ∧ separate a' b h' ∧
  selection b h' = selection b h ∧ derived_index b h' = derived_index b h.
Proof.
  intros Ha Hb Hsep Hrun.
  apply run_call_inv in Hrun as [Ha' Hfp]; [|done].
  destruct (footprint_frame _ _ _ _ _ Hfp Hsep) as (Hsep' & Hsel & Hidx);
    [apply Ha'..|].
  split_and!; try done.
  apply (map_inv_frame b h h'); try done; apply Hsep'.
Qed.

Lemma run_calls_frame calls a b h a' h' :
  map_inv chafa_symbols a h → map_inv chafa_symbols b h → separate a b h →
  run_calls chafa_symbols calls a h = Done a' h' →
  selection b h' = selection b h ∧ derived_index b h' = derived_index b h.
Proof.
  revert a h. induction calls as [|call calls IH]; intros a h Ha Hb Hsep; simpl.
  { by intros [= <- <-]. }
  intros Hrun. apply bind_inv in Hrun as (a1 & h1 & Hcall & Hrun).
  destruct (run_call_frame _ _ _ _ _ _ Ha Hb Hsep Hcall)
    as (Ha1 & Hb1 & Hsep1 & Hsel1 & Hidx1).
  destruct (IH _ _ Ha1 Hb1 Hsep1 Hrun) as [Hsel Hidx].
  by rewrite Hsel, Hidx.
Qed.

Lemma chafa_symbol_map_copy_contents_live src h :
  table_live src h →
  chafa_symbol_map_copy_contents src h
  = Done {| refs := 1;
            need_rebuild := true;
            desired_symbols :=
              match desired_symbols src with
              | Some _ => Some (fresh (dom (hash_tables h)))
              | None => None
              end;
            symbols := None;
            n_symbols := n_symbols src |}
         match desired_symbols src with
         | Some _ =>
             set_tables (<[fresh (dom (hash_tables h)) := selection src h]>
                           (hash_tables h)) h
         | None => h
         end.
Proof.
  unfold table_live, chafa_symbol_map_copy_contents, selection.
  destruct (desired_symbols src) as [ht|]; [|done].
  intros [keys Hkeys]. rewrite Hkeys.
  erewrite bind_done; [done|].
  erewrite bind_done; [done|]. by apply copy_hash_table_live.
Qed.

(** The copy is a live map of its own, separate from its source. *)
Lemma copy_contents_separate src h dest h1 :
  map_inv chafa_symbols src h →
  chafa_symbol_map_copy_contents src h = Done dest h1 →
  map_inv chafa_symbols dest h1 ∧ map_inv chafa_symbols src h1 ∧
  separate dest src h1 ∧
  selection dest h1 = selection src h ∧
  selection src h1 = selection src h ∧
  derived_index src h1 = derived_index src h.
Proof.
  intros Hinv Hrun.
  rewrite chafa_symbol_map_copy_contents_live in Hrun by apply Hinv.
  injection Hrun as <- <-.
  pose proof (fresh_table_dead h) as Hfresh.
  pose proof Hinv as [Htable Harray Hvalid Hindex].
  unfold table_live in Htable.
  destruct (desired_symbols src) as [ht|] eqn:Hht.
  - destruct Htable as [keys Hkeys].
    assert (ht ≠ fresh (dom (hash_tables h))) as Hne by congruence.
    assert (selection src h = keys) as Hsel0.
    { unfold selection. by rewrite Hht, Hkeys. }
    assert (selection src (set_tables (<[fresh (dom (hash_tables h)) := keys]>
                                         (hash_tables h)) h) = keys) as Hsel.
    { unfold selection. rewrite Hht. simpl. by rewrite lookup_insert_ne, Hkeys. }
    assert (table_live src (set_tables (<[fresh (dom (hash_tables h)) := keys]>
                                          (hash_tables h)) h)) as Hlive.
    { unfold table_live. rewrite Hht. simpl.
      rewrite lookup_insert_ne, Hkeys by done. by eexists. }
    rewrite Hsel0 in *.
    split_and!; try done.
    + split; try done.
      * unfold table_live; simpl. rewrite lookup_insert_eq. by eexists.
      * unfold selection; simpl. by rewrite lookup_insert_eq.
    + apply (map_inv_frame src h); try done. by rewrite Hsel0.
    + split; try done.
      * unfold table_live; simpl. rewrite lookup_insert_eq. by eexists.
      * simpl. intros p [= <-]. congruence.
    + unfold selection; simpl. by rewrite lookup_insert_eq.
  - assert (selection src h = ∅) as Hsel0 by (unfold selection; by rewrite Hht).
    split_and!; [| done | |by rewrite Hsel0|done|done].
    + split; [done|done|apply indices_valid_empty|done].
    + split; [done|apply Hinv|done|apply Hinv|done|done].
Qed.

(** C8: [chafa_symbol_map_copy_contents] gives the destination a table
    of its own with the keys of the source's table, never the source's
    table itself, sets its [refs] to 1 and its [need_rebuild] to TRUE.
    Whatever is then called on the destination, [chafa_symbol_map_add_by_tags]
    for one, leaves the selection and the derived index of the source
    as they were, and whatever is called on the source leaves those of
    the destination as they were. *)
Theorem copy_contents_independent src h :
  map_inv chafa_symbols src h →
  ∃ dest h1,
    chafa_symbol_map_copy_contents src h = Done dest h1 ∧
    refs dest = 1 ∧ need_rebuild dest = true ∧
    selection dest h1 = selection src h ∧
    (∀ p, desired_symbols dest = Some p →
          desired_symbols src ≠ Some p ∧ hash_tables h !! p = None) ∧
    selection src h1 = selection src h ∧
    derived_index src h1 = derived_index src h ∧
    (∀ tags, ∃ dest' h2,
       chafa_symbol_map_add_by_tags chafa_symbols dest tags h1 = Done dest' h2 ∧
       selection dest' h2 = entries_matching chafa_symbols tags ∪ selection src h ∧
       selection src h2 = selection src h ∧
       derived_index src h2 = derived_index src h) ∧
    (∀ calls dest' h2,
       run_calls chafa_symbols calls dest h1 = Done dest' h2 →
       selection src h2 = selection src h ∧
       derived_index src h2 = derived_index src h) ∧
    (∀ calls src' h2,
       run_calls chafa_symbols calls src h1 = Done src' h2 →
       selection dest h2 = selection dest h1 ∧
       derived_index dest h2 = derived_index dest h1).
Proof.
  intros Hinv.
  pose proof (chafa_symbol_map_copy_contents_live src h (inv_table _ _ _ Hinv)) as Hrun.
  eexists _, _. split; [exact Hrun|].
  destruct (copy_contents_separate _ _ _ _ Hinv Hrun)
    as (Hdest & Hsrc & Hsep & Hsel_dest & Hsel_src & Hidx_src).
  split_and!; try done.
  - simpl. pose proof (fresh_table_dead h) as Hfresh.
    pose proof (inv_table _ _ _ Hinv) as Hlive. unfold table_live in Hlive.
    destruct (desired_symbols src) as [ht|]; [|done].
    intros p [= <-]. split; [|done]. destruct Hlive as [keys Hkeys]. congruence.
  - intros tags.
    pose proof (inv_table _ _ _ Hdest) as Hdest_live.
    pose proof (chafa_symbol_map_add_by_tags_live chafa_symbols _ tags _ Hdest_live)
      as Hadd.
    specialize (Hadd eq_refl).
    eexists _, _. split; [exact Hadd|].
    match type of Hadd with
    | _ = Done ?dest' ?h2 =>
        destruct (run_calls_frame [AddByTags tags] _ src _ dest' h2 Hdest Hsrc Hsep)
          as [Hsel Hidx]
    end.
    { simpl. rewrite (bind_done _ _ _ _ _ Hadd). reflexivity. }
    split_and!.
    + unfold selection at 1. cbn [desired_symbols hash_tables set_tables].
      rewrite lookup_insert_eq. simpl. by rewrite Hsel_dest.
    + by rewrite Hsel.
    + by rewrite Hidx.
  - intros calls dest' h2 Hcalls.
    destruct (run_calls_frame _ _ src _ _ _ Hdest Hsrc Hsep Hcalls) as [Hsel Hidx].
    by rewrite Hsel, Hidx.
  - intros calls src' h2 Hcalls.
    by apply (run_calls_frame _ _ _ _ _ _ Hsrc Hdest (separate_sym _ _ _ Hsep) Hcalls).
Qed.
End TwoMaps.

(** ** The model at work on the sample catalog *)

Lemma sample_symbols_NoDup : NoDup (c <$> sample_symbols).
Proof. apply (bool_decide_unpack _). vm_compute. exact I. Defined.

Lemma sample_map_inv : map_inv sample_symbols sample_map sample_heap.
Proof.
  split.
  - vm_compute. eexists. reflexivity.
  - exact I.
  - assert (selection sample_map sample_heap = {[ O ]}) as ->
      by (vm_compute; reflexivity).
    intros i ->%elem_of_singleton. vm_compute. lia.
  - intros [=].
Defined.

Lemma sample_blocks_inv : map_inv sample_symbols sample_map sample_heap_blocks.
Proof.
  split.
  - vm_compute. eexists. reflexivity.
  - exact I.
  - assert (selection sample_map sample_heap_blocks = {[ 1%nat; 3%nat; 7%nat ]}) as ->
      by (vm_compute; reflexivity).
    intros i Hi. assert (i = 1 ∨ i = 3 ∨ i = 7)%nat as Hcases by set_solver.
    vm_compute. lia.
  - intros [=].
Defined.

(** The rebuild puts the three selected entries in the order of their
    codepoints, 183, 9600 and 9608, and the sentinel after them. *)
Lemma rebuild_symbols_sample :
  rebuild_symbols sample_symbols sample_map sample_heap_blocks
  = Done {| refs := 1; need_rebuild := false; desired_symbols := Some 1%positive;
            symbols := Some 1%positive; n_symbols := 3 |}
         (mkHeap {[ 1%positive := {[ 1%nat; 3%nat; 7%nat ]} ]}
                 {[ 1%positive := [ Some (mkSymbol 64 183); Some (mkSymbol 520 9600);
                                    Some (mkSymbol 10 9608); Some zero_symbol ] ]}).
Proof. vm_compute. reflexivity. Qed.

Lemma has_symbol_sample :
  let prepared :=
    {| refs := 1; need_rebuild := false; desired_symbols := Some 1%positive;
       symbols := Some 1%positive; n_symbols := 3 |} in
  let h :=
    mkHeap {[ 1%positive := {[ 1%nat; 3%nat; 7%nat ]} ]}
           {[ 1%positive := [ Some (mkSymbol 64 183); Some (mkSymbol 520 9600);
                              Some (mkSymbol 10 9608); Some zero_symbol ] ]} in
  chafa_symbol_map_has_symbol prepared 9600 h = Done true h ∧
  chafa_symbol_map_has_symbol prepared 9601 h = Done false h ∧
  chafa_symbol_map_has_symbol prepared 32 h = Done false h ∧
  chafa_symbol_map_has_symbol prepared 0 h = Done false h.
Proof. vm_compute. done. Qed.

Lemma rebuild_symbols_index_witness :
  (∃ symbol_map' h' slots,
     rebuild_symbols sample_symbols sample_map sample_heap_blocks
     = Done symbol_map' h' ∧
     need_rebuild symbol_map' = false ∧
     selection symbol_map' h' = selection sample_map sample_heap_blocks ∧
     n_symbols symbol_map' = size (selection sample_map sample_heap_blocks) ∧
     derived_index symbol_map' h' = Some slots ∧
     exact_index sample_symbols (selection sample_map sample_heap_blocks) slots) ∧
  (need_rebuild sample_map = false →
   (symbols sample_map = None ∧ n_symbols sample_map = O ∧
    selection sample_map sample_heap_blocks = ∅) ∨
   ∃ slots,
     derived_index sample_map sample_heap_blocks = Some slots ∧
     n_symbols sample_map = size (selection sample_map sample_heap_blocks) ∧
     exact_index sample_symbols (selection sample_map sample_heap_blocks) slots).
Proof.
  apply (rebuild_symbols_index sample_symbols sample_map sample_heap_blocks).
  - apply sample_blocks_inv.
  - apply sample_symbols_NoDup.
Defined.

Lemma has_symbol_after_prepare_witness :
  ∃ symbol_map' h',
    chafa_symbol_map_prepare sample_symbols sample_map sample_heap_blocks
    = Done symbol_map' h' ∧
    need_rebuild symbol_map' = false ∧
    selection symbol_map' h' = selection sample_map sample_heap_blocks ∧
    ∀ symbol,
      ∃ found,
        chafa_symbol_map_has_symbol symbol_map' symbol h' = Done found h' ∧
        (found = true ↔
         ∃ i sym, i ∈ selection symbol_map' h' ∧ sample_symbols !! i = Some sym ∧
                  c sym = symbol).
Proof.
  apply (has_symbol_after_prepare sample_symbols sample_map sample_heap_blocks).
  apply sample_blocks_inv.
Defined.

Lemma copy_contents_independent_witness :
  ∃ dest h1,
    chafa_symbol_map_copy_contents sample_map sample_heap = Done dest h1 ∧
    refs dest = 1 ∧ need_rebuild dest = true ∧
    selection dest h1 = selection sample_map sample_heap ∧
    (∀ p, desired_symbols dest = Some p →
          desired_symbols sample_map ≠ Some p ∧ hash_tables sample_heap !! p = None) ∧
    selection sample_map h1 = selection sample_map sample_heap ∧
    derived_index sample_map h1 = derived_index sample_map sample_heap ∧
    (∀ tags, ∃ dest' h2,
       chafa_symbol_map_add_by_tags sample_symbols dest tags h1 = Done dest' h2 ∧
       selection dest' h2
       = entries_matching sample_symbols tags ∪ selection sample_map sample_heap ∧
       selection sample_map h2 = selection sample_map sample_heap ∧
       derived_index sample_map h2 = derived_index sample_map sample_heap) ∧
    (∀ calls dest' h2,
       run_calls (tv := sample_tags) sample_symbols calls dest h1 = Done dest' h2 →
       selection sample_map h2 = selection sample_map sample_heap ∧
       derived_index sample_map h2 = derived_index sample_map sample_heap) ∧
    (∀ calls src' h2,
       run_calls (tv := sample_tags) sample_symbols calls sample_map h1 = Done src' h2 →
       selection dest h2 = selection dest h1 ∧
       derived_index dest h2 = derived_index dest h1).
Proof.
  apply (copy_contents_independent (tv := sample_tags) sample_symbols
           sample_map sample_heap).
  apply sample_map_inv.
Defined.

(** The copy of [sample_map] gets table 2; adding the blocks to the copy
    changes table 2 and leaves table 1, the table of the source, alone. *)
Lemma copy_then_add_sample :
  chafa_symbol_map_copy_contents sample_map sample_heap
  = Done {| refs := 1; need_rebuild := true; desired_symbols := Some 2%positive;
            symbols := None; n_symbols := O |}
         (mkHeap {[ 1%positive := {[ O ]}; 2%positive := {[ O ]} ]} ∅) ∧
  chafa_symbol_map_add_by_tags sample_symbols
    {| refs := 1; need_rebuild := true; desired_symbols := Some 2%positive;
       symbols := None; n_symbols := O |} 8
    (mkHeap {[ 1%positive := {[ O ]}; 2%positive := {[ O ]} ]} ∅)
  = Done {| refs := 1; need_rebuild := true; desired_symbols := Some 2%positive;
            symbols := None; n_symbols := O |}
         (mkHeap {[ 1%positive := {[ O ]};
                    2%positive := {[ 0%nat; 1%nat; 3%nat ]} ]} ∅).
Proof. split; vm_compute; reflexivity. Qed.

(** ** The lookup of a tag name *)

Lemma code_inj a b : code a = code b → a = b.
Proof.
  unfold code. intros H. apply (f_equal Z.to_N) in H. rewrite !N2Z.id in H.
  apply (f_equal ascii_of_N) in H. by rewrite !ascii_N_embedding in H.
Qed.

(** [g_ascii_strncasecmp] returns 0 exactly when the first [n]
    characters of the two strings are the same up to case. *)
Lemma g_ascii_strncasecmp_zero s1 s2 n :
  g_ascii_strncasecmp s1 s2 n = 0 ↔ lower_slice n s1 = lower_slice n s2.
Proof.
  revert s1 s2. induction n as [|n IH]; intros s1 s2; [done|].
  cbn [g_ascii_strncasecmp].
  destruct s1 as [|c1 s1], s2 as [|c2 s2]; unfold at_nul; cbn [deref advance lower_slice].
  - done.
  - change (code zero) with 0. cbn [Z.eqb orb].
    destruct (code c2 =? 0) eqn:H2.
    + apply Z.eqb_eq in H2. rewrite H2. done.
    + apply Z.eqb_neq in H2. split; [lia|done].
  - change (code zero) with 0. rewrite orb_true_r.
    destruct (code c1 =? 0) eqn:H1.
    + apply Z.eqb_eq in H1. rewrite H1. done.
    + apply Z.eqb_neq in H1. split; [lia|done].
  - destruct (Z.eqb_spec (code c1) 0) as [H1|H1],
             (Z.eqb_spec (code c2) 0) as [H2|H2]; cbn [orb].
    + rewrite H1, H2. done.
    + split; [lia|done].
    + split; [lia|done].
    + destruct (code (g_ascii_tolower c1) =? code (g_ascii_tolower c2)) eqn:Heq.
      * apply Z.eqb_eq in Heq. apply code_inj in Heq. rewrite Heq, IH.
        split; [by intros -> | by intros [=]].
      * apply Z.eqb_neq in Heq. split; [lia|]. intros [= Hc _]. by rewrite Hc in Heq.
Qed.

Section Lookup.
Context {tv : TagValues}.

Lemma parse_symbol_tag_from_accepts rows name len :
  is_Some (parse_symbol_tag_from rows name len) ↔
  ∃ row, row ∈ rows ∧ lower_slice len row.1 = lower_slice len name.
Proof.
  induction rows as [|[row_name row_sc] rows IH]; simpl.
  - split; [by intros [? ?] | by intros (? & ?%elem_of_nil & _)].
  - destruct (g_ascii_strncasecmp row_name name len =? 0) eqn:Hcmp.
    + apply Z.eqb_eq in Hcmp. apply g_ascii_strncasecmp_zero in Hcmp.
      split; [|by eexists]. intros _. exists (row_name, row_sc).
      split; [apply list_elem_of_here | done].
    + apply Z.eqb_neq in Hcmp. rewrite g_ascii_strncasecmp_zero in Hcmp.
      rewrite IH. split.
      * intros (row & Hrow & Hlow). exists row. split; [by apply list_elem_of_further|done].
      * intros (row & [->|Hrow]%elem_of_cons & Hlow); [done|]. by exists row.
Qed.

(** What [parse_symbol_tag] accepts: every slice that agrees, up to
    case, with the first [len] characters of a name of the table, so
    every prefix of a name, the empty one included. *)
Lemma parse_symbol_tag_accepts name len :
  (∃ sc, parse_symbol_tag name len = inl sc) ↔
  ∃ row, row ∈ map ∧ lower_slice len row.1 = lower_slice len name.
Proof.
  rewrite <- parse_symbol_tag_from_accepts. unfold parse_symbol_tag.
  destruct (parse_symbol_tag_from map name len) as [sc|].
  - split; [by eexists | by eexists].
  - split; [by intros [? ?] | by intros [? ?]].
Qed.

(** C2, at a failing input: the slice ["bl"] of length 2 is none of the
    fifteen names of the vocabulary, and the lookup succeeds on it,
    with the tag of ["block"]; so it does on ["h"], with HALF, and on
    the empty slice, with ALL. A name with a letter too many is
    refused, and so is a name that begins no entry. *)
Theorem parse_symbol_tag_accepts_prefix :
  ("bl"%string ∉ (fst <$> map)) ∧
  parse_symbol_tag "bl" 2 = inl CHAFA_SYMBOL_TAG_BLOCK ∧
  parse_symbol_tag "h" 1 = inl CHAFA_SYMBOL_TAG_HALF ∧
  parse_symbol_tag "" 0 = inl CHAFA_SYMBOL_TAG_ALL ∧
  parse_symbol_tag "BLOCK" 5 = inl CHAFA_SYMBOL_TAG_BLOCK ∧
  parse_symbol_tag "blocks" 6
  = inr (G_OPTION_ERROR_BAD_VALUE "Unrecognized symbol tag 'blocks'.") ∧
  parse_symbol_tag "x" 1
  = inr (G_OPTION_ERROR_BAD_VALUE "Unrecognized symbol tag 'x'.").
Proof.
  split; [|by split_and!].
  apply (bool_decide_unpack _). vm_compute. exact I.
Qed.
End Lookup.

(** Through the parser: ["bl"] is applied as if it were ["block"], with
    no error, and selects the two blocks of the sample catalog. *)
Lemma apply_selectors_prefix_sample :
  chafa_symbol_map_apply_selectors (tv := sample_tags) sample_symbols
    sample_map "bl" sample_heap
  = Done (true, None,
          {| refs := 1; need_rebuild := true; desired_symbols := Some 2%positive;
             symbols := None; n_symbols := O |})
         (mkHeap {[ 2%positive := {[ 1%nat; 3%nat ]} ]} ∅) ∧
  chafa_symbol_map_apply_selectors (tv := sample_tags) sample_symbols
    sample_map "block" sample_heap
  = chafa_symbol_map_apply_selectors (tv := sample_tags) sample_symbols
      sample_map "bl" sample_heap.
Proof. split; vm_compute; reflexivity. Qed.

(** ** A signed clause at the head of the string *)

Lemma strspn_app name rest accept :
  strspn name accept = String.length name →
  strspn (name +:+ rest) accept = (String.length name + strspn rest accept)%nat.
Proof.
  induction name as [|ch name IH]; [done|]. simpl.
  destruct (negb (code ch =? 0) && char_in ch accept); [|done].
  intros [= Hname]. by rewrite IH.
Qed.

Lemma advance_app name rest : advance (String.length name) (name +:+ rest) = rest.
Proof. induction name as [|ch name IH]; [done|]. simpl. apply IH. Qed.

Lemma letter_not_separator ch :
  char_in ch letters = true →
  code ch ≠ 0 ∧ char_in ch " " = false ∧ char_in ch " ," = false ∧
  Ascii.eqb ch "+" = false ∧ Ascii.eqb ch "-" = false.
Proof.
  unfold letters. cbn [char_in]. intros H.
  repeat (apply orb_true_iff in H as [H|H];
          [apply Ascii.eqb_eq in H as ->; by vm_compute|]).
  done.
Qed.

Section SignedClause.
Context {tv : TagValues}.
Variable chafa_symbols : list ChafaSymbol.

(** The scan of a sign, a run of letters right after it, and a rest that
    does not go on with a letter. *)
Lemma scan_clause_signed (sign : ascii) name rest st :
  sign = "+"%char ∨ sign = "-"%char →
  strspn name letters = String.length name →
  (0 < String.length name)%nat →
  strspn rest letters = O →
  scan_clause (mkParseState (String sign (name +:+ rest))
                            (is_add st) (is_remove st) (new_syms st))
  = match parse_symbol_tag (name +:+ rest) (String.length name) with
    | inl sc =>
        ScanTag (mkParseState rest (Ascii.eqb sign "+") (Ascii.eqb sign "-")
                              (new_syms st)) sc
    | inr error =>
        ScanError (mkParseState (name +:+ rest) (Ascii.eqb sign "+")
                                (Ascii.eqb sign "-") (new_syms st)) error
    end.
Proof.
  intros Hsign Hname Hlen Hrest.
  destruct name as [|ch name]; [simpl in Hlen; lia|].
  assert (char_in ch letters = true ∧ code ch ≠ 0) as [Hch Hnul].
  { cbn [strspn] in Hname. destruct (Z.eqb_spec (code ch) 0); [done|].
    by destruct (char_in ch letters). }
  destruct (letter_not_separator ch Hch) as (_ & Hsp & Hsep & Hplus & Hminus).
  pose proof (strspn_app (String ch name) rest letters Hname) as Hn.
  rewrite Hrest, Nat.add_0_r in Hn.
  pose proof (advance_app (String ch name) rest) as Hadv.
  unfold scan_clause. cbn [p0 is_add is_remove new_syms].
  assert (strspn (String sign (String ch name +:+ rest)) " ," = O) as ->
    by (by destruct Hsign as [-> | ->]).
  cbn [advance].
  assert (at_nul (String sign (String ch name +:+ rest)) = false) as ->
    by (by destruct Hsign as [-> | ->]).
  cbn [deref].
  assert (strspn (String ch name +:+ rest) " " = O) as Hspace.
  { change (String ch name +:+ rest) with (String ch (name +:+ rest)).
    cbn [strspn]. rewrite Hsp. by rewrite andb_false_r. }
  assert (at_nul (String ch name +:+ rest) = false) as Hat.
  { change (String ch name +:+ rest) with (String ch (name +:+ rest)).
    unfold at_nul. cbn [deref]. by apply Z.eqb_neq. }
  fold letters.
  destruct Hsign as [-> | ->];
    cbn [Ascii.eqb Bool.eqb andb p0 is_add is_remove new_syms advance];
    rewrite Hspace; cbn [advance]; rewrite Hat, Hn, Hadv;
    by destruct (parse_symbol_tag _ _).
Qed.

(** Each name of the table is a run of letters that the lookup takes
    for itself, whatever follows it. *)
Lemma vocabulary_name row rest :
  row ∈ map →
  strspn row.1 letters = String.length row.1 ∧
  (0 < String.length row.1)%nat ∧
  parse_symbol_tag (row.1 +:+ rest) (String.length row.1) = inl row.2.
Proof.
  unfold map. intros Hrow.
  repeat (apply elem_of_cons in Hrow as [->|Hrow]; [split_and!; [done|simpl; lia|done]|]).
  by apply elem_of_nil in Hrow.
Qed.

Lemma first_clause_signed_vocabulary (sign : ascii) row rest :
  sign = "+"%char ∨ sign = "-"%char →
  row ∈ map →
  strspn rest letters = O →
  first_clause_signed (String sign (row.1 +:+ rest)) = true.
Proof.
  intros Hsign Hrow Hrest.
  destruct (vocabulary_name row rest Hrow) as (Hname & Hlen & Htag).
  unfold first_clause_signed.
  pose proof (scan_clause_signed sign row.1 rest (initial_state "")
                Hsign Hname Hlen Hrest) as Hscan.
  unfold initial_state in *. cbn [is_add is_remove new_syms] in Hscan.
  rewrite Hscan, Htag. cbn [is_add is_remove]. by destruct Hsign as [-> | ->].
Qed.

(** On a map as [chafa_symbol_map_new] gives it, a string that starts
    with a sign and a tag name has no defined result. *)
Lemma new_map_signed_clause_undefined (sign : ascii) row rest h :
  sign = "+"%char ∨ sign = "-"%char →
  row ∈ map →
  strspn rest letters = O →
  chafa_symbol_map_apply_selectors chafa_symbols chafa_symbol_map_new
    (String sign (row.1 +:+ rest)) h = Undefined.
Proof.
  intros Hsign Hrow Hrest. unfold chafa_symbol_map_apply_selectors. simpl negb.
  cbn match. apply parse_selectors_null_signed; [done|].
  by apply first_clause_signed_vocabulary.
Qed.

(** [chafa_symbol_map_add_by_tags] on a new map gives it a table with
    exactly the catalog indices matching the tags. *)
Lemma add_by_tags_new_map tags h :
  chafa_symbol_map_add_by_tags chafa_symbols chafa_symbol_map_new tags h
  = Done {| refs := 1;
            need_rebuild := true;
            desired_symbols := Some (fresh (dom (hash_tables h)));
            symbols := None;
            n_symbols := O |}
         (set_tables (<[fresh (dom (hash_tables h)) :=
                          entries_matching chafa_symbols tags]> (hash_tables h)) h).
Proof.
  rewrite chafa_symbol_map_add_by_tags_live by done.
  unfold selection, table_for. simpl. by rewrite (right_id_L ∅ (∪)).
Qed.
End SignedClause.

(** The sample map is what [chafa_symbol_map_add_by_tags] with SPACE
    makes of a new map in the empty heap. *)
Lemma sample_map_from_add_by_tags :
  chafa_symbol_map_add_by_tags sample_symbols
    chafa_symbol_map_new (CHAFA_SYMBOL_TAG_SPACE (TagValues := sample_tags)) empty_heap
  = Done sample_map sample_heap.
Proof. vm_compute. reflexivity. Qed.

(** ** Invalid selector strings *)

Lemma grammatical_from_nul lone_sign after_sign p :
  at_nul p = true →
  grammatical_from lone_sign after_sign p = negb after_sign || lone_sign.
Proof.
  destruct p as [|ch p]; [done|]. unfold at_nul. cbn [deref grammatical_from].
  by intros ->.
Qed.

Lemma tag_names_nul p : at_nul p = true → tag_names p = [].
Proof.
  destruct p as [|ch p]; [done|]. unfold at_nul. cbn [deref tag_names].
  by intros ->.
Qed.

Lemma separator_cases ch :
  char_in ch " ," = true → ch = " "%char ∨ ch = ","%char.
Proof.
  cbn [char_in]. intros H.
  apply orb_true_iff in H as [H|H]; [left; by apply Ascii.eqb_eq|].
  apply orb_true_iff in H as [H|H]; [right; by apply Ascii.eqb_eq|done].
Qed.

Lemma space_case ch : char_in ch " " = true → ch = " "%char.
Proof.
  cbn [char_in]. intros H.
  apply orb_true_iff in H as [H|H]; [by apply Ascii.eqb_eq|done].
Qed.

Lemma grammatical_from_separators lone_sign p :
  grammatical_from lone_sign false p
  = grammatical_from lone_sign false (advance (strspn p " ,") p).
Proof.
  induction p as [|ch p IH]; [done|]. cbn [strspn].
  destruct (negb (code ch =? 0) && char_in ch " ,") eqn:Hch; [|done].
  apply andb_true_iff in Hch as [_ Hch]. cbn [advance]. rewrite <- IH.
  by destruct (separator_cases _ Hch) as [-> | ->].
Qed.

Lemma grammatical_from_spaces lone_sign after_sign p :
  grammatical_from lone_sign after_sign p
  = grammatical_from lone_sign after_sign (advance (strspn p " ") p).
Proof.
  induction p as [|ch p IH]; [done|]. cbn [strspn].
  destruct (negb (code ch =? 0) && char_in ch " ") eqn:Hch; [|done].
  apply andb_true_iff in Hch as [_ Hch]. cbn [advance]. rewrite <- IH.
  by rewrite (space_case _ Hch).
Qed.

Lemma grammatical_from_sign lone_sign p :
  Ascii.eqb (deref p) "-" = true ∨ Ascii.eqb (deref p) "+" = true →
  grammatical_from lone_sign false p = grammatical_from lone_sign true (advance 1 p).
Proof.
  destruct p as [|ch p]; [by intros [?|?]|]. cbn [deref advance].
  by intros [->%Ascii.eqb_eq| ->%Ascii.eqb_eq].
Qed.

Lemma grammatical_from_name lone_sign after_sign p :
  (0 < strspn p letters)%nat →
  grammatical_from lone_sign after_sign p
  = grammatical_from lone_sign false (advance (strspn p letters) p).
Proof.
  revert after_sign. induction p as [|ch p IH]; intros after_sign; [cbn; lia|].
  cbn [strspn grammatical_from].
  destruct (code ch =? 0) eqn:Hnul; cbn [negb andb]; [lia|].
  destruct (char_in ch letters) eqn:Hch; [|lia]. intros _. cbn [advance].
  destruct (Nat.eq_dec (strspn p letters) O) as [Hn|Hn]; [by rewrite Hn|].
  apply IH. lia.
Qed.

Lemma tag_names_skip accept p :
  (∀ ch, char_in ch accept = true → char_in ch letters = false) →
  tag_names p = tag_names (advance (strspn p accept) p).
Proof.
  intros Haccept. induction p as [|ch p IH]; [done|]. cbn [strspn].
  destruct (code ch =? 0) eqn:Hnul; cbn [negb andb]; [done|].
  destruct (char_in ch accept) eqn:Hch; [|done].
  cbn [advance tag_names]. by rewrite Hnul, (Haccept _ Hch).
Qed.

Lemma tag_names_sign p :
  Ascii.eqb (deref p) "-" = true ∨ Ascii.eqb (deref p) "+" = true →
  tag_names p = tag_names (advance 1 p).
Proof.
  destruct p as [|ch p]; [by intros [?|?]|]. cbn [deref advance].
  by intros [->%Ascii.eqb_eq| ->%Ascii.eqb_eq].
Qed.

Lemma starts_name_strspn p : starts_name p = negb (strspn p letters =? 0)%nat.
Proof.
  destruct p as [|ch p]; [done|]. unfold starts_name. cbn [deref strspn].
  by destruct (negb (code ch =? 0) && char_in ch letters).
Qed.

Lemma tag_names_name p :
  (0 < strspn p letters)%nat →
  tag_names p
  = slice (strspn p letters) p :: tag_names (advance (strspn p letters) p).
Proof.
  induction p as [|ch p IH]; [cbn; lia|].
  cbn [strspn tag_names].
  destruct (code ch =? 0) eqn:Hnul; cbn [negb andb]; [lia|].
  destruct (char_in ch letters) eqn:Hch; [|lia]. intros _.
  cbn [slice advance]. rewrite Hnul, starts_name_strspn.
  destruct (Nat.eq_dec (strspn p letters) O) as [Hn|Hn]; [by rewrite Hn|].
  replace (strspn p letters =? 0)%nat with false
    by (symmetry; apply Nat.eqb_neq; lia).
  cbn [negb]. rewrite IH by lia. done.
Qed.

Lemma separators_no_letters ch :
  char_in ch " ," = true → char_in ch letters = false.
Proof. by intros [-> | ->]%separator_cases. Qed.

Lemma spaces_no_letters ch : char_in ch " " = true → char_in ch letters = false.
Proof. by intros ->%space_case. Qed.

(** A sign at the end of the string is all that the two readings of
    the grammar differ in. *)
Lemma grammatical_from_lone_sign after_sign p :
  grammatical_from false after_sign p
  = grammatical_from true after_sign p && negb (ends_with_sign_from after_sign p).
Proof.
  revert after_sign. induction p as [|ch p IH]; intros after_sign.
  - cbn. by destruct after_sign.
  - cbn [grammatical_from ends_with_sign_from].
    destruct (code ch =? 0); [by destruct after_sign|].
    destruct (char_in ch letters) eqn:Hletter.
    + assert (Ascii.eqb ch " " = false ∧ Ascii.eqb ch "+" = false
              ∧ Ascii.eqb ch "-" = false) as (-> & -> & ->).
      { split_and!; apply Ascii.eqb_neq; intros ->; done. }
      apply IH.
    + destruct (Ascii.eqb ch " "); [apply IH|].
      destruct after_sign; [done|].
      destruct (Ascii.eqb ch ",") eqn:Hcomma.
      * apply Ascii.eqb_eq in Hcomma as ->. apply IH.
      * destruct (Ascii.eqb ch "+" || Ascii.eqb ch "-"); [apply IH|done].
Qed.

Lemma syntactically_valid_grammatical selectors :
  syntactically_valid selectors
  = grammatical selectors && negb (ends_with_sign selectors).
Proof. apply grammatical_from_lone_sign. Qed.

Lemma lower_slice_prefix n p row_name :
  (n ≤ strspn p letters)%nat →
  lower_slice n row_name = lower_slice n p →
  prefix_up_to_case (slice n p) row_name = true ∧
  String.length (slice n p) = n ∧ (n ≤ String.length row_name)%nat.
Proof.
  revert p row_name. induction n as [|n IH]; intros p row_name.
  { intros _ _. cbn. split_and!; [done|done|lia]. }
  destruct p as [|ch p]; [cbn; lia|]. cbn [strspn slice lower_slice].
  destruct (code ch =? 0); cbn [negb andb]; [lia|].
  destruct (char_in ch letters); [|lia]. intros Hn.
  destruct row_name as [|c row_name]; cbn [lower_slice]; [done|].
  destruct (code c =? 0); [done|]. intros [= Hc Hrest].
  destruct (IH p row_name) as (Hprefix & Hlen & Hrow); [lia|done|].
  cbn [prefix_up_to_case String.length]. rewrite Hc, Ascii.eqb_refl, Hprefix, Hlen.
  split_and!; [done|done|lia].
Qed.

Section KnownNames.
Context {tv : TagValues}.

(** A run of letters that the lookup accepts is a name of the
    vocabulary or the beginning of one. *)
Lemma parse_symbol_tag_known p sc :
  parse_symbol_tag p (strspn p letters) = inl sc →
  is_vocabulary_name (slice (strspn p letters) p)
  || is_abbreviation (slice (strspn p letters) p) = true.
Proof.
  intros Htag.
  destruct (proj1 (parse_symbol_tag_accepts p (strspn p letters)))
    as (row & Hrow & Hlow); [by exists sc|].
  destruct (lower_slice_prefix _ _ _ (Nat.le_refl _) Hlow) as (Hprefix & Hlen & Hle).
  unfold is_abbreviation.
  destruct (is_vocabulary_name (slice (strspn p letters) p)) eqn:Hvoc; [done|].
  cbn [negb orb andb]. apply existsb_exists. exists row.
  split; [by apply list_elem_of_In|]. rewrite Hprefix. cbn [andb].
  apply Nat.ltb_lt. rewrite Hlen.
  destruct (Nat.eq_dec (strspn p letters) (String.length row.1)) as [Heq|]; [|lia].
  exfalso. apply not_true_iff_false in Hvoc. apply Hvoc.
  apply existsb_exists. exists row. split; [by apply list_elem_of_In|].
  rewrite Hprefix, Hlen. cbn [andb]. by apply Nat.eqb_eq.
Qed.

(** A turn of the loop from the start of a clause, in the terms of the
    grammar: the scan skips separators, a sign and spaces, which hold no
    name, and then stands at the end of the string or takes the whole
    run of letters there. *)
Lemma scan_clause_parts p :
  let p1 := advance (strspn p " ,") p in
  let signed := Ascii.eqb (deref p1) "-" || Ascii.eqb (deref p1) "+" in
  let p1' := if signed then advance 1 p1 else p1 in
  let p2 := advance (strspn p1' " ") p1' in
  grammatical_from true false p = grammatical_from true signed p2 ∧
  tag_names p = tag_names p2 ∧
  match scan_clause (initial_state p) with
  | ScanBreak _ => at_nul p2 = true
  | ScanError _ _ => True
  | ScanTag st sc =>
      (0 < strspn p2 letters)%nat ∧
      parse_symbol_tag p2 (strspn p2 letters) = inl sc ∧
      p0 st = advance (strspn p2 letters) p2
  end.
Proof.
  intros p1 signed p1' p2.
  assert (grammatical_from true false p1 = grammatical_from true signed p1' ∧
          tag_names p1 = tag_names p1') as [Hg1 Ht1].
  { unfold p1', signed.
    destruct (Ascii.eqb (deref p1) "-") eqn:Hminus; cbn [orb].
    - split; [apply grammatical_from_sign | apply tag_names_sign]; auto.
    - destruct (Ascii.eqb (deref p1) "+") eqn:Hplus; [|done].
      split; [apply grammatical_from_sign | apply tag_names_sign]; auto. }
  split_and!.
  - rewrite (grammatical_from_separators true p). fold p1. rewrite Hg1.
    apply grammatical_from_spaces.
  - rewrite (tag_names_skip " ," p separators_no_letters). fold p1. rewrite Ht1.
    apply (tag_names_skip " " p1' spaces_no_letters).
  - unfold scan_clause. cbn [initial_state p0 is_add is_remove new_syms].
    fold p1. destruct (at_nul p1) eqn:Hnul1.
    + assert (p2 = p1) as ->; [|done].
      unfold p2, p1', signed. destruct p1 as [|ch p1r]; [done|].
      unfold at_nul in Hnul1. cbn [deref] in *.
      assert (Ascii.eqb ch "-" = false ∧ Ascii.eqb ch "+" = false) as [-> ->].
      { split; apply Ascii.eqb_neq; intros ->; done. }
      cbn [orb strspn]. by rewrite Hnul1.
    + assert ((if Ascii.eqb (deref p1) "-"
               then mkParseState (advance 1 p1) false true None
               else if Ascii.eqb (deref p1) "+"
                    then mkParseState (advance 1 p1) true false None
                    else mkParseState p1 false false None)
              = mkParseState p1' (Ascii.eqb (deref p1) "+" && negb (Ascii.eqb (deref p1) "-"))
                             (Ascii.eqb (deref p1) "-") None) as ->.
      { unfold p1', signed.
        destruct (Ascii.eqb (deref p1) "-"); [by rewrite andb_false_r|].
        by destruct (Ascii.eqb (deref p1) "+"). }
      cbn [p0 is_add is_remove new_syms]. fold p2.
      destruct (at_nul p2); [done|]. fold letters.
      destruct (strspn p2 letters =? 0)%nat eqn:Hn; [done|].
      apply Nat.eqb_neq in Hn.
      destruct (parse_symbol_tag p2 (strspn p2 letters)) as [sc|error]; [|done].
      cbn [p0]. split_and!; [lia|done|done].
Qed.

(** A string that the loop goes through without an error is
    grammatical, and each of its runs of letters is a name of the
    vocabulary or the beginning of one. *)
Lemma error_from_none_grammatical fuel p :
  (String.length p < fuel)%nat →
  error_from fuel p = None →
  grammatical_from true false p = true ∧
  ∀ name, name ∈ tag_names p →
          is_vocabulary_name name || is_abbreviation name = true.
Proof.
  revert p. induction fuel as [|fuel IH]; intros p Hlen; [lia|].
  cbn [error_from]. destruct (at_nul p) eqn:Hnul.
  { intros _. rewrite grammatical_from_nul, tag_names_nul by done.
    split; [done|]. by intros name ?%elem_of_nil. }
  pose proof (scan_clause_shorter (initial_state p)) as Hshort.
  destruct (scan_clause_parts p) as (Hg & Ht & Hscan).
  rewrite Hg, Ht.
  destruct (scan_clause (initial_state p)) as [st|st error|st sc]; [| done |].
  - intros _. rewrite grammatical_from_nul, tag_names_nul by done.
    split; [by rewrite orb_true_r|]. by intros name ?%elem_of_nil.
  - intros Herr. destruct Hscan as (Hn & Htag & Hp).
    specialize (Hshort _ _ eq_refl). cbn [initial_state p0] in Hshort.
    destruct (IH (p0 st)) as [Hrest Hnames]; [lia|done|].
    rewrite (grammatical_from_name _ _ _ Hn), (tag_names_name _ Hn), <- Hp.
    split; [done|]. intros name [->|Hin]%elem_of_cons; [|by apply Hnames].
    by apply (parse_symbol_tag_known _ sc).
Qed.
End KnownNames.

Section InvalidSelectors.
Context {tv : TagValues}.
Variable chafa_symbols : list ChafaSymbol.

(** C1, as amended: a selector string that is syntactically invalid in
    another way than by a sign at its end with no name after it, or
    that holds a tag name which is neither a name of the vocabulary nor
    the beginning of one, is never applied. On a live map whose first
    copy has a source, [chafa_symbol_map_apply_selectors] returns with
    an error stored for the caller, and with the map and the heap,
    hence the selection, exactly as they were before the call. *)
Theorem apply_selectors_invalid_leaves_selection symbol_map selectors h :
  0 < refs symbol_map →
  copy_source_ok symbol_map selectors h →
  grammatical selectors = false ∨
  (∃ name, name ∈ tag_names selectors ∧
           is_vocabulary_name name = false ∧ is_abbreviation name = false) →
  ∃ result error symbol_map' h',
    chafa_symbol_map_apply_selectors chafa_symbols symbol_map selectors h
    = Done (result, Some error, symbol_map') h' ∧
    selection symbol_map' h' = selection symbol_map h ∧
    symbol_map' = symbol_map ∧ h' = h.
Proof.
  intros Hrefs Hok Hinvalid.
  destruct (selectors_error selectors) as [error|] eqn:Herr; cycle 1.
  { exfalso. unfold selectors_error in Herr.
    apply error_from_none_grammatical in Herr as [Hg Hnames]; [|lia].
    destruct Hinvalid as [Hbad | (name & Hin & Hvoc & Habbr)].
    - unfold grammatical in Hbad. congruence.
    - specialize (Hnames _ Hin). by rewrite Hvoc, Habbr in Hnames. }
  unfold chafa_symbol_map_apply_selectors.
  replace (refs symbol_map >? 0) with true by (symmetry; apply Z.gtb_lt; lia).
  cbn [negb].
  destruct (parse_selectors_defined chafa_symbols _ _ _ Hok)
    as ([[result e] symbol_map'] & h' & Hrun).
  pose proof (parse_selectors_inv _ _ _ _ _ _ _ _ Hrun) as (_ & -> & Hcase).
  rewrite Herr in Hcase. destruct Hcase as [-> ->].
  exists result, error, symbol_map, h. by rewrite Hrun, Herr.
Qed.
End InvalidSelectors.

Lemma apply_selectors_invalid_leaves_selection_witness :
  (∃ result error symbol_map' h',
     chafa_symbol_map_apply_selectors (tv := sample_tags) sample_symbols
       sample_map "bl0ck" sample_heap
     = Done (result, Some error, symbol_map') h' ∧
     selection symbol_map' h' = selection sample_map sample_heap ∧
     symbol_map' = sample_map ∧ h' = sample_heap) ∧
  (∃ result error symbol_map' h',
     chafa_symbol_map_apply_selectors (tv := sample_tags) sample_symbols
       sample_map "+dot, blocks" sample_heap
     = Done (result, Some error, symbol_map') h' ∧
     selection symbol_map' h' = selection sample_map sample_heap ∧
     symbol_map' = sample_map ∧ h' = sample_heap).
Proof.
  split.
  - apply (apply_selectors_invalid_leaves_selection (tv := sample_tags)
             sample_symbols sample_map "bl0ck" sample_heap).
    + reflexivity.
    + vm_compute. eexists. reflexivity.
    + left. reflexivity.
  - apply (apply_selectors_invalid_leaves_selection (tv := sample_tags)
             sample_symbols sample_map "+dot, blocks" sample_heap).
    + reflexivity.
    + vm_compute. eexists. reflexivity.
    + right. exists "blocks"%string. split_and!; [|reflexivity|reflexivity].
      vm_compute. apply list_elem_of_further, list_elem_of_here.
Defined.

(** * Further properties of the functions of the file *)

(** ** Selecting and deselecting by tags *)

Section SelectionByTags.
Variable chafa_symbols : list ChafaSymbol.

(** X1: on a live map with a positive reference count,
    [chafa_symbol_map_add_by_tags] returns with [need_rebuild] set and
    adds to the selection exactly the catalog indices before the first
    entry of codepoint 0 whose tag mask shares a bit with [tags]; what
    was selected stays selected, and the derived index, the reference
    count and every other table of the heap are left as they were. *)
Theorem add_by_tags_selects_matching symbol_map tags h :
  0 < refs symbol_map →
  table_live symbol_map h →
  ∃ symbol_map' h',
    chafa_symbol_map_add_by_tags chafa_symbols symbol_map tags h
    = Done symbol_map' h' ∧
    need_rebuild symbol_map' = true ∧
    refs symbol_map' = refs symbol_map ∧
    symbols symbol_map' = symbols symbol_map ∧
    n_symbols symbol_map' = n_symbols symbol_map ∧
    symbol_arrays h' = symbol_arrays h ∧
    (∀ p, desired_symbols symbol_map' ≠ Some p →
          hash_tables h' !! p = hash_tables h !! p) ∧
    ∀ i, i ∈ selection symbol_map' h' ↔
         i ∈ selection symbol_map h ∨
         ((i < catalog_size chafa_symbols)%nat ∧
          ∃ sym, chafa_symbols !! i = Some sym ∧ Z.land (sc sym) tags ≠ 0).
Proof.
  intros Hrefs Hlive.
  rewrite chafa_symbol_map_add_by_tags_live by done.
  eexists _, _. split; [reflexivity|]. split_and!; try done.
  - simpl. intros p Hp. apply lookup_insert_ne. congruence.
  - intros i. unfold selection at 1. simpl. rewrite lookup_insert_eq. simpl.
    rewrite elem_of_union, elem_of_entries_matching. tauto.
Qed.

(** X2: on a live map with a positive reference count,
    [chafa_symbol_map_remove_by_tags] returns with [need_rebuild] set
    and takes out of the selection exactly the catalog indices before
    the first entry of codepoint 0 whose tag mask shares a bit with
    [tags]; nothing is added, and the derived index, the reference
    count and every other table of the heap are left as they were. *)
Theorem remove_by_tags_deselects_matching symbol_map tags h :
  0 < refs symbol_map →
  table_live symbol_map h →
  ∃ symbol_map' h',
    chafa_symbol_map_remove_by_tags chafa_symbols symbol_map tags h
    = Done symbol_map' h' ∧
    need_rebuild symbol_map' = true ∧
    refs symbol_map' = refs symbol_map ∧
    symbols symbol_map' = symbols symbol_map ∧
    n_symbols symbol_map' = n_symbols symbol_map ∧
    symbol_arrays h' = symbol_arrays h ∧
    (∀ p, desired_symbols symbol_map' ≠ Some p →
          hash_tables h' !! p = hash_tables h !! p) ∧
    ∀ i, i ∈ selection symbol_map' h' ↔
         i ∈ selection symbol_map h ∧
         ¬ ((i < catalog_size chafa_symbols)%nat ∧
            ∃ sym, chafa_symbols !! i = Some sym ∧ Z.land (sc sym) tags ≠ 0).
Proof.
  intros Hrefs Hlive.
  rewrite chafa_symbol_map_remove_by_tags_live by done.
  eexists _, _. split; [reflexivity|]. split_and!; try done.
  - simpl. intros p Hp. apply lookup_insert_ne. congruence.
  - intros i. unfold selection at 1. simpl. rewrite lookup_insert_eq. simpl.
    rewrite elem_of_difference, elem_of_entries_matching. tauto.
Qed.

Lemma entries_matching_lor tags1 tags2 :
  entries_matching chafa_symbols (Z.lor tags1 tags2)
  = entries_matching chafa_symbols tags1 ∪ entries_matching chafa_symbols tags2.
Proof.
  apply set_eq. intros i. rewrite elem_of_union, !elem_of_entries_matching.
  assert (∀ sym, Z.land (sc sym) (Z.lor tags1 tags2) ≠ 0 ↔
                 Z.land (sc sym) tags1 ≠ 0 ∨ Z.land (sc sym) tags2 ≠ 0) as Hor.
  { intros sym. rewrite Z.land_lor_distr_r, Z.lor_eq_0_iff. lia. }
  split.
  - intros (Hi & sym & Hsym & [H1|H2]%Hor); [left|right]; eauto.
  - intros [(Hi & sym & Hsym & H1)|(Hi & sym & Hsym & H2)];
      (split; [done|]); exists sym; (split; [done|]); apply Hor; auto.
Qed.

(** The map and the heap after one of the two calls, for the next one. *)
Lemma selection_updated symbol_map h keys :
  let symbol_map' :=
    {| refs := refs symbol_map;
       need_rebuild := true;
       desired_symbols := Some (table_for symbol_map h);
       symbols := symbols symbol_map;
       n_symbols := n_symbols symbol_map |} in
  let h' := set_tables (<[table_for symbol_map h := keys]> (hash_tables h)) h in
  table_live symbol_map' h' ∧ table_for symbol_map' h' = table_for symbol_map h ∧
  selection symbol_map' h' = keys.
Proof.
  simpl. split_and!.
  - unfold table_live; simpl. rewrite lookup_insert_eq. by eexists.
  - done.
  - unfold selection; simpl. by rewrite lookup_insert_eq.
Qed.

(** X3: tags combine by bitwise or. On a live map, one call of
    [chafa_symbol_map_add_by_tags] with [tags1 | tags2] leaves the same
    map and the same heap as a call with [tags1] followed by a call with
    [tags2], and so it is with [chafa_symbol_map_remove_by_tags]. *)
Theorem tags_combine_by_or symbol_map tags1 tags2 h :
  0 < refs symbol_map →
  table_live symbol_map h →
  chafa_symbol_map_add_by_tags chafa_symbols symbol_map (Z.lor tags1 tags2) h
  = (let* symbol_map1 := chafa_symbol_map_add_by_tags chafa_symbols symbol_map tags1 in
     chafa_symbol_map_add_by_tags chafa_symbols symbol_map1 tags2) h ∧
  chafa_symbol_map_remove_by_tags chafa_symbols symbol_map (Z.lor tags1 tags2) h
  = (let* symbol_map1 := chafa_symbol_map_remove_by_tags chafa_symbols symbol_map tags1 in
     chafa_symbol_map_remove_by_tags chafa_symbols symbol_map1 tags2) h.
Proof.
  intros Hrefs Hlive. split.
  - rewrite (bind_done _ _ _ _ _
               (chafa_symbol_map_add_by_tags_live _ _ tags1 _ Hlive Hrefs)).
    destruct (selection_updated symbol_map h
                (entries_matching chafa_symbols tags1 ∪ selection symbol_map h))
      as (Hlive1 & Hfor1 & Hsel1).
    rewrite !chafa_symbol_map_add_by_tags_live by done.
    rewrite Hfor1, Hsel1. cbn [refs symbols n_symbols].
    unfold set_tables; simpl. rewrite insert_insert_eq, entries_matching_lor.
    do 3 f_equal. set_solver.
  - rewrite (bind_done _ _ _ _ _
               (chafa_symbol_map_remove_by_tags_live _ _ tags1 _ Hlive Hrefs)).
    destruct (selection_updated symbol_map h
                (selection symbol_map h ∖ entries_matching chafa_symbols tags1))
      as (Hlive1 & Hfor1 & Hsel1).
    rewrite !chafa_symbol_map_remove_by_tags_live by done.
    rewrite Hfor1, Hsel1. cbn [refs symbols n_symbols].
    unfold set_tables; simpl. rewrite insert_insert_eq, entries_matching_lor.
    do 3 f_equal. set_solver.
Qed.

(** X4: of a call of [chafa_symbol_map_add_by_tags] and a call of
    [chafa_symbol_map_remove_by_tags] with the same tags, the later one
    decides: on a live map, adding and then removing leaves the map and
    the heap that removing alone leaves, and removing and then adding
    leaves what adding alone leaves. *)
Theorem add_remove_last_call_decides symbol_map tags h :
  0 < refs symbol_map →
  table_live symbol_map h →
  (let* symbol_map1 := chafa_symbol_map_add_by_tags chafa_symbols symbol_map tags in
   chafa_symbol_map_remove_by_tags chafa_symbols symbol_map1 tags) h
  = chafa_symbol_map_remove_by_tags chafa_symbols symbol_map tags h ∧
  (let* symbol_map1 := chafa_symbol_map_remove_by_tags chafa_symbols symbol_map tags in
   chafa_symbol_map_add_by_tags chafa_symbols symbol_map1 tags) h
  = chafa_symbol_map_add_by_tags chafa_symbols symbol_map tags h.
Proof.
  intros Hrefs Hlive. split.
  - rewrite (bind_done _ _ _ _ _
               (chafa_symbol_map_add_by_tags_live _ _ tags _ Hlive Hrefs)).
    destruct (selection_updated symbol_map h
                (entries_matching chafa_symbols tags ∪ selection symbol_map h))
      as (Hlive1 & Hfor1 & Hsel1).
    rewrite !chafa_symbol_map_remove_by_tags_live by done.
    rewrite Hfor1, Hsel1. cbn [refs symbols n_symbols].
    unfold set_tables; simpl. rewrite insert_insert_eq.
    do 3 f_equal. set_solver.
  - rewrite (bind_done _ _ _ _ _
               (chafa_symbol_map_remove_by_tags_live _ _ tags _ Hlive Hrefs)).
    destruct (selection_updated symbol_map h
                (selection symbol_map h ∖ entries_matching chafa_symbols tags))
      as (Hlive1 & Hfor1 & Hsel1).
    rewrite !chafa_symbol_map_add_by_tags_live by done.
    rewrite Hfor1, Hsel1. cbn [refs symbols n_symbols].
    unfold set_tables; simpl. rewrite insert_insert_eq.
    do 3 f_equal. apply set_eq. intros i.
    rewrite !elem_of_union, elem_of_difference.
    destruct (decide (i ∈ entries_matching chafa_symbols tags)); tauto.
Qed.
End SelectionByTags.

(** ** The comparator of the sort *)

(** X5: [compare_symbols] is a three-way comparison of codepoints: it
    returns -1, 0 or 1 as the codepoint of the first symbol is below,
    equal to or above that of the second, whatever their tags; swapping
    the arguments negates the result, and the order it hands to [qsort]
    is transitive. *)
Theorem compare_symbols_three_way a b d :
  (compare_symbols a b = -1 ↔ c a < c b) ∧
  (compare_symbols a b = 0 ↔ c a = c b) ∧
  (compare_symbols a b = 1 ↔ c b < c a) ∧
  compare_symbols b a = - compare_symbols a b ∧
  (compare_symbols a b ≤ 0 → compare_symbols b d ≤ 0 → compare_symbols a d ≤ 0).
Proof.
  unfold compare_symbols. rewrite !Z.gtb_ltb.
  destruct (Z.ltb_spec (c a) (c b)), (Z.ltb_spec (c b) (c a)),
           (Z.ltb_spec (c b) (c d)), (Z.ltb_spec (c d) (c b)),
           (Z.ltb_spec (c a) (c d)), (Z.ltb_spec (c d) (c a)); lia.
Qed.

(** ** The lookup of tag names *)

Section TagNames.
Context {tv : TagValues}.

(** X6: every name of the table of [parse_symbol_tag], given with its
    full length, is recognised as the tag of its own row, whatever
    follows the name in the string: the comparison of prefixes and the
    order of the rows never hand a full name to another row. *)
Theorem tag_names_recognised row rest :
  row ∈ map →
  parse_symbol_tag (row.1 +:+ rest) (String.length row.1) = inl row.2.
Proof.
  unfold map. intros Hrow.
  repeat (apply elem_of_cons in Hrow as [->|Hrow]; [done|]).
  by apply elem_of_nil in Hrow.
Qed.

Lemma parse_symbol_tag_from_lower rows name name' len :
  lower_slice len name = lower_slice len name' →
  parse_symbol_tag_from rows name len = parse_symbol_tag_from rows name' len.
Proof.
  intros Hlow. induction rows as [|[row_name row_sc] rows IH]; [done|]. simpl.
  rewrite IH.
  destruct (Z.eqb_spec (g_ascii_strncasecmp row_name name len) 0) as [H1|H1],
           (Z.eqb_spec (g_ascii_strncasecmp row_name name' len) 0) as [H2|H2];
    try done; rewrite g_ascii_strncasecmp_zero in H1, H2; congruence.
Qed.

(** X7: the lookup of a tag name ignores the case of ASCII letters.
    Two slices of the same length that agree once their letters are put
    in lower case are both accepted, with the same tag, or both
    refused. *)
Theorem parse_symbol_tag_case_insensitive name name' len :
  lower_slice len name = lower_slice len name' →
  match parse_symbol_tag name len, parse_symbol_tag name' len with
  | inl sc, inl sc' => sc = sc'
  | inr _, inr _ => True
  | _, _ => False
  end.
Proof.
  intros Hlow. unfold parse_symbol_tag.
  rewrite (parse_symbol_tag_from_lower map _ _ _ Hlow).
  by destruct (parse_symbol_tag_from map name' len).
Qed.
End TagNames.

Lemma tag_names_recognised_witness :
  (("half"%string, CHAFA_SYMBOL_TAG_HALF (TagValues := sample_tags)) ∈ map (tv := sample_tags)) ∧
  parse_symbol_tag (tv := sample_tags) "half,border" 4
  = inl (CHAFA_SYMBOL_TAG_HALF (TagValues := sample_tags)).
Proof.
  assert (("half"%string, CHAFA_SYMBOL_TAG_HALF (TagValues := sample_tags))
          ∈ map (tv := sample_tags)) as Hrow.
  { apply (bool_decide_unpack _). vm_compute. exact I. }
  split; [exact Hrow|].
  apply (tag_names_recognised (tv := sample_tags)
           ("half"%string, CHAFA_SYMBOL_TAG_HALF (TagValues := sample_tags))
           ",border" Hrow).
Defined.

Lemma parse_symbol_tag_case_insensitive_witness :
  match parse_symbol_tag (tv := sample_tags) "BorDer" 6,
        parse_symbol_tag (tv := sample_tags) "border" 6 with
  | inl sc, inl sc' => sc = sc'
  | inr _, inr _ => True
  | _, _ => False
  end.
Proof.
  apply (parse_symbol_tag_case_insensitive (tv := sample_tags) "BorDer" "border" 6).
  reflexivity.
Defined.

(** ** The end of the parser's loop *)

Section Termination.
Context {tv : TagValues}.
Variable chafa_symbols : list ChafaSymbol.

(** X8: the loop of [parse_selectors] ends on every string, on every
    map and in every heap. Each turn that comes back to the loop
    condition has moved [p0] forward by at least one character, so from
    any loop state the loop is over within as many turns as characters
    are left, plus one; [chafa_symbol_map_apply_selectors], whose only
    loop this is besides the walks over the catalog and over a table,
    never runs on. *)
Theorem apply_selectors_terminates symbol_map selectors h :
  chafa_symbol_map_apply_selectors chafa_symbols symbol_map selectors h ≠ OutOfFuel ∧
  ∀ st h1,
    parse_loop chafa_symbols (S (String.length (p0 st))) symbol_map st h1 ≠ OutOfFuel.
Proof.
  split.
  - unfold chafa_symbol_map_apply_selectors.
    destruct (negb (refs symbol_map >? 0)); [done|].
    apply parse_selectors_no_timeout.
  - intros st h1. apply parse_loop_no_timeout. lia.
Qed.
End Termination.

(** ** What a successful parse does to the heap *)

Section ParserEffect.
Context {tv : TagValues}.
Variable chafa_symbols : list ChafaSymbol.

(** The end of [parse_selectors] after a loop that met no error. *)
Lemma parse_selectors_applied symbol_map selectors h st h1 :
  table_live symbol_map h →
  parse_loop chafa_symbols (S (String.length selectors)) symbol_map
             (initial_state selectors) h = Done (st, None) h1 →
  parse_selectors chafa_symbols symbol_map selectors h
  = Done (true, None,
          {| refs := refs symbol_map;
             need_rebuild := true;
             desired_symbols := new_syms st;
             symbols := symbols symbol_map;
             n_symbols := n_symbols symbol_map |})
         (set_tables match desired_symbols symbol_map with
                     | Some old => delete old (hash_tables h1)
                     | None => hash_tables h1
                     end h1).
Proof.
  intros Hlive Hloop. unfold parse_selectors.
  change (mkParseState selectors false false None) with (initial_state selectors).
  rewrite (bind_done _ _ _ _ _ Hloop).
  pose proof (parse_loop_scratch _ _ _ _ _ _ _ _ _ (scratch_of_initial _ _) Hloop) as Hs.
  unfold table_live in Hlive.
  destruct (desired_symbols symbol_map) as [old|].
  - unfold bind, g_hash_table_unref.
    rewrite (scratch_of_table_live _ _ _ _ Hs Hlive).
    destruct Hlive as [keys ->]. done.
  - unfold bind, ret. by rewrite set_tables_id.
Qed.

Lemma parse_selectors_loop symbol_map selectors h result error symbol_map' h' :
  parse_selectors chafa_symbols symbol_map selectors h
  = Done (result, error, symbol_map') h' →
  ∃ st h1,
    parse_loop chafa_symbols (S (String.length selectors)) symbol_map
               (initial_state selectors) h = Done (st, error) h1 ∧
    scratch_of h st h1.
Proof.
  unfold parse_selectors. intros Hrun.
  apply bind_inv in Hrun as ([st e] & h1 & Hloop & Hrun).
  exists st, h1.
  pose proof (parse_loop_scratch _ _ _ _ _ _ _ _ _ (scratch_of_initial _ _) Hloop) as Hs.
  split; [|done].
  destruct e as [e|]; apply bind_inv in Hrun as (? & ? & _ & Hrun);
    by injection Hrun as <- <- <- <-.
Qed.

(** X9: a call of [chafa_symbol_map_apply_selectors] that applies its
    string replaces the table of the map and touches nothing else. The
    table that the map had is destroyed; the table that the map has
    afterwards, if any, is a new object that was not in the heap before;
    every other table and every symbol array is as it was, so that no
    scratch table is left behind. The derived index is not rebuilt: the
    map keeps its array and [n_symbols], with [need_rebuild] set. *)
Theorem apply_selectors_replaces_table symbol_map selectors h result symbol_map' h' :
  0 < refs symbol_map →
  table_live symbol_map h →
  chafa_symbol_map_apply_selectors chafa_symbols symbol_map selectors h
  = Done (result, None, symbol_map') h' →
  result = true ∧
  need_rebuild symbol_map' = true ∧
  refs symbol_map' = refs symbol_map ∧
  symbols symbol_map' = symbols symbol_map ∧
  n_symbols symbol_map' = n_symbols symbol_map ∧
  symbol_arrays h' = symbol_arrays h ∧
  table_live symbol_map' h' ∧
  (∀ p, desired_symbols symbol_map' = Some p → hash_tables h !! p = None) ∧
  (∀ p, desired_symbols symbol_map = Some p → hash_tables h' !! p = None) ∧
  (∀ p, desired_symbols symbol_map ≠ Some p → desired_symbols symbol_map' ≠ Some p →
        hash_tables h' !! p = hash_tables h !! p).
Proof.
  intros Hrefs Hlive. unfold chafa_symbol_map_apply_selectors.
  replace (refs symbol_map >? 0) with true by (symmetry; apply Z.gtb_lt; lia).
  cbn [negb]. intros Hrun.
  destruct (parse_selectors_loop _ _ _ _ _ _ _ Hrun) as (st & h1 & Hloop & Hs).
  rewrite (parse_selectors_applied _ _ _ _ _ Hlive Hloop) in Hrun.
  injection Hrun as <- <- <-. cbn [need_rebuild refs symbols n_symbols desired_symbols].
  unfold scratch_of, table_live in *. cbn [desired_symbols].
  assert (symbol_arrays h1 = symbol_arrays h) as Harrays.
  { destruct (new_syms st); [|by subst]. by destruct Hs as (_ & keys & ->). }
  split_and!; try done.
  - destruct (new_syms st) as [syms|]; [|done].
    destruct Hs as (Hdead & keys & ->). simpl.
    destruct (desired_symbols symbol_map) as [old|].
    + destruct Hlive as [old_keys Hold].
      rewrite lookup_delete_ne, lookup_insert_eq by congruence. by eexists.
    + rewrite lookup_insert_eq. by eexists.
  - intros p Hp. rewrite Hp in Hs. by destruct Hs.
  - intros p ->. simpl. apply lookup_delete_eq.
  - intros p Hold Hnew. simpl.
    assert (hash_tables h1 !! p = hash_tables h !! p) as <-.
    { destruct (new_syms st) as [syms|]; [|by subst].
      destruct Hs as (_ & keys & ->). simpl. apply lookup_insert_ne. congruence. }
    destruct (desired_symbols symbol_map) as [old|]; [|done].
    apply lookup_delete_ne. congruence.
Qed.

(** The selection after a successful parse is what the scratch table of
    the loop held. *)
Lemma parse_selectors_selection symbol_map selectors h st h1 :
  table_live symbol_map h →
  parse_loop chafa_symbols (S (String.length selectors)) symbol_map
             (initial_state selectors) h = Done (st, None) h1 →
  ∃ symbol_map' h',
    parse_selectors chafa_symbols symbol_map selectors h
    = Done (true, None, symbol_map') h' ∧
    need_rebuild symbol_map' = true ∧
    selection symbol_map' h' = default ∅ (scratch_keys st h1).
Proof.
  intros Hlive Hloop.
  pose proof (parse_loop_scratch _ _ _ _ _ _ _ _ _ (scratch_of_initial _ _) Hloop) as Hs.
  rewrite (parse_selectors_applied _ _ _ _ _ Hlive Hloop).
  eexists _, _. split; [reflexivity|]. split; [done|].
  unfold selection, scratch_keys, scratch_of, table_live in *. cbn [desired_symbols].
  destruct (new_syms st) as [syms|]; [|done].
  destruct Hs as (Hdead & keys & ->). simpl.
  destruct (desired_symbols symbol_map) as [old|]; [|done].
  destruct Hlive as [old_keys Hold].
  by rewrite lookup_delete_ne by congruence.
Qed.

(** A turn of the loop on a scratch table that exists: the keys it
    leaves are those of [clause_keys]. *)
Lemma dispatch_with_scratch symbol_map st sc h keys :
  scratch_keys st h = Some keys →
  ∃ syms' h',
    dispatch chafa_symbols symbol_map st sc h
    = Done (Next (mkParseState (p0 st) (is_add st || negb (is_remove st))
                               (is_remove st) (Some syms'))) h' ∧
    hash_tables h' !! syms'
    = Some (clause_keys chafa_symbols (is_add st) (is_remove st) sc keys).
Proof.
  unfold scratch_keys, clause_keys. destruct (new_syms st) as [syms|] eqn:Hsyms; [|done].
  intros Hk.
  destruct (is_add st) eqn:Hadd; [|destruct (is_remove st) eqn:Hrem].
  - rewrite (dispatch_add_scratch _ _ _ _ _ _ _ Hadd Hsyms Hk).
    eexists _, _. split; [reflexivity|]. simpl. apply lookup_insert_eq.
  - rewrite (dispatch_remove_scratch _ _ _ _ _ _ _ Hadd Hrem Hsyms Hk).
    eexists _, _. split; [reflexivity|]. simpl. apply lookup_insert_eq.
  - rewrite (dispatch_reset_scratch _ _ _ _ _ _ _ Hadd Hrem Hsyms Hk).
    eexists _, _. split; [reflexivity|]. simpl. apply lookup_insert_eq.
Qed.

(** The scan depends on the string and hands the mode on: two loop
    states with the same [p0] and the same mode are scanned alike. *)
Lemma scan_clause_same st1 st2 :
  p0 st1 = p0 st2 → is_add st1 = is_add st2 → is_remove st1 = is_remove st2 →
  match scan_clause st1, scan_clause st2 with
  | ScanBreak _, ScanBreak _ => True
  | ScanError _ e1, ScanError _ e2 => e1 = e2
  | ScanTag st1' sc1, ScanTag st2' sc2 =>
      sc1 = sc2 ∧ p0 st1' = p0 st2' ∧ is_add st1' = is_add st2' ∧
      is_remove st1' = is_remove st2'
  | _, _ => False
  end.
Proof.
  destruct st1 as [p a r n1], st2 as [p' a' r' n2]. simpl. intros <- <- <-.
  unfold scan_clause. cbn [p0 is_add is_remove new_syms].
  destruct (at_nul _); [done|].
  destruct (Ascii.eqb _ "-"); [|destruct (Ascii.eqb _ "+")]; cbn [p0 is_add is_remove];
    (destruct (at_nul _); [done|]);
    (destruct (_ =? 0)%nat; [done|]);
    by destruct (parse_symbol_tag _ _).
Qed.

(** Two runs of the loop from the same place of the string, in the same
    mode, on scratch tables with the same keys, end alike. *)
Lemma parse_loop_same_keys fuel symbol_map1 symbol_map2 st1 st2 h1 h2 keys :
  (String.length (p0 st1) < fuel)%nat →
  p0 st1 = p0 st2 → is_add st1 = is_add st2 → is_remove st1 = is_remove st2 →
  scratch_keys st1 h1 = Some keys → scratch_keys st2 h2 = Some keys →
  ∃ st1' st2' e h1' h2' keys',
    parse_loop chafa_symbols fuel symbol_map1 st1 h1 = Done (st1', e) h1' ∧
    parse_loop chafa_symbols fuel symbol_map2 st2 h2 = Done (st2', e) h2' ∧
    scratch_keys st1' h1' = Some keys' ∧ scratch_keys st2' h2' = Some keys'.
Proof.
  revert st1 st2 h1 h2 keys.
  induction fuel as [|fuel IH]; intros st1 st2 h1 h2 keys Hlen Hp Ha Hr Hk1 Hk2; [lia|].
  rewrite !parse_loop_S. rewrite <- Hp.
  destruct (at_nul (p0 st1)).
  { by eexists _, _, _, _, _, _. }
  pose proof (scan_clause_same st1 st2 Hp Ha Hr) as Hscan.
  pose proof (scan_clause_new_syms st1) as Hn1.
  pose proof (scan_clause_new_syms st2) as Hn2.
  pose proof (scan_clause_shorter st1) as Hshort.
  destruct (scan_clause st1) as [st1'|st1' e1|st1' sc1],
           (scan_clause st2) as [st2'|st2' e2|st2' sc2]; try done.
  - eexists _, _, _, _, _, _. split_and!; try reflexivity.
    + by rewrite (scratch_keys_new_syms _ _ _ Hn1).
    + by rewrite (scratch_keys_new_syms _ _ _ Hn2).
  - subst e2. eexists _, _, _, _, _, _. split_and!; try reflexivity.
    + by rewrite (scratch_keys_new_syms _ _ _ Hn1).
    + by rewrite (scratch_keys_new_syms _ _ _ Hn2).
  - destruct Hscan as (<- & Hp' & Ha' & Hr'). specialize (Hshort _ _ eq_refl).
    rewrite <- (scratch_keys_new_syms _ _ h1 Hn1) in Hk1.
    rewrite <- (scratch_keys_new_syms _ _ h2 Hn2) in Hk2.
    destruct (dispatch_with_scratch symbol_map1 st1' sc1 h1 keys Hk1)
      as (syms1 & h1' & Hd1 & Hkeys1).
    destruct (dispatch_with_scratch symbol_map2 st2' sc1 h2 keys Hk2)
      as (syms2 & h2' & Hd2 & Hkeys2).
    rewrite (bind_done _ _ _ _ _ Hd1), (bind_done _ _ _ _ _ Hd2).
    rewrite <- Ha', <- Hr', <- Hp' in *.
    eapply IH; simpl; try done. lia.
Qed.

(** The whole loop, from its first turn, when the first clause carries
    no sign. *)
Lemma parse_loop_unsigned selectors symbol_map1 symbol_map2 h1 h2 :
  first_clause_signed selectors = false →
  ∃ st1 st2 e h1' h2',
    parse_loop chafa_symbols (S (String.length selectors)) symbol_map1
               (initial_state selectors) h1 = Done (st1, e) h1' ∧
    parse_loop chafa_symbols (S (String.length selectors)) symbol_map2
               (initial_state selectors) h2 = Done (st2, e) h2' ∧
    scratch_keys st1 h1' = scratch_keys st2 h2'.
Proof.
  intros Hunsigned. rewrite !parse_loop_S.
  destruct (at_nul _). { by eexists _, _, _, _, _. }
  unfold first_clause_signed in Hunsigned.
  pose proof (scan_clause_new_syms (initial_state selectors)) as Hnew.
  pose proof (scan_clause_shorter (initial_state selectors)) as Hshort.
  destruct (scan_clause _) as [st|st e|st sc].
  - eexists _, _, _, _, _. split_and!; try reflexivity.
    unfold scratch_keys. by rewrite Hnew.
  - eexists _, _, _, _, _. split_and!; try reflexivity.
    unfold scratch_keys. by rewrite Hnew.
  - specialize (Hshort _ _ eq_refl). apply orb_false_iff in Hunsigned as [Hadd Hrem].
    rewrite (bind_done _ _ _ _ _ (dispatch_reset_none _ symbol_map1 _ sc h1 Hadd Hrem Hnew)).
    rewrite (bind_done _ _ _ _ _ (dispatch_reset_none _ symbol_map2 _ sc h2 Hadd Hrem Hnew)).
    destruct (parse_loop_same_keys (String.length selectors) symbol_map1 symbol_map2
                (mkParseState (p0 st) true false (Some (fresh (dom (hash_tables h1)))))
                (mkParseState (p0 st) true false (Some (fresh (dom (hash_tables h2)))))
                (set_tables (<[fresh (dom (hash_tables h1)) :=
                                 entries_matching chafa_symbols sc]> (hash_tables h1)) h1)
                (set_tables (<[fresh (dom (hash_tables h2)) :=
                                 entries_matching chafa_symbols sc]> (hash_tables h2)) h2)
                (entries_matching chafa_symbols sc))
      as (st1' & st2' & e & h1' & h2' & keys' & Hl1 & Hl2 & Hk1 & Hk2);
      [simpl in *; lia|done|done|done
      |unfold scratch_keys; simpl; apply lookup_insert_eq
      |unfold scratch_keys; simpl; apply lookup_insert_eq|].
    eexists _, _, _, _, _. split_and!; [exact Hl1|exact Hl2|]. by rewrite Hk1, Hk2.
Qed.

(** X10: when the first clause of the string carries no sign, the map
    is cleared first: the selection that
    [chafa_symbol_map_apply_selectors] leaves depends on the string and
    on the catalog only, not on what the map selected before. On every
    live map the call returns, with the error that the string holds if
    it holds one, and otherwise with one and the same selection. *)
Theorem unsigned_first_clause_forgets_selection selectors :
  first_clause_signed selectors = false →
  ∃ keys,
    ∀ symbol_map h,
      0 < refs symbol_map →
      table_live symbol_map h →
      ∃ symbol_map' h',
        chafa_symbol_map_apply_selectors chafa_symbols symbol_map selectors h
        = Done (true, selectors_error selectors, symbol_map') h' ∧
        (selectors_error selectors = None →
         need_rebuild symbol_map' = true ∧ selection symbol_map' h' = keys).
Proof.
  intros Hunsigned.
  destruct (parse_loop_unsigned selectors chafa_symbol_map_new chafa_symbol_map_new
              empty_heap empty_heap Hunsigned) as (st0 & _ & e0 & h0 & _ & Hloop0 & _).
  exists (default ∅ (scratch_keys st0 h0)).
  intros symbol_map h Hrefs Hlive.
  unfold chafa_symbol_map_apply_selectors.
  replace (refs symbol_map >? 0) with true by (symmetry; apply Z.gtb_lt; lia).
  cbn [negb].
  destruct (parse_loop_unsigned selectors symbol_map chafa_symbol_map_new
              h empty_heap Hunsigned) as (st & st0' & e & h1 & h0' & Hloop & Hloop0' & Hkeys).
  rewrite Hloop0 in Hloop0'. injection Hloop0' as <- <- <-.
  pose proof (parse_loop_error _ _ _ _ _ _ _ _ Hloop) as He.
  change (error_from _ _) with (selectors_error selectors) in He. subst e0.
  destruct (selectors_error selectors) as [error|].
  - unfold parse_selectors.
    change (mkParseState selectors false false None) with (initial_state selectors).
    rewrite (bind_done _ _ _ _ _ Hloop).
    pose proof (parse_loop_scratch _ _ _ _ _ _ _ _ _ (scratch_of_initial _ _) Hloop)
      as Hs.
    rewrite (bind_done _ _ _ _ _ (unref_scratch _ _ _ Hs)).
    by eexists _, _.
  - destruct (parse_selectors_selection _ _ _ _ _ Hlive Hloop)
      as (symbol_map' & h' & Hrun & Hdirty & Hsel).
    exists symbol_map', h'. split; [done|]. intros _. by rewrite Hsel, Hkeys.
Qed.
End ParserEffect.

(** ** One signed clause, and the two calls by tags *)

Lemma no_clauses_no_letter rest : no_clauses rest = true → strspn rest letters = O.
Proof.
  destruct rest as [|ch rest]; [done|]. simpl. intros [Hch _]%andb_true_iff.
  by apply orb_true_iff in Hch as [->%Ascii.eqb_eq| ->%Ascii.eqb_eq].
Qed.

Section SignedClauseByTags.
Context {tv : TagValues}.
Variable chafa_symbols : list ChafaSymbol.

(** On what is left of a string with no further clause the loop ends,
    with no error and the scratch table as it is. *)
Lemma parse_loop_no_clauses fuel symbol_map st h :
  no_clauses (p0 st) = true →
  ∃ st', parse_loop chafa_symbols (S fuel) symbol_map st h = Done (st', None) h ∧
         new_syms st' = new_syms st.
Proof.
  intros Hno. rewrite parse_loop_S. destruct (at_nul (p0 st)); [by eexists|].
  unfold scan_clause. rewrite (no_clauses_advance _ Hno). by eexists.
Qed.

(** X11: a string made of one signed clause says what the two calls by
    tags do. For every name of the vocabulary, on a live map that has a
    table, applying ['+'] and the name, with nothing but separators
    after it, succeeds and leaves the selection that
    [chafa_symbol_map_add_by_tags] with the tag of that name leaves;
    applying ['-'] and the name leaves the selection that
    [chafa_symbol_map_remove_by_tags] leaves. *)
Theorem signed_clause_as_by_tags (sign : ascii) row rest symbol_map h :
  sign = "+"%char ∨ sign = "-"%char →
  row ∈ map →
  no_clauses rest = true →
  0 < refs symbol_map →
  is_Some (desired_symbols symbol_map) →
  table_live symbol_map h →
  ∃ symbol_map1 h1 symbol_map2 h2,
    chafa_symbol_map_apply_selectors chafa_symbols symbol_map
      (String sign (row.1 +:+ rest)) h = Done (true, None, symbol_map1) h1 ∧
    (if Ascii.eqb sign "+"
     then chafa_symbol_map_add_by_tags chafa_symbols symbol_map row.2
     else chafa_symbol_map_remove_by_tags chafa_symbols symbol_map row.2) h
    = Done symbol_map2 h2 ∧
    selection symbol_map1 h1 = selection symbol_map2 h2 ∧
    need_rebuild symbol_map1 = true ∧ need_rebuild symbol_map2 = true.
Proof.
  intros Hsign Hrow Hno Hrefs [ht Hht] Hlive.
  destruct (vocabulary_name row rest Hrow) as (Hname & Hlen & Htag).
  pose proof (scan_clause_signed sign row.1 rest (initial_state "") Hsign Hname Hlen
                (no_clauses_no_letter _ Hno)) as Hscan.
  cbn [initial_state is_add is_remove new_syms] in Hscan. rewrite Htag in Hscan.
  pose proof Hlive as Hlive'. unfold table_live in Hlive'. rewrite Hht in Hlive'.
  destruct Hlive' as [keys Hkeys].
  assert (selection symbol_map h = keys) as Hsel.
  { unfold selection. by rewrite Hht, Hkeys. }
  assert (∃ st,
    parse_loop chafa_symbols (S (String.length (String sign (row.1 +:+ rest))))
      symbol_map (initial_state (String sign (row.1 +:+ rest))) h
    = Done (st, None)
           (set_tables (<[fresh (dom (hash_tables h)) :=
                            clause_keys chafa_symbols (Ascii.eqb sign "+")
                              (Ascii.eqb sign "-") row.2 keys]> (hash_tables h)) h) ∧
    new_syms st = Some (fresh (dom (hash_tables h)))) as (st & Hloop & Hsyms).
  { rewrite parse_loop_S.
    assert (at_nul (p0 (initial_state (String sign (row.1 +:+ rest)))) = false) as ->
      by (by destruct Hsign as [-> | ->]).
    unfold initial_state at 1. rewrite Hscan.
    destruct Hsign as [-> | ->]; cbn [Ascii.eqb Bool.eqb andb clause_keys].
    - erewrite bind_done; [|by apply dispatch_add_copy with (ht := ht)].
      cbn [String.length]. by apply parse_loop_no_clauses.
    - erewrite bind_done; [|by apply dispatch_remove_copy with (ht := ht)].
      cbn [String.length]. by apply parse_loop_no_clauses. }
  destruct (parse_selectors_selection _ _ _ _ _ _ Hlive Hloop)
    as (symbol_map1 & h1 & Hrun & Hdirty & Hsel1).
  unfold chafa_symbol_map_apply_selectors.
  replace (refs symbol_map >? 0) with true by (symmetry; apply Z.gtb_lt; lia).
  cbn [negb]. exists symbol_map1, h1.
  unfold scratch_keys in Hsel1. rewrite Hsyms in Hsel1. simpl in Hsel1.
  rewrite lookup_insert_eq in Hsel1. simpl in Hsel1.
  destruct Hsign as [-> | ->]; cbn [Ascii.eqb Bool.eqb andb clause_keys] in *.
  - rewrite chafa_symbol_map_add_by_tags_live by done.
    eexists _, _. split_and!; try done.
    unfold selection at 2. simpl. rewrite lookup_insert_eq. simpl.
    by rewrite Hsel1, Hsel.
  - rewrite chafa_symbol_map_remove_by_tags_live by done.
    eexists _, _. split_and!; try done.
    unfold selection at 2. simpl. rewrite lookup_insert_eq. simpl.
    by rewrite Hsel1, Hsel.
Qed.
End SignedClauseByTags.

(** ** Characters that no selector string may hold *)

Lemma at_nul_chars p : at_nul p = true → selector_chars_only p = true.
Proof.
  destruct p as [|ch p]; [done|]. unfold at_nul. simpl. by intros ->.
Qed.

Lemma selector_chars_strspn accept p :
  (∀ ch, char_in ch accept = true → selector_char ch = true) →
  selector_chars_only (advance (strspn p accept) p) = true →
  selector_chars_only p = true.
Proof.
  intros Haccept. induction p as [|ch p IH]; [done|].
  cbn [strspn selector_chars_only].
  destruct (code ch =? 0) eqn:Hnul; [done|]. cbn [negb andb orb].
  destruct (char_in ch accept) eqn:Hch.
  - cbn [advance]. intros Hrest. by rewrite (Haccept _ Hch), IH.
  - cbn [advance selector_chars_only]. by rewrite Hnul.
Qed.

Lemma selector_chars_sign p :
  Ascii.eqb (deref p) "-" = true ∨ Ascii.eqb (deref p) "+" = true →
  selector_chars_only (advance 1 p) = true →
  selector_chars_only p = true.
Proof.
  destruct p as [|ch p]; [by intros [?|?]|]. cbn [deref advance selector_chars_only].
  intros [->%Ascii.eqb_eq| ->%Ascii.eqb_eq] ->; done.
Qed.

Lemma separators_are_selector_chars ch :
  char_in ch " ," = true → selector_char ch = true.
Proof.
  cbn [char_in]. intros H.
  repeat (apply orb_true_iff in H as [H|H]; [apply Ascii.eqb_eq in H as ->; done|]).
  done.
Qed.

Lemma space_is_selector_char ch : char_in ch " " = true → selector_char ch = true.
Proof.
  cbn [char_in]. intros H.
  repeat (apply orb_true_iff in H as [H|H]; [apply Ascii.eqb_eq in H as ->; done|]).
  done.
Qed.

Lemma letters_are_selector_chars ch :
  char_in ch letters = true → selector_char ch = true.
Proof. unfold selector_char. by intros ->. Qed.

Section ForeignCharacters.
Context {tv : TagValues}.
Variable chafa_symbols : list ChafaSymbol.

(** A string that the loop goes through without an error is made of
    letters, separators and signs. *)
Lemma error_from_none_chars fuel p :
  (String.length p < fuel)%nat →
  error_from fuel p = None →
  selector_chars_only p = true.
Proof.
  revert p. induction fuel as [|fuel IH]; intros p Hlen; [lia|].
  cbn [error_from]. destruct (at_nul p) eqn:Hnul; [intros _; by apply at_nul_chars|].
  pose proof (scan_clause_shorter (initial_state p)) as Hshort.
  unfold scan_clause in *. cbn [initial_state p0 is_add is_remove new_syms] in *.
  intros Herr.
  apply (selector_chars_strspn " ,"); [apply separators_are_selector_chars|].
  set (p1 := advance (strspn p " ,") p) in *.
  destruct (at_nul p1) eqn:Hnul1; [by apply at_nul_chars|].
  assert (∀ a r a' r' p2,
            (if Ascii.eqb (deref p1) "-"
             then mkParseState (advance 1 p1) a r None
             else if Ascii.eqb (deref p1) "+"
                  then mkParseState (advance 1 p1) a' r' None
                  else mkParseState p1 false false None) = p2 →
            selector_chars_only (p0 p2) = true → selector_chars_only p1 = true)
    as Hsign.
  { intros a r a' r' p2 <-.
    destruct (Ascii.eqb (deref p1) "-") eqn:Hminus;
      [|destruct (Ascii.eqb (deref p1) "+") eqn:Hplus]; cbn [p0];
      [apply selector_chars_sign; auto..|done]. }
  eapply Hsign; [reflexivity|].
  set (st1 := if Ascii.eqb (deref p1) "-" then _ else _) in *.
  apply (selector_chars_strspn " "); [apply space_is_selector_char|].
  set (p2 := advance (strspn (p0 st1) " ") (p0 st1)) in *.
  destruct (at_nul p2) eqn:Hnul2; [by apply at_nul_chars|].
  fold letters in Herr, Hshort.
  destruct (strspn p2 letters =? 0)%nat; [done|].
  destruct (parse_symbol_tag p2 (strspn p2 letters)) as [sc|error]; [|done].
  cbn [p0] in Herr. specialize (Hshort _ _ eq_refl). cbn [p0] in Hshort.
  apply (selector_chars_strspn letters); [apply letters_are_selector_chars|].
  apply IH; [|exact Herr]. eapply Nat.lt_le_trans; [exact Hshort|lia].
Qed.

(** X12: a selector string that holds, before its terminator, a
    character other than an ASCII letter, a space, a comma, ['+'] or
    ['-'] is never applied. On a live map whose first copy has a source
    the call returns with an error stored, and with the map and the
    heap as they were before the call. *)
Theorem foreign_character_rejected symbol_map selectors h :
  0 < refs symbol_map →
  copy_source_ok symbol_map selectors h →
  selector_chars_only selectors = false →
  ∃ error,
    selectors_error selectors = Some error ∧
    chafa_symbol_map_apply_selectors chafa_symbols symbol_map selectors h
    = Done (true, Some error, symbol_map) h.
Proof.
  intros Hrefs Hok Hchars.
  destruct (selectors_error selectors) as [error|] eqn:Herr; cycle 1.
  { unfold selectors_error in Herr. apply error_from_none_chars in Herr; [|lia].
    congruence. }
  exists error. split; [done|].
  unfold chafa_symbol_map_apply_selectors.
  replace (refs symbol_map >? 0) with true by (symmetry; apply Z.gtb_lt; lia).
  cbn [negb].
  destruct (parse_selectors_defined chafa_symbols _ _ _ Hok)
    as ([[result e] symbol_map'] & h' & Hrun).
  pose proof (parse_selectors_inv _ _ _ _ _ _ _ _ Hrun) as (-> & -> & Hcase).
  rewrite Herr in Hcase. destruct Hcase as [-> ->]. by rewrite Hrun, Herr.
Qed.
End ForeignCharacters.

(** ** The lookup reads the derived index only *)

Lemma add_by_tags_from_arrays syms i ht tags h u h' :
  add_by_tags_from syms i ht tags h = Done u h' → symbol_arrays h' = symbol_arrays h.
Proof.
  revert i h. induction syms as [|sym syms IH]; intros i h; simpl.
  { by intros [= _ <-]. }
  destruct (c sym =? 0); [by intros [= _ <-]|].
  intros Hrun. apply bind_inv in Hrun as ([] & h1 & Hadd & Hrun).
  apply IH in Hrun. rewrite Hrun.
  destruct (Z.land (sc sym) tags =? 0); [by injection Hadd as <-|].
  unfold g_hash_table_add, update_table in Hadd.
  destruct (hash_tables h !! ht); [|done]. by injection Hadd as <-.
Qed.

Lemma remove_by_tags_from_arrays syms i ht tags h u h' :
  remove_by_tags_from syms i ht tags h = Done u h' → symbol_arrays h' = symbol_arrays h.
Proof.
  revert i h. induction syms as [|sym syms IH]; intros i h; simpl.
  { by intros [= _ <-]. }
  destruct (c sym =? 0); [by intros [= _ <-]|].
  intros Hrun. apply bind_inv in Hrun as ([] & h1 & Hadd & Hrun).
  apply IH in Hrun. rewrite Hrun.
  destruct (Z.land (sc sym) tags =? 0); [by injection Hadd as <-|].
  unfold g_hash_table_remove, update_table in Hadd.
  destruct (hash_tables h !! ht); [|done]. by injection Hadd as <-.
Qed.

Lemma table_or_new_arrays (table : option pointer) h ht h' :
  match table with
  | Some ht => ret ht
  | None => g_hash_table_new
  end h = Done ht h' →
  symbol_arrays h' = symbol_arrays h.
Proof. destruct table; by intros [= _ <-]. Qed.

(** The loop of [chafa_symbol_map_has_symbol] depends on the arrays of
    the heap only. *)
Lemma has_symbol_from_arrays base i turns symbol h h' :
  symbol_arrays h = symbol_arrays h' →
  has_symbol_from base i turns symbol h'
  = match has_symbol_from base i turns symbol h with
    | Done found _ => Done found h'
    | Undefined => Undefined
    | OutOfFuel => OutOfFuel
    end.
Proof.
  intros Harrays. revert i. induction turns as [|turns IH]; intros i; [done|].
  cbn [has_symbol_from]. unfold bind, load. rewrite <- Harrays.
  destruct base as [q|]; [|done].
  destruct (symbol_arrays h !! q) as [slots|]; [|done].
  destruct (slots !! i) as [[sym|]|]; [|done|done].
  destruct (c sym =? symbol); [done|].
  destruct (c sym >? symbol); [done|]. apply IH.
Qed.

Section StaleIndex.
Context {tv : TagValues}.
Variable chafa_symbols : list ChafaSymbol.

Lemma parse_selectors_fields symbol_map selectors h result error symbol_map' h' :
  parse_selectors chafa_symbols symbol_map selectors h
  = Done (result, error, symbol_map') h' →
  symbols symbol_map' = symbols symbol_map ∧
  n_symbols symbol_map' = n_symbols symbol_map ∧
  refs symbol_map' = refs symbol_map.
Proof.
  unfold parse_selectors. intros Hrun.
  apply bind_inv in Hrun as ([st e] & h1 & _ & Hrun).
  destruct e as [e|]; apply bind_inv in Hrun as (? & ? & _ & Hrun);
    by injection Hrun as <- <- <- <-.
Qed.

(** The calls that change the selection leave the array of the map,
    its length and its contents as they were. *)
Lemma selection_call_keeps_index call symbol_map h symbol_map' h' :
  changes_selection call = true →
  run_call chafa_symbols call symbol_map h = Done symbol_map' h' →
  symbols symbol_map' = symbols symbol_map ∧
  n_symbols symbol_map' = n_symbols symbol_map ∧
  symbol_arrays h' = symbol_arrays h.
Proof.
  destruct call as [tags|tags|selectors|]; [..|done]; intros _; simpl.
  - unfold chafa_symbol_map_add_by_tags.
    destruct (negb (refs symbol_map >? 0)); [by intros [= <- <-]|].
    intros Hrun. apply bind_inv in Hrun as (ht & h1 & Hht & Hrun).
    apply bind_inv in Hrun as ([] & h2 & Hadd & Hrun).
    injection Hrun as <- <-. split_and!; try done.
    apply add_by_tags_from_arrays in Hadd. apply table_or_new_arrays in Hht.
    congruence.
  - unfold chafa_symbol_map_remove_by_tags.
    destruct (negb (refs symbol_map >? 0)); [by intros [= <- <-]|].
    intros Hrun. apply bind_inv in Hrun as (ht & h1 & Hht & Hrun).
    apply bind_inv in Hrun as ([] & h2 & Hremove & Hrun).
    injection Hrun as <- <-. split_and!; try done.
    apply remove_by_tags_from_arrays in Hremove. apply table_or_new_arrays in Hht.
    congruence.
  - intros Hrun. apply bind_inv in Hrun as ([[result e] m2] & h2 & Hrun & Hret).
    injection Hret as <- <-. unfold chafa_symbol_map_apply_selectors in Hrun.
    destruct (negb (refs symbol_map >? 0)); [by injection Hrun as <- <- <- <-|].
    pose proof (parse_selectors_fields _ _ _ _ _ _ _ Hrun) as (Hsyms & Hn & _).
    apply parse_selectors_inv in Hrun as (_ & _ & Hcase).
    split_and!; try done.
    destruct e; [by destruct Hcase as [_ ->] | by destruct Hcase as (_ & _ & _ & ?)].
Qed.

(** X13: [chafa_symbol_map_has_symbol] answers from the derived index
    alone. After [chafa_symbol_map_add_by_tags],
    [chafa_symbol_map_remove_by_tags] or
    [chafa_symbol_map_apply_selectors] it gives, for every codepoint,
    the answer it gave before the call, whatever the call did to the
    selection: the change shows only once [chafa_symbol_map_prepare]
    has run. *)
Theorem has_symbol_stale_until_prepare call symbol_map h symbol_map' h' symbol :
  changes_selection call = true →
  run_call chafa_symbols call symbol_map h = Done symbol_map' h' →
  chafa_symbol_map_has_symbol symbol_map' symbol h'
  = match chafa_symbol_map_has_symbol symbol_map symbol h with
    | Done found _ => Done found h'
    | Undefined => Undefined
    | OutOfFuel => OutOfFuel
    end.
Proof.
  intros Hcall Hrun.
  destruct (selection_call_keeps_index _ _ _ _ _ Hcall Hrun) as (Hsyms & Hn & Harrays).
  unfold chafa_symbol_map_has_symbol. rewrite Hsyms, Hn.
  by apply has_symbol_from_arrays.
Qed.
End StaleIndex.

(** X14: [chafa_symbol_map_copy_contents] gives the copy the
    [n_symbols] of the source and no array. When the source has a
    derived index that is not empty, [chafa_symbol_map_has_symbol] on
    the copy reads entry 0 of a NULL array, for every codepoint: the
    copy has to go through [chafa_symbol_map_prepare] before it is
    asked. *)
Theorem has_symbol_on_copy_undefined src h dest h1 symbol :
  (0 < n_symbols src)%nat →
  chafa_symbol_map_copy_contents src h = Done dest h1 →
  symbols dest = None ∧ n_symbols dest = n_symbols src ∧ need_rebuild dest = true ∧
  chafa_symbol_map_has_symbol dest symbol h1 = Undefined.
Proof.
  intros Hn Hrun. unfold chafa_symbol_map_copy_contents in Hrun.
  apply bind_inv in Hrun as (copied & h2 & _ & Hrun). injection Hrun as <- <-.
  split_and!; try done.
  unfold chafa_symbol_map_has_symbol. cbn [symbols n_symbols].
  destruct (n_symbols src); [lia|done].
Qed.

(** ** Reference counts *)

(** X15: a reference taken with [chafa_symbol_map_ref] and given back
    with [chafa_symbol_map_unref] leaves the map as it was, and the
    heap untouched: with a reference count that is positive and below
    [G_MAXINT], the first call raises the count by one and the second
    brings back the very same map, releasing nothing. *)
Theorem ref_unref_round_trip symbol_map h :
  0 < refs symbol_map →
  refs symbol_map < G_MAXINT →
  refs (chafa_symbol_map_ref symbol_map) = refs symbol_map + 1 ∧
  chafa_symbol_map_unref (chafa_symbol_map_ref symbol_map) h
  = Done (Some symbol_map) h.
Proof.
  unfold G_MAXINT. intros Hpos Hmax.
  assert (gint (refs symbol_map + 1) = refs symbol_map + 1) as Hup.
  { unfold gint. rewrite Z.mod_small; lia. }
  assert (gint (refs symbol_map + 1 - 1) = refs symbol_map) as Hdown.
  { unfold gint. rewrite Z.mod_small; lia. }
  unfold chafa_symbol_map_ref.
  replace (refs symbol_map >? 0) with true by (symmetry; apply Z.gtb_lt; lia).
  cbn [negb refs]. split; [done|].
  unfold chafa_symbol_map_unref. cbn [refs need_rebuild desired_symbols symbols n_symbols].
  rewrite Hup, Hdown.
  replace (refs symbol_map + 1 >? 0) with true by (symmetry; apply Z.gtb_lt; lia).
  cbn [negb].
  replace (refs symbol_map =? 0) with false by (symmetry; apply Z.eqb_neq; lia).
  by destruct symbol_map.
Qed.

(** ** Nothing is left behind *)

Lemma owns_new h : owns h chafa_symbol_map_new h.
Proof. by split. Qed.

(** The last [chafa_symbol_map_unref] of a map gives back the heap
    without the map's objects. *)
Lemma unref_owned h0 symbol_map h :
  refs symbol_map = 1 →
  owns h0 symbol_map h →
  table_live symbol_map h → array_live symbol_map h →
  chafa_symbol_map_unref symbol_map h = Done None h0.
Proof.
  intros Hrefs [Htable Harray] Hlive_table Hlive_array.
  unfold chafa_symbol_map_unref. rewrite Hrefs. cbn [Z.gtb Z.compare negb].
  change (gint (1 - 1)) with 0. cbn [refs Z.eqb].
  unfold chafa_symbol_map_deinit. cbn [desired_symbols symbols].
  unfold table_live, array_live in *.
  assert (∃ h1,
            match desired_symbols symbol_map with
            | Some ht => g_hash_table_unref ht
            | None => ret tt
            end h = Done tt h1 ∧
            hash_tables h1 = hash_tables h0 ∧ symbol_arrays h1 = symbol_arrays h)
    as (h1 & Hunref & Htables & Harrays).
  { destruct (desired_symbols symbol_map) as [ht|].
    - destruct Hlive_table as [keys Hkeys]. destruct Htable as [_ Hdel].
      unfold g_hash_table_unref. rewrite Hkeys. by eexists.
    - by eexists. }
  unfold bind. rewrite Hunref. unfold g_free. rewrite Harrays.
  destruct (symbols symbol_map) as [base|].
  - destruct Hlive_array as [slots ->]. destruct Harray as [_ Hdel].
    unfold ret, set_arrays. rewrite Htables, Hdel. by destruct h0.
  - unfold ret. rewrite <- Harrays in Harray.
    destruct h1, h0; simpl in *. congruence.
Qed.

Section Lifecycle.
Context {tv : TagValues}.
Variable chafa_symbols : list ChafaSymbol.

Lemma owns_update_selection h0 symbol_map h keys :
  owns h0 symbol_map h →
  owns h0 {| refs := refs symbol_map;
             need_rebuild := true;
             desired_symbols := Some (table_for symbol_map h);
             symbols := symbols symbol_map;
             n_symbols := n_symbols symbol_map |}
       (set_tables (<[table_for symbol_map h := keys]> (hash_tables h)) h).
Proof.
  intros [Htable Harray]. split; [|done]. cbn [desired_symbols hash_tables set_tables].
  unfold table_for. destruct (desired_symbols symbol_map) as [ht|].
  - destruct Htable as [Hdead Hdel]. split; [done|]. by rewrite delete_insert_eq.
  - rewrite <- Htable. split; [apply fresh_table_dead|].
    apply delete_insert_id, fresh_table_dead.
Qed.

(** A call keeps the heap as it was at the creation of the map, plus
    the map's own table and array. *)
Lemma run_call_owns call h0 symbol_map h symbol_map' h' :
  map_inv chafa_symbols symbol_map h →
  owns h0 symbol_map h →
  run_call chafa_symbols call symbol_map h = Done symbol_map' h' →
  owns h0 symbol_map' h' ∧ refs symbol_map' = refs symbol_map.
Proof.
  intros Hinv Howns. pose proof Hinv as [Hlive_table Hlive_array Hvalid _].
  destruct call as [tags|tags|selectors|]; simpl.
  - destruct (decide (0 < refs symbol_map)) as [Hrefs|Hrefs].
    + rewrite chafa_symbol_map_add_by_tags_live by done. intros [= <- <-].
      split; [by apply owns_update_selection | done].
    + unfold chafa_symbol_map_add_by_tags.
      replace (refs symbol_map >? 0) with false
        by (symmetry; rewrite Z.gtb_ltb; apply Z.ltb_ge; lia).
      by intros [= <- <-].
  - destruct (decide (0 < refs symbol_map)) as [Hrefs|Hrefs].
    + rewrite chafa_symbol_map_remove_by_tags_live by done. intros [= <- <-].
      split; [by apply owns_update_selection | done].
    + unfold chafa_symbol_map_remove_by_tags.
      replace (refs symbol_map >? 0) with false
        by (symmetry; rewrite Z.gtb_ltb; apply Z.ltb_ge; lia).
      by intros [= <- <-].
  - intros Hrun. apply bind_inv in Hrun as ([[result e] m2] & h2 & Hrun & Hret).
    injection Hret as <- <-. unfold chafa_symbol_map_apply_selectors in Hrun.
    destruct (negb (refs symbol_map >? 0)); [by injection Hrun as <- <- <- <-|].
    pose proof (parse_selectors_fields _ _ _ _ _ _ _ _ Hrun) as (_ & _ & Hrefs).
    split; [|done].
    destruct e as [e|].
    { apply parse_selectors_inv in Hrun as (_ & _ & -> & ->). done. }
    destruct (parse_selectors_loop _ _ _ _ _ _ _ _ Hrun) as (st & h1 & Hloop & Hs).
    rewrite (parse_selectors_applied _ _ _ _ _ _ Hlive_table Hloop) in Hrun.
    injection Hrun as <- <- <-. clear Hloop.
    destruct Howns as [Htable Harray]. unfold scratch_of, table_live in *.
    assert (symbol_arrays h1 = symbol_arrays h) as Harrays.
    { destruct (new_syms st); [|by subst]. by destruct Hs as (_ & keys & ->). }
    split; [|cbn [symbols set_tables symbol_arrays]; by rewrite Harrays].
    cbn [desired_symbols hash_tables set_tables].
    destruct (new_syms st) as [syms|].
    + destruct Hs as (Hdead & keys & ->). cbn [hash_tables set_tables].
      destruct (desired_symbols symbol_map) as [old|].
      * destruct Hlive_table as [old_keys Hold]. destruct Htable as [Hdead0 Hdel].
        assert (old ≠ syms) as Hne by congruence.
        split.
        -- by rewrite <- Hdel, lookup_delete_ne.
        -- by rewrite delete_delete, delete_insert_id.
      * rewrite <- Htable. split; [done|]. by apply delete_insert_id.
    + subst h1. destruct (desired_symbols symbol_map) as [old|]; [|done].
      by destruct Htable.
  - unfold chafa_symbol_map_prepare.
    destruct (need_rebuild symbol_map); cbn [negb]; [|by intros [= <- <-]].
    rewrite rebuild_symbols_live; [|done..|]; cycle 1.
    { intros i Hi. by apply chafa_symbols_at_valid, Hvalid. }
    intros [= <- <-]. split; [|done].
    destruct Howns as [Htable Harray]. split; [done|].
    cbn [symbols symbol_arrays set_arrays].
    assert (arrays_without symbol_map h = symbol_arrays h0) as ->.
    { unfold arrays_without. destruct (symbols symbol_map); [by destruct Harray|done]. }
    pose proof (fresh_array_dead h0) as Hfresh.
    split; [done|]. by apply delete_insert_id.
Qed.

Lemma run_calls_owns calls h0 symbol_map h symbol_map' h' :
  map_inv chafa_symbols symbol_map h →
  owns h0 symbol_map h →
  run_calls chafa_symbols calls symbol_map h = Done symbol_map' h' →
  map_inv chafa_symbols symbol_map' h' ∧ owns h0 symbol_map' h' ∧
  refs symbol_map' = refs symbol_map.
Proof.
  revert symbol_map h. induction calls as [|call calls IH]; intros symbol_map h Hinv Howns.
  { by intros [= <- <-]. }
  simpl. intros Hrun. apply bind_inv in Hrun as (m1 & h1 & Hcall & Hrun).
  destruct (run_call_owns _ _ _ _ _ _ Hinv Howns Hcall) as [Howns1 Hrefs1].
  apply run_call_inv in Hcall as [Hinv1 _]; [|done].
  destruct (IH _ _ Hinv1 Howns1 Hrun) as (? & ? & ?). split_and!; try done. congruence.
Qed.

(** X16: no sequence of calls leaves anything behind. Whatever calls of
    [chafa_symbol_map_add_by_tags], [chafa_symbol_map_remove_by_tags],
    [chafa_symbol_map_apply_selectors] and [chafa_symbol_map_prepare]
    are made, one after the other, on a map that
    [chafa_symbol_map_new] made, if they all return then the map still
    holds one reference, and [chafa_symbol_map_unref] releases the map
    and gives back exactly the heap in which the map was made: every
    table and every array allocated on the way has been released, each
    of them once, errors of the parser included. *)
Theorem new_calls_unref_restores_heap calls h symbol_map h' :
  run_calls chafa_symbols calls chafa_symbol_map_new h = Done symbol_map h' →
  refs symbol_map = 1 ∧
  chafa_symbol_map_unref symbol_map h' = Done None h.
Proof.
  intros Hrun.
  destruct (run_calls_owns _ _ _ _ _ _ (init_inv chafa_symbols h) (owns_new h) Hrun)
    as ([Hlive_table Hlive_array _ _] & Howns & Hrefs).
  split; [done|]. by apply unref_owned.
Qed.

(** X17: a copy is released without harm to its source. After
    [chafa_symbol_map_copy_contents] from a map that satisfies the
    invariant of this file's maps, and any calls on the copy that
    return, the last [chafa_symbol_map_unref] of the copy gives back
    exactly the heap as it was before the copy was made: the table and
    the array of the source are still there, with their contents. *)
Theorem copy_calls_unref_restores_heap src h dest h1 calls dest' h2 :
  map_inv chafa_symbols src h →
  chafa_symbol_map_copy_contents src h = Done dest h1 →
  run_calls chafa_symbols calls dest h1 = Done dest' h2 →
  chafa_symbol_map_unref dest' h2 = Done None h.
Proof.
  intros Hinv Hcopy Hrun.
  destruct (copy_contents_separate chafa_symbols _ _ _ _ Hinv Hcopy)
    as (Hdest & _).
  assert (owns h dest h1 ∧ refs dest = 1) as [Howns Hrefs].
  { rewrite chafa_symbol_map_copy_contents_live in Hcopy by apply Hinv.
    injection Hcopy as <- <-. split; [|done].
    pose proof (fresh_table_dead h) as Hfresh.
    split; cbn [desired_symbols symbols].
    - destruct (desired_symbols src); [|done]. simpl.
      split; [done|]. by apply delete_insert_id.
    - by destruct (desired_symbols src). }
  destruct (run_calls_owns _ _ _ _ _ _ Hdest Howns Hrun)
    as ([Hlive_table Hlive_array _ _] & Howns' & Hrefs').
  apply unref_owned; try done. congruence.
Qed.
End Lifecycle.

(** X18: [chafa_symbol_map_deinit] releases the table and the array of
    a map and leaves the pointers to them in the map. On a live map
    that has a table or an array the first call returns, and a second
    call on the same map releases a released object again, which is
    undefined: the map has to go through [chafa_symbol_map_init]
    before it is used again. *)
Theorem deinit_twice_undefined symbol_map h :
  table_live symbol_map h →
  array_live symbol_map h →
  is_Some (desired_symbols symbol_map) ∨ is_Some (symbols symbol_map) →
  ∃ h',
    chafa_symbol_map_deinit symbol_map h = Done tt h' ∧
    (∀ p, desired_symbols symbol_map = Some p → hash_tables h' !! p = None) ∧
    (∀ q, symbols symbol_map = Some q → symbol_arrays h' !! q = None) ∧
    chafa_symbol_map_deinit symbol_map h' = Undefined.
Proof.
  unfold table_live, array_live, chafa_symbol_map_deinit, bind.
  intros Htable Harray Hsome.
  destruct (desired_symbols symbol_map) as [ht|], (symbols symbol_map) as [base|].
  - destruct Htable as [keys Hkeys], Harray as [slots Hslots].
    unfold g_hash_table_unref, g_free. rewrite Hkeys. simpl. rewrite Hslots.
    eexists. split; [reflexivity|]. simpl. rewrite lookup_delete_eq.
    split_and!; try done.
    + by intros p [= <-]; apply lookup_delete_eq.
    + by intros q [= <-]; apply lookup_delete_eq.
  - destruct Htable as [keys Hkeys].
    unfold g_hash_table_unref, g_free. rewrite Hkeys. simpl.
    eexists. split; [reflexivity|]. simpl. rewrite lookup_delete_eq.
    split_and!; try done. by intros p [= <-]; apply lookup_delete_eq.
  - destruct Harray as [slots Hslots].
    unfold g_free, ret. rewrite Hslots.
    eexists. split; [reflexivity|]. simpl. rewrite lookup_delete_eq.
    split_and!; try done. by intros q [= <-]; apply lookup_delete_eq.
  - by destruct Hsome as [[? ?]|[? ?]].
Qed.

(** ** The invariant of the maps *)

Section Invariant.
Context {tv : TagValues}.
Variable chafa_symbols : list ChafaSymbol.

(** X19: the invariant of this file's maps is set up by
    [chafa_symbol_map_new] and kept by every function that changes a
    map. In any heap a new map satisfies it; so does a map after any
    sequence of calls of [chafa_symbol_map_add_by_tags],
    [chafa_symbol_map_remove_by_tags],
    [chafa_symbol_map_apply_selectors] and [chafa_symbol_map_prepare]
    that return, if it did before; and so do both maps after
    [chafa_symbol_map_copy_contents]. Hence on every map made in this
    way the table and the array are live, the selection holds indices
    of catalog entries with a codepoint other than 0, and a clear
    [need_rebuild] flag comes with the derived index of the selection
    or with a map that was never changed. *)
Theorem public_functions_keep_invariant :
  (∀ h, map_inv chafa_symbols chafa_symbol_map_new h) ∧
  (∀ calls symbol_map h symbol_map' h',
     map_inv chafa_symbols symbol_map h →
     run_calls chafa_symbols calls symbol_map h = Done symbol_map' h' →
     map_inv chafa_symbols symbol_map' h') ∧
  (∀ src h dest h1,
     map_inv chafa_symbols src h →
     chafa_symbol_map_copy_contents src h = Done dest h1 →
     map_inv chafa_symbols dest h1 ∧ map_inv chafa_symbols src h1) ∧
  (∀ symbol_map h i,
     map_inv chafa_symbols symbol_map h →
     i ∈ selection symbol_map h →
     ∃ sym, chafa_symbols !! i = Some sym ∧ c sym ≠ 0).
Proof.
  split_and!.
  - apply init_inv.
  - intros calls. induction calls as [|call calls IH]; intros m h m' h' Hinv; simpl.
    { by intros [= <- <-]. }
    intros Hrun. apply bind_inv in Hrun as (m1 & h1 & Hcall & Hrun).
    apply run_call_inv in Hcall as [Hinv1 _]; [|done]. by eapply IH.
  - intros src h dest h1 Hinv Hcopy.
    by destruct (copy_contents_separate chafa_symbols _ _ _ _ Hinv Hcopy) as (? & ? & _).
  - intros m h i [_ _ Hvalid _] Hi. specialize (Hvalid i Hi).
    clear Hi. unfold catalog_size in Hvalid. revert i Hvalid.
    induction chafa_symbols as [|sym syms IH]; intros i Hi; simpl in *; [lia|].
    destruct (c sym =? 0) eqn:Hc; [lia|]. apply Z.eqb_neq in Hc.
    destruct i as [|i]; [by exists sym|]. apply IH. lia.
Qed.
End Invariant.

(** ** The return value *)

Section ReturnValue.
Context {tv : TagValues}.
Variable chafa_symbols : list ChafaSymbol.

(** X20: [chafa_symbol_map_apply_selectors], called on a pointer that
    is NULL or the address of a map, returns FALSE exactly when the
    pointer is NULL or the reference count of the map is not positive,
    the two cases of its [g_return_val_if_fail]; and then it has stored
    no error and changed nothing. Whenever the parser runs, the value
    returned is TRUE, with or without a parse error: the variable
    [result] of [parse_selectors] starts as TRUE and is assigned
    nothing else. *)
Theorem apply_selectors_false_only_without_reference
    symbol_map selectors h result error symbol_map' h' :
  chafa_symbol_map_apply_selectors_at chafa_symbols symbol_map selectors h
  = Done (result, error, symbol_map') h' →
  (result = false ↔
   symbol_map = None ∨ ∃ map_at, symbol_map = Some map_at ∧ refs map_at ≤ 0) ∧
  (result = false → error = None ∧ symbol_map' = symbol_map ∧ h' = h).
Proof.
  unfold chafa_symbol_map_apply_selectors_at.
  destruct symbol_map as [map_at|]; cycle 1.
  { intros [= <- <- <- <-]. split; [|done]. split; [by left|done]. }
  intros Hrun. apply bind_inv in Hrun as ([[r e] m] & h1 & Hcall & Hret).
  injection Hret as <- <- <- <-. cbn [fst snd].
  unfold chafa_symbol_map_apply_selectors in Hcall.
  destruct (Z.gtb_spec (refs map_at) 0) as [Hpos|Hneg]; cbn [negb] in Hcall.
  - apply parse_selectors_inv in Hcall as (-> & _). split; [|done].
    split; [done|]. intros [?|(? & [= <-] & ?)]; [done|lia].
  - injection Hcall as <- <- <- <-. split; [|done].
    split; [|done]. intros _. right. by exists map_at.
Qed.
End ReturnValue.

(** ** Selector strings in upper and lower case *)

Lemma tolower_nul ch : (code (g_ascii_tolower ch) =? 0) = (code ch =? 0).
Proof. by destruct ch as [[] [] [] [] [] [] [] []]. Qed.

Lemma tolower_idemp ch : g_ascii_tolower (g_ascii_tolower ch) = g_ascii_tolower ch.
Proof. by destruct ch as [[] [] [] [] [] [] [] []]. Qed.

Lemma tolower_separator ch : char_in (g_ascii_tolower ch) " ," = char_in ch " ,".
Proof. by destruct ch as [[] [] [] [] [] [] [] []]. Qed.

Lemma tolower_space ch : char_in (g_ascii_tolower ch) " " = char_in ch " ".
Proof. by destruct ch as [[] [] [] [] [] [] [] []]. Qed.

Lemma tolower_letter ch : char_in (g_ascii_tolower ch) letters = char_in ch letters.
Proof. by destruct ch as [[] [] [] [] [] [] [] []]. Qed.

Lemma tolower_minus ch : Ascii.eqb (g_ascii_tolower ch) "-" = Ascii.eqb ch "-".
Proof. by destruct ch as [[] [] [] [] [] [] [] []]. Qed.

Lemma tolower_plus ch : Ascii.eqb (g_ascii_tolower ch) "+" = Ascii.eqb ch "+".
Proof. by destruct ch as [[] [] [] [] [] [] [] []]. Qed.

Lemma length_lower_case p : String.length (lower_case p) = String.length p.
Proof. induction p as [|ch p IH]; simpl; congruence. Qed.

Lemma strspn_lower_case accept p :
  (∀ ch, char_in (g_ascii_tolower ch) accept = char_in ch accept) →
  strspn (lower_case p) accept = strspn p accept.
Proof.
  intros Haccept. induction p as [|ch p IH]; [done|]. simpl.
  rewrite tolower_nul, Haccept, IH. done.
Qed.

Lemma advance_lower_case n p : advance n (lower_case p) = lower_case (advance n p).
Proof. revert p. induction n as [|n IH]; intros [|ch p]; simpl; auto. Qed.

Lemma deref_lower_case p : deref (lower_case p) = g_ascii_tolower (deref p).
Proof. by destruct p. Qed.

Lemma at_nul_lower_case p : at_nul (lower_case p) = at_nul p.
Proof. unfold at_nul. rewrite deref_lower_case. apply tolower_nul. Qed.

Lemma lower_slice_lower_case n p : lower_slice n (lower_case p) = lower_slice n p.
Proof.
  revert p. induction n as [|n IH]; intros [|ch p]; simpl; try done.
  by rewrite tolower_nul, tolower_idemp, IH.
Qed.

Section LowerCase.
Context {tv : TagValues}.
Variable chafa_symbols : list ChafaSymbol.

(** The scan of a string in lower case goes as the scan of the string;
    the messages of the errors differ, as they quote the string. *)
Lemma scan_clause_lowered st :
  match scan_clause st, scan_clause (lowered st) with
  | ScanBreak st1, ScanBreak st2 => st2 = lowered st1
  | ScanError st1 _, ScanError st2 _ => st2 = lowered st1
  | ScanTag st1 sc1, ScanTag st2 sc2 => st2 = lowered st1 ∧ sc2 = sc1
  | _, _ => False
  end.
Proof.
  unfold scan_clause, lowered. cbn [p0 is_add is_remove new_syms].
  rewrite (strspn_lower_case " ,") by apply tolower_separator.
  rewrite advance_lower_case, at_nul_lower_case.
  set (p1 := advance (strspn (p0 st) " ,") (p0 st)).
  destruct (at_nul p1); [done|].
  rewrite deref_lower_case, tolower_minus, tolower_plus.
  fold letters.
  assert (∀ p a r,
    match
      (let p' := advance (strspn p " ") p in
       if at_nul p' then ScanBreak (mkParseState p' a r (new_syms st))
       else if (strspn p' letters =? 0)%nat
            then ScanError (mkParseState p' a r (new_syms st))
                   (G_OPTION_ERROR_BAD_VALUE "Syntax error in symbol tag selectors.")
            else match parse_symbol_tag p' (strspn p' letters) with
                 | inr error => ScanError (mkParseState p' a r (new_syms st)) error
                 | inl sc =>
                     ScanTag (mkParseState (advance (strspn p' letters) p') a r
                                           (new_syms st)) sc
                 end),
      (let p' := advance (strspn (lower_case p) " ") (lower_case p) in
       if at_nul p' then ScanBreak (mkParseState p' a r (new_syms st))
       else if (strspn p' letters =? 0)%nat
            then ScanError (mkParseState p' a r (new_syms st))
                   (G_OPTION_ERROR_BAD_VALUE "Syntax error in symbol tag selectors.")
            else match parse_symbol_tag p' (strspn p' letters) with
                 | inr error => ScanError (mkParseState p' a r (new_syms st)) error
                 | inl sc =>
                     ScanTag (mkParseState (advance (strspn p' letters) p') a r
                                           (new_syms st)) sc
                 end)
    with
    | ScanBreak st1, ScanBreak st2 =>
        st2 = mkParseState (lower_case (p0 st1)) (is_add st1) (is_remove st1) (new_syms st1)
    | ScanError st1 _, ScanError st2 _ =>
        st2 = mkParseState (lower_case (p0 st1)) (is_add st1) (is_remove st1) (new_syms st1)
    | ScanTag st1 sc1, ScanTag st2 sc2 =>
        st2 = mkParseState (lower_case (p0 st1)) (is_add st1) (is_remove st1) (new_syms st1)
        ∧ sc2 = sc1
    | _, _ => False
    end) as Hrest.
  { intros p a r. cbv zeta.
    rewrite (strspn_lower_case " ") by apply tolower_space.
    rewrite advance_lower_case, at_nul_lower_case.
    set (p2 := advance (strspn p " ") p).
    destruct (at_nul p2); [done|].
    rewrite (strspn_lower_case letters) by apply tolower_letter.
    destruct (strspn p2 letters =? 0)%nat; [done|].
    unfold parse_symbol_tag.
    rewrite (parse_symbol_tag_from_lower map (lower_case p2) p2 (strspn p2 letters))
      by apply lower_slice_lower_case.
    destruct (parse_symbol_tag_from map p2 (strspn p2 letters)); [|done].
    by rewrite advance_lower_case. }
  destruct (Ascii.eqb (deref p1) "-"); [|destruct (Ascii.eqb (deref p1) "+")];
    cbn [p0 is_add is_remove new_syms]; rewrite ?(advance_lower_case 1); apply Hrest.
Qed.

(** [dispatch] hands [p0] on and does not read it. *)
Lemma dispatch_lowered symbol_map st sc h :
  dispatch chafa_symbols symbol_map (lowered st) sc h
  = match dispatch chafa_symbols symbol_map st sc h with
    | Done (Next st') h' => Done (Next (lowered st')) h'
    | other => other
    end.
Proof.
  unfold dispatch, lowered. cbn [p0 is_add is_remove new_syms].
  destruct (is_add st); [|destruct (is_remove st)];
    destruct (new_syms st) as [syms|]; unfold bind, ret;
    repeat match goal with
           | |- context [copy_hash_table ?src ?h0] =>
               destruct (copy_hash_table src h0) as [? ?| |]; try done
           | |- context [g_hash_table_unref ?ht ?h0] =>
               destruct (g_hash_table_unref ht h0) as [? ?| |]; try done
           | |- context [g_hash_table_new ?h0] =>
               destruct (g_hash_table_new h0) as [? ?| |]; try done
           | |- context [add_by_tags ?cs ?ht ?tags ?h0] =>
               destruct (add_by_tags cs ht tags h0) as [? ?| |]; try done
           | |- context [remove_by_tags ?cs ?ht ?tags ?h0] =>
               destruct (remove_by_tags cs ht tags h0) as [? ?| |]; try done
           end.
Qed.

(** The loop on a string in lower case goes as the loop on the string:
    same heap, same scratch table, an error in the one when there is an
    error in the other. *)
Lemma parse_loop_lowered fuel symbol_map st h :
  match parse_loop chafa_symbols fuel symbol_map st h,
        parse_loop chafa_symbols fuel symbol_map (lowered st) h with
  | Done (st1, e1) h1, Done (st2, e2) h2 =>
      h2 = h1 ∧ st2 = lowered st1 ∧ (e1 = None ↔ e2 = None)
  | Undefined, Undefined => True
  | OutOfFuel, OutOfFuel => True
  | _, _ => False
  end.
Proof.
  revert st h. induction fuel as [|fuel IH]; intros st h; [done|].
  rewrite !parse_loop_S.
  change (p0 (lowered st)) with (lower_case (p0 st)). rewrite at_nul_lower_case.
  destruct (at_nul (p0 st)); [done|].
  pose proof (scan_clause_lowered st) as Hscan.
  destruct (scan_clause st) as [st1|st1 e1|st1 sc1],
           (scan_clause (lowered st)) as [st2|st2 e2|st2 sc2]; try done.
  destruct Hscan as [-> ->]. unfold bind. rewrite dispatch_lowered.
  destruct (dispatch chafa_symbols symbol_map st1 sc1 h) as [flow h'| |] eqn:Hd;
    try done.
  apply dispatch_flow in Hd as (st' & -> & _). apply IH.
Qed.

Lemma error_from_lower_case fuel p :
  error_from fuel (lower_case p) = None ↔ error_from fuel p = None.
Proof.
  revert p. induction fuel as [|fuel IH]; intros p; [done|].
  cbn [error_from]. rewrite at_nul_lower_case. destruct (at_nul p); [done|].
  pose proof (scan_clause_lowered (initial_state p)) as Hscan.
  change (lowered (initial_state p)) with (initial_state (lower_case p)) in Hscan.
  destruct (scan_clause (initial_state p)) as [st1|st1 e1|st1 sc1],
           (scan_clause (initial_state (lower_case p))) as [st2|st2 e2|st2 sc2];
    try done.
  destruct Hscan as [-> _]. apply IH.
Qed.

(** X21: selector strings are read without regard to the case of their
    ASCII letters. A string holds a parse error exactly when its
    lower-case form holds one, and when it holds none,
    [chafa_symbol_map_apply_selectors] does with the string what it
    does with its lower-case form, on every map and in every heap: the
    same outcome, the same map and the same heap. *)
Theorem apply_selectors_ignores_case selectors :
  (selectors_error (lower_case selectors) = None ↔ selectors_error selectors = None) ∧
  (selectors_error selectors = None →
   ∀ symbol_map h,
     chafa_symbol_map_apply_selectors chafa_symbols symbol_map (lower_case selectors) h
     = chafa_symbol_map_apply_selectors chafa_symbols symbol_map selectors h).
Proof.
  split.
  { unfold selectors_error. rewrite length_lower_case. apply error_from_lower_case. }
  intros Hnone symbol_map h. unfold chafa_symbol_map_apply_selectors.
  destruct (negb (refs symbol_map >? 0)); [done|].
  unfold parse_selectors. rewrite length_lower_case.
  change (mkParseState (lower_case selectors) false false None)
    with (lowered (initial_state selectors)).
  change (mkParseState selectors false false None) with (initial_state selectors).
  pose proof (parse_loop_lowered (S (String.length selectors)) symbol_map
                (initial_state selectors) h) as Hloop.
  unfold bind.
  destruct (parse_loop _ _ _ (initial_state selectors) h) as [[st1 e1] h1| |] eqn:Hrun,
           (parse_loop _ _ _ (lowered (initial_state selectors)) h) as [[st2 e2] h2| |];
    try done.
  destruct Hloop as (-> & -> & He).
  apply parse_loop_error in Hrun. cbn [p0 initial_state] in Hrun.
  change (error_from _ _) with (selectors_error selectors) in Hrun.
  rewrite Hnone in Hrun. subst e1.
  destruct He as [He _]. rewrite (He eq_refl). done.
Qed.
End LowerCase.

(** ** From a selector string to the lookup *)

Lemma scan_clause_unsigned {tv : TagValues} name rest st :
  strspn name letters = String.length name →
  (0 < String.length name)%nat →
  strspn rest letters = O →
  scan_clause (mkParseState (name +:+ rest) (is_add st) (is_remove st) (new_syms st))
  = match parse_symbol_tag (name +:+ rest) (String.length name) with
    | inl sc => ScanTag (mkParseState rest (is_add st) (is_remove st) (new_syms st)) sc
    | inr error =>
        ScanError (mkParseState (name +:+ rest) (is_add st) (is_remove st)
                                (new_syms st)) error
    end.
Proof.
  intros Hname Hlen Hrest.
  destruct name as [|ch name]; [simpl in Hlen; lia|].
  assert (char_in ch letters = true ∧ code ch ≠ 0) as [Hch Hnul].
  { cbn [strspn] in Hname. destruct (Z.eqb_spec (code ch) 0); [done|].
    by destruct (char_in ch letters). }
  destruct (letter_not_separator ch Hch) as (_ & Hsp & Hsep & Hplus & Hminus).
  pose proof (strspn_app (String ch name) rest letters Hname) as Hn.
  rewrite Hrest, Nat.add_0_r in Hn.
  pose proof (advance_app (String ch name) rest) as Hadv.
  unfold scan_clause. cbn [p0 is_add is_remove new_syms].
  assert (strspn (String ch name +:+ rest) " ," = O) as ->.
  { change (String ch name +:+ rest) with (String ch (name +:+ rest)).
    cbn [strspn]. rewrite Hsep. by rewrite andb_false_r. }
  cbn [advance].
  assert (strspn (String ch name +:+ rest) " " = O) as Hspace.
  { change (String ch name +:+ rest) with (String ch (name +:+ rest)).
    cbn [strspn]. rewrite Hsp. by rewrite andb_false_r. }
  assert (at_nul (String ch name +:+ rest) = false) as Hat.
  { change (String ch name +:+ rest) with (String ch (name +:+ rest)).
    unfold at_nul. cbn [deref]. by apply Z.eqb_neq. }
  assert (deref (String ch name +:+ rest) = ch) as -> by done.
  rewrite Hat, Hminus, Hplus. cbn [p0 is_add is_remove new_syms].
  rewrite Hspace. cbn [advance]. rewrite Hat. fold letters. rewrite Hn, Hadv.
  by destruct (parse_symbol_tag _ _).
Qed.

Section SelectorToLookup.
Context {tv : TagValues}.
Variable chafa_symbols : list ChafaSymbol.

(** The lookup on a map whose [need_rebuild] is FALSE. *)
Lemma has_symbol_clean symbol_map h symbol :
  map_inv chafa_symbols symbol_map h →
  need_rebuild symbol_map = false →
  ∃ found,
    chafa_symbol_map_has_symbol symbol_map symbol h = Done found h ∧
    (found = true ↔
     ∃ i sym, i ∈ selection symbol_map h ∧ chafa_symbols !! i = Some sym ∧
              c sym = symbol).
Proof.
  intros [_ _ Hvalid Hindex] Hclean.
  destruct (Hindex Hclean) as [(Hnull & Hnone & Hn)|(body & Hidx & Hn & Harr)].
  - exists false. unfold chafa_symbol_map_has_symbol. rewrite Hn. split; [done|].
    split; [done|]. intros (i & _ & Hi & _).
    unfold selection in Hi. rewrite Hnone in Hi. by apply elem_of_empty in Hi.
  - by eapply has_symbol_index.
Qed.

(** X22: a second [chafa_symbol_map_prepare] does nothing. Whenever a
    call returns, a call on the map and the heap that it leaves gives
    back that map and that heap: the rebuild runs once for each change
    of the selection, however often the map is prepared. *)
Theorem prepare_twice_is_prepare_once symbol_map h symbol_map' h' :
  chafa_symbol_map_prepare chafa_symbols symbol_map h = Done symbol_map' h' →
  need_rebuild symbol_map' = false ∧
  chafa_symbol_map_prepare chafa_symbols symbol_map' h' = Done symbol_map' h'.
Proof.
  unfold chafa_symbol_map_prepare.
  destruct (need_rebuild symbol_map) eqn:Hdirty; cbn [negb].
  - unfold rebuild_symbols. intros Hrun.
    repeat (apply bind_inv in Hrun as (? & ? & _ & Hrun)).
    injection Hrun as <- <-. done.
  - intros [= <- <-]. by rewrite Hdirty.
Qed.

(** X23: a copy answers as its source. After
    [chafa_symbol_map_copy_contents] from a map that satisfies the
    invariant of this file's maps, once [chafa_symbol_map_prepare] has
    run on the copy and on the source, in the same heap,
    [chafa_symbol_map_has_symbol] returns for every codepoint the same
    answer on the one and on the other. *)
Theorem copy_answers_as_source src h :
  map_inv chafa_symbols src h →
  ∃ dest h1 dest' h2 src' h3,
    chafa_symbol_map_copy_contents src h = Done dest h1 ∧
    chafa_symbol_map_prepare chafa_symbols dest h1 = Done dest' h2 ∧
    chafa_symbol_map_prepare chafa_symbols src h2 = Done src' h3 ∧
    selection dest' h3 = selection src h ∧
    selection src' h3 = selection src h ∧
    ∀ symbol,
      ∃ found,
        chafa_symbol_map_has_symbol dest' symbol h3 = Done found h3 ∧
        chafa_symbol_map_has_symbol src' symbol h3 = Done found h3.
Proof.
  intros Hinv.
  assert (∃ dest h1, chafa_symbol_map_copy_contents src h = Done dest h1)
    as (dest & h1 & Hcopy).
  { rewrite chafa_symbol_map_copy_contents_live by apply Hinv. by eexists _, _. }
  destruct (copy_contents_separate chafa_symbols _ _ _ _ Hinv Hcopy)
    as (Hdest & Hsrc & Hsep & Hsel_dest & Hsel_src & _).
  destruct (prepare_inv chafa_symbols _ _ Hdest)
    as (dest' & h2 & Hprep_dest & Hclean_dest & Htables2 & Hdesired2 & _ & _).
  destruct (run_call_frame (tv := tv) chafa_symbols Prepare _ _ _ _ _ Hdest Hsrc Hsep
              Hprep_dest) as (Hdest' & Hsrc2 & Hsep2 & Hsel_src2 & _).
  destruct (prepare_inv chafa_symbols _ _ Hsrc2)
    as (src' & h3 & Hprep_src & Hclean_src & Htables3 & Hdesired3 & _ & _).
  destruct (run_call_frame (tv := tv) chafa_symbols Prepare _ _ _ _ _ Hsrc2 Hdest'
              (separate_sym _ _ _ Hsep2) Hprep_src)
    as (Hsrc' & Hdest3 & _ & Hsel_dest3 & _).
  assert (selection dest' h2 = selection dest h1) as Hsel_dest2.
  { unfold selection. by rewrite Hdesired2, Htables2. }
  assert (selection src' h3 = selection src h2) as Hsel_src3.
  { unfold selection. by rewrite Hdesired3, Htables3. }
  exists dest, h1, dest', h2, src', h3. split_and!; try done.
  - congruence.
  - congruence.
  - intros symbol.
    destruct (has_symbol_clean dest' h3 symbol Hdest3 Hclean_dest)
      as (found_dest & Hrun_dest & Hfound_dest).
    destruct (has_symbol_clean src' h3 symbol Hsrc' Hclean_src)
      as (found_src & Hrun_src & Hfound_src).
    exists found_dest. split; [done|]. rewrite Hrun_src. f_equal.
    assert (selection dest' h3 = selection src' h3) as Hsame by congruence.
    rewrite Hsame in Hfound_dest.
    destruct found_dest, found_src; try done.
    + by apply Hfound_src, Hfound_dest.
    + symmetry. by apply Hfound_dest, Hfound_src.
Qed.

(** X24: from a tag name to the lookup. On a map that satisfies the
    invariant of this file's maps and holds a reference, applying a
    name of the vocabulary with no sign, and nothing but separators
    after it, and then preparing the map, both return; after them
    [chafa_symbol_map_has_symbol] is TRUE for a codepoint exactly when
    the catalog has, before its first entry of codepoint 0, an entry
    with that codepoint whose tag mask shares a bit with the tag of the
    name. What the map selected before plays no part. *)
Theorem select_by_name_then_has_symbol row rest symbol_map h :
  row ∈ map →
  no_clauses rest = true →
  0 < refs symbol_map →
  map_inv chafa_symbols symbol_map h →
  ∃ symbol_map1 h1 symbol_map2 h2,
    chafa_symbol_map_apply_selectors chafa_symbols symbol_map (row.1 +:+ rest) h
    = Done (true, None, symbol_map1) h1 ∧
    chafa_symbol_map_prepare chafa_symbols symbol_map1 h1 = Done symbol_map2 h2 ∧
    ∀ symbol,
      ∃ found,
        chafa_symbol_map_has_symbol symbol_map2 symbol h2 = Done found h2 ∧
        (found = true ↔
         ∃ i sym, (i < catalog_size chafa_symbols)%nat ∧
                  chafa_symbols !! i = Some sym ∧
                  Z.land (sc sym) row.2 ≠ 0 ∧ c sym = symbol).
Proof.
  intros Hrow Hno Hrefs Hinv.
  destruct (vocabulary_name row rest Hrow) as (Hname & Hlen & Htag).
  clear Hrow. destruct row as [name tag]. cbn [fst snd] in *.
  pose proof (scan_clause_unsigned name rest (initial_state "") Hname Hlen
                (no_clauses_no_letter _ Hno)) as Hscan.
  cbn [initial_state is_add is_remove new_syms] in Hscan. rewrite Htag in Hscan.
  assert (∃ st,
    parse_loop chafa_symbols (S (String.length (name +:+ rest)))
      symbol_map (initial_state (name +:+ rest)) h
    = Done (st, None)
           (set_tables (<[fresh (dom (hash_tables h)) :=
                            entries_matching chafa_symbols tag]> (hash_tables h)) h) ∧
    new_syms st = Some (fresh (dom (hash_tables h)))) as (st & Hloop & Hsyms).
  { rewrite parse_loop_S.
    assert (at_nul (p0 (initial_state (name +:+ rest))) = false) as ->.
    { cbn [p0 initial_state]. destruct name as [|ch name]; [simpl in Hlen; lia|].
      change (String ch name +:+ rest) with (String ch (name +:+ rest)).
      unfold at_nul. cbn [deref]. cbn [strspn] in Hname.
      revert Hname. by destruct (code ch =? 0). }
    unfold initial_state at 1. rewrite Hscan.
    erewrite bind_done; [|by apply dispatch_reset_none].
    assert (∃ n, String.length (name +:+ rest) = S n) as [n ->].
    { destruct name as [|ch name]; [simpl in Hlen; lia|]. by eexists. }
    by apply parse_loop_no_clauses. }
  pose proof (parse_selectors_selection _ _ _ _ _ _ (inv_table _ _ _ Hinv) Hloop)
    as (symbol_map1 & h1 & Hrun & Hdirty & Hsel1).
  unfold scratch_keys in Hsel1. rewrite Hsyms in Hsel1. simpl in Hsel1.
  rewrite lookup_insert_eq in Hsel1. simpl in Hsel1.
  assert (chafa_symbol_map_apply_selectors chafa_symbols symbol_map (name +:+ rest) h
          = Done (true, None, symbol_map1) h1) as Happly.
  { unfold chafa_symbol_map_apply_selectors.
    replace (refs symbol_map >? 0) with true by (symmetry; apply Z.gtb_lt; lia).
    done. }
  destruct (apply_selectors_inv _ _ _ _ _ _ _ Hinv Happly) as [Hinv1 _].
  destruct (prepare_inv chafa_symbols _ _ Hinv1)
    as (symbol_map2 & h2 & Hprep & Hclean & Htables & Hdesired & _ & Hinv2).
  exists symbol_map1, h1, symbol_map2, h2. split_and!; try done.
  intros symbol.
  destruct (has_symbol_clean symbol_map2 h2 symbol Hinv2 Hclean)
    as (found & Hfound & Hiff).
  exists found. split; [done|]. rewrite Hiff.
  assert (selection symbol_map2 h2 = entries_matching chafa_symbols tag) as ->.
  { rewrite <- Hsel1. unfold selection. by rewrite Hdesired, Htables. }
  split.
  - intros (i & sym & Hi & Hsym & Hc).
    apply elem_of_entries_matching in Hi as (Hlt & sym' & Hsym' & Hland).
    exists i, sym. split_and!; try done. congruence.
  - intros (i & sym & Hlt & Hsym & Hland & Hc). exists i, sym. split_and!; try done.
    apply elem_of_entries_matching. split; [done|]. by exists sym.
Qed.
End SelectorToLookup.

(** ** The row that the lookup of a tag name takes *)

Section FirstRow.
Context {tv : TagValues}.

Lemma parse_symbol_tag_from_first rows name len sc :
  parse_symbol_tag_from rows name len = Some sc ↔
  ∃ before row after,
    rows = before ++ row :: after ∧ row.2 = sc ∧
    lower_slice len row.1 = lower_slice len name ∧
    ∀ r, r ∈ before → lower_slice len r.1 ≠ lower_slice len name.
Proof.
  induction rows as [|[row_name row_sc] rows IH]; simpl.
  { split; [done|]. intros (before & row & after & Heq & _). by destruct before. }
  destruct (Z.eqb_spec (g_ascii_strncasecmp row_name name len) 0) as [Hcmp|Hcmp];
    rewrite g_ascii_strncasecmp_zero in Hcmp.
  - split.
    + intros [= <-]. exists [], (row_name, row_sc), rows. split_and!; try done.
      intros r Hr. by apply elem_of_nil in Hr.
    + intros (before & row & after & Heq & Hsc & Hlow & Hbefore).
      destruct before as [|b before]; simpl in Heq; injection Heq as <- ->.
      * by rewrite <- Hsc.
      * exfalso. by apply (Hbefore (row_name, row_sc)); [apply list_elem_of_here|].
  - rewrite IH. split.
    + intros (before & row & after & -> & Hsc & Hlow & Hbefore).
      exists ((row_name, row_sc) :: before), row, after. split_and!; try done.
      intros r [->|Hr]%elem_of_cons; [done|]. by apply Hbefore.
    + intros (before & row & after & Heq & Hsc & Hlow & Hbefore).
      destruct before as [|b before]; simpl in Heq; injection Heq as <- ->.
      * done.
      * exists before, row, after. split_and!; try done.
        intros r Hr. apply Hbefore. by apply list_elem_of_further.
Qed.

(** X25: [parse_symbol_tag] takes the first row of its table, in the
    order in which the table is written, whose name agrees with the
    slice on its first [len] characters, up to the case of ASCII
    letters, and returns the tag of that row; it fails exactly when no
    row agrees, and the message of its error quotes the slice as it
    was given. *)
Theorem parse_symbol_tag_first_match name len :
  (∀ sc,
     parse_symbol_tag name len = inl sc ↔
     ∃ before row after,
       map = before ++ row :: after ∧ row.2 = sc ∧
       lower_slice len row.1 = lower_slice len name ∧
       ∀ r, r ∈ before → lower_slice len r.1 ≠ lower_slice len name) ∧
  (∀ error,
     parse_symbol_tag name len = inr error ↔
     error = G_OPTION_ERROR_BAD_VALUE
               ("Unrecognized symbol tag '" +:+ slice len name +:+ "'.") ∧
     ∀ row, row ∈ map → lower_slice len row.1 ≠ lower_slice len name).
Proof.
  unfold parse_symbol_tag. split.
  - intros sc. rewrite <- parse_symbol_tag_from_first.
    destruct (parse_symbol_tag_from map name len); split; congruence.
  - intros error.
    pose proof (parse_symbol_tag_from_accepts map name len) as Haccepts.
    destruct (parse_symbol_tag_from map name len) as [sc|].
    + split; [done|]. intros [_ Hnone].
      destruct (proj1 Haccepts) as (row & Hrow & Hlow); [by eexists|].
      by destruct (Hnone row Hrow).
    + split.
      * intros [= <-]. split; [done|]. intros row Hrow Hlow.
        destruct (proj2 Haccepts) as [? ?]; [by exists row|done].
      * by intros [-> _].
Qed.
End FirstRow.

(** ** Separators, and the sign of a clause *)

Lemma length_string_app (s1 s2 : string) :
  String.length (s1 +:+ s2) = (String.length s1 + String.length s2)%nat.
Proof. induction s1 as [|ch s1 IH]; simpl; [done|]. by rewrite IH. Qed.

Lemma advance_add a b p : advance (a + b) p = advance b (advance a p).
Proof.
  revert p. induction a as [|a IH]; intros p; [done|].
  destruct p as [|ch p]; simpl; [by destruct b|]. apply IH.
Qed.

Lemma no_clauses_strspn seps : no_clauses seps = true → strspn seps " ," = String.length seps.
Proof.
  induction seps as [|ch seps IH]; [done|]. simpl.
  intros [Hch Hrest]%andb_true_iff. rewrite (IH Hrest).
  by apply orb_true_iff in Hch as [->%Ascii.eqb_eq| ->%Ascii.eqb_eq].
Qed.

Lemma advance_strspn_app seps p accept :
  strspn seps accept = String.length seps →
  advance (strspn (seps +:+ p) accept) (seps +:+ p) = advance (strspn p accept) p.
Proof.
  intros Hseps. rewrite (strspn_app _ _ _ Hseps), advance_add. by rewrite advance_app.
Qed.

Section Separators.
Context {tv : TagValues}.
Variable chafa_symbols : list ChafaSymbol.

(** Once the bound of the loop is above the length of what is left of
    the string, its value plays no part. *)
Lemma parse_loop_fuel fuel1 fuel2 symbol_map st h :
  (String.length (p0 st) < fuel1)%nat →
  (String.length (p0 st) < fuel2)%nat →
  parse_loop chafa_symbols fuel1 symbol_map st h
  = parse_loop chafa_symbols fuel2 symbol_map st h.
Proof.
  revert fuel2 st h. induction fuel1 as [|fuel1 IH]; intros fuel2 st h H1 H2; [lia|].
  destruct fuel2 as [|fuel2]; [lia|]. rewrite !parse_loop_S.
  destruct (at_nul (p0 st)); [done|].
  pose proof (scan_clause_shorter st) as Hshort.
  destruct (scan_clause st) as [st1|st1 e|st1 sc]; [done|done|].
  specialize (Hshort _ _ eq_refl). unfold bind.
  destruct (dispatch chafa_symbols symbol_map st1 sc h) as [flow h1| |] eqn:Hd;
    [|done..].
  apply dispatch_flow in Hd as (st2 & -> & Hp). apply IH; rewrite Hp; lia.
Qed.

(** The scan starts by stepping over separators: more of them before the
    clause make no difference to it. *)
Lemma scan_clause_separators seps p a r n :
  no_clauses seps = true →
  scan_clause (mkParseState (seps +:+ p) a r n) = scan_clause (mkParseState p a r n).
Proof.
  intros Hno. unfold scan_clause. cbn [p0 is_add is_remove new_syms].
  by rewrite (advance_strspn_app seps p " ," (no_clauses_strspn _ Hno)).
Qed.

Lemma parse_loop_separators seps p a r n symbol_map h :
  no_clauses seps = true →
  parse_loop chafa_symbols (S (String.length (seps +:+ p))) symbol_map
             (mkParseState (seps +:+ p) a r n) h
  = parse_loop chafa_symbols (S (String.length p)) symbol_map (mkParseState p a r n) h.
Proof.
  intros Hno. destruct seps as [|ch seps]; [done|].
  rewrite !parse_loop_S. cbn [p0].
  assert (at_nul (String ch seps +:+ p) = false) as ->.
  { simpl in Hno. apply andb_true_iff in Hno as [Hch _].
    by apply orb_true_iff in Hch as [->%Ascii.eqb_eq| ->%Ascii.eqb_eq]. }
  rewrite (scan_clause_separators _ _ _ _ _ Hno).
  destruct (at_nul p) eqn:Hnul.
  - unfold scan_clause. cbn [p0 is_add is_remove new_syms].
    assert (strspn p " ," = O) as ->.
    { destruct p as [|ch' p]; [done|]. unfold at_nul in Hnul. simpl in *.
      by rewrite Hnul. }
    cbn [advance]. by rewrite Hnul.
  - pose proof (scan_clause_shorter (mkParseState p a r n)) as Hshort.
    destruct (scan_clause (mkParseState p a r n)) as [st1|st1 e|st1 sc]; [done|done|].
    specialize (Hshort _ _ eq_refl). cbn [p0] in Hshort. unfold bind.
    destruct (dispatch chafa_symbols symbol_map st1 sc h) as [flow h1| |] eqn:Hd;
      [|done..].
    apply dispatch_flow in Hd as (st2 & -> & Hp).
    apply parse_loop_fuel; rewrite Hp; [|done].
    change (String ch seps +:+ p) with (String ch (seps +:+ p)). simpl.
    rewrite length_string_app. lia.
Qed.

(** After a sign the scan steps over spaces. *)
Lemma scan_clause_sign_spaces (sign : ascii) spaces p a r n :
  sign = "+"%char ∨ sign = "-"%char →
  strspn spaces " " = String.length spaces →
  scan_clause (mkParseState (String sign (spaces +:+ p)) a r n)
  = scan_clause (mkParseState (String sign p) a r n).
Proof.
  intros Hsign Hspaces. unfold scan_clause. cbn [p0 is_add is_remove new_syms].
  assert (∀ q, strspn (String sign q) " ," = O) as Hsep
    by (by destruct Hsign as [-> | ->]).
  rewrite !Hsep. cbn [advance].
  assert (∀ q, at_nul (String sign q) = false) as Hnul
    by (by destruct Hsign as [-> | ->]).
  rewrite !Hnul. cbn [deref].
  destruct Hsign as [-> | ->]; cbn [Ascii.eqb Bool.eqb andb p0 is_add is_remove new_syms advance];
    by rewrite (advance_strspn_app spaces p " " Hspaces).
Qed.

(** X26: separators before a clause and spaces after a sign are stepped
    over. Spaces and commas in any number put before a selector string
    leave the outcome of [chafa_symbol_map_apply_selectors] as it is, on
    every map and in every heap; so do spaces put between a sign at the
    head of the string and what follows it; and from any state of the
    parser's loop, with any mode and any scratch table, separators put
    before what is left of the string leave the result of the loop as
    it is. *)
Theorem separators_are_skipped seps spaces (sign : ascii) selectors symbol_map h :
  no_clauses seps = true →
  strspn spaces " " = String.length spaces →
  sign = "+"%char ∨ sign = "-"%char →
  chafa_symbol_map_apply_selectors chafa_symbols symbol_map (seps +:+ selectors) h
  = chafa_symbol_map_apply_selectors chafa_symbols symbol_map selectors h ∧
  chafa_symbol_map_apply_selectors chafa_symbols symbol_map
    (String sign (spaces +:+ selectors)) h
  = chafa_symbol_map_apply_selectors chafa_symbols symbol_map (String sign selectors) h ∧
  ∀ p is_add is_remove new_syms h1,
    parse_loop chafa_symbols (S (String.length (seps +:+ p))) symbol_map
               (mkParseState (seps +:+ p) is_add is_remove new_syms) h1
    = parse_loop chafa_symbols (S (String.length p)) symbol_map
                 (mkParseState p is_add is_remove new_syms) h1.
Proof.
  intros Hno Hspaces Hsign. split_and!.
  - unfold chafa_symbol_map_apply_selectors, parse_selectors.
    destruct (negb (refs symbol_map >? 0)); [done|].
    unfold bind at 1 3. by rewrite parse_loop_separators.
  - unfold chafa_symbol_map_apply_selectors, parse_selectors.
    destruct (negb (refs symbol_map >? 0)); [done|].
    unfold bind at 1 3. rewrite !parse_loop_S. cbn [p0].
    assert (∀ q, at_nul (String sign q) = false) as Hnul
      by (by destruct Hsign as [-> | ->]).
    rewrite !Hnul. rewrite (scan_clause_sign_spaces _ _ _ _ _ _ Hsign Hspaces).
    pose proof (scan_clause_shorter (mkParseState (String sign selectors) false false None))
      as Hshort.
    destruct (scan_clause _) as [st1|st1 e|st1 sc]; [done|done|].
    specialize (Hshort _ _ eq_refl). cbn [p0 String.length] in Hshort. unfold bind.
    destruct (dispatch chafa_symbols symbol_map st1 sc h) as [flow h1| |] eqn:Hd;
      [|done..].
    apply dispatch_flow in Hd as (st2 & -> & Hp).
    erewrite parse_loop_fuel; [reflexivity|rewrite Hp..].
    + cbn [String.length]. rewrite length_string_app. lia.
    + cbn [String.length]. lia.
  - intros p a r n h1. by apply parse_loop_separators.
Qed.

(** X27: a sign has to be followed by a tag name or by the end of the
    string. When, after the sign and the spaces that follow it, the
    string goes on with a character that is not a letter, as in
    ["+,block"], ["+-block"] or ["- 8"], the call returns with the
    error of a syntax error stored, and with the map and the heap as
    they were, whether the map has a table or not. *)
Theorem sign_needs_a_name (sign : ascii) rest symbol_map h :
  sign = "+"%char ∨ sign = "-"%char →
  at_nul (advance (strspn rest " ") rest) = false →
  strspn (advance (strspn rest " ") rest) letters = O →
  0 < refs symbol_map →
  chafa_symbol_map_apply_selectors chafa_symbols symbol_map (String sign rest) h
  = Done (true,
          Some (G_OPTION_ERROR_BAD_VALUE "Syntax error in symbol tag selectors."),
          symbol_map) h.
Proof.
  intros Hsign Hnul Hletters Hrefs.
  unfold chafa_symbol_map_apply_selectors.
  replace (refs symbol_map >? 0) with true by (symmetry; apply Z.gtb_lt; lia).
  cbn [negb]. unfold parse_selectors.
  assert (∃ st,
    parse_loop chafa_symbols (S (String.length (String sign rest))) symbol_map
               (mkParseState (String sign rest) false false None) h
    = Done (st, Some (G_OPTION_ERROR_BAD_VALUE "Syntax error in symbol tag selectors.")) h
    ∧ new_syms st = None) as (st & Hloop & Hsyms).
  { rewrite parse_loop_S. cbn [p0].
    assert (at_nul (String sign rest) = false) as ->
      by (by destruct Hsign as [-> | ->]).
    unfold scan_clause. cbn [p0 is_add is_remove new_syms].
    assert (strspn (String sign rest) " ," = O) as ->
      by (by destruct Hsign as [-> | ->]).
    cbn [advance].
    assert (at_nul (String sign rest) = false) as ->
      by (by destruct Hsign as [-> | ->]).
    cbn [deref]. fold letters.
    destruct Hsign as [-> | ->];
      cbn [Ascii.eqb Bool.eqb andb p0 is_add is_remove new_syms advance];
      rewrite Hnul, Hletters; by eexists. }
  rewrite (bind_done _ _ _ _ _ Hloop). by rewrite Hsyms.
Qed.
End Separators.

(** ** The sentinel of the derived index *)

Lemma catalog_entry_nonzero (chafa_symbols : list ChafaSymbol) i sym :
  (i < catalog_size chafa_symbols)%nat →
  chafa_symbols !! i = Some sym →
  c sym ≠ 0.
Proof.
  unfold catalog_size. revert i.
  induction chafa_symbols as [|sym' syms IH]; intros i Hi Hsym; simpl in *; [lia|].
  destruct (c sym' =? 0) eqn:Hc; [lia|]. apply Z.eqb_neq in Hc.
  destruct i as [|i]; [by injection Hsym as <-|]. apply (IH i); [lia|done].
Qed.

(** X28: the sentinel is never found. The array that
    [rebuild_symbols] builds ends with an entry of codepoint 0, and the
    loop of [chafa_symbol_map_has_symbol] stops before it: on a map that
    satisfies the invariant of this file's maps and has [need_rebuild]
    FALSE, the lookup of codepoint 0 returns FALSE, and so does the
    lookup of any codepoint on a map that selects nothing. *)
Theorem has_symbol_never_finds_sentinel
    (chafa_symbols : list ChafaSymbol) symbol_map h :
  map_inv chafa_symbols symbol_map h →
  need_rebuild symbol_map = false →
  chafa_symbol_map_has_symbol symbol_map 0 h = Done false h ∧
  (selection symbol_map h = ∅ →
   ∀ symbol, chafa_symbol_map_has_symbol symbol_map symbol h = Done false h).
Proof.
  intros Hinv Hclean. split.
  - destruct (has_symbol_clean chafa_symbols symbol_map h 0 Hinv Hclean)
      as (found & Hrun & Hfound).
    destruct found; [|done]. exfalso.
    destruct (proj1 Hfound eq_refl) as (i & sym & Hi & Hsym & Hc).
    apply (catalog_entry_nonzero chafa_symbols i sym); [|done..].
    by apply (inv_valid _ _ _ Hinv).
  - intros Hempty symbol.
    destruct (has_symbol_clean chafa_symbols symbol_map h symbol Hinv Hclean)
      as (found & Hrun & Hfound).
    destruct found; [|done]. exfalso.
    destruct (proj1 Hfound eq_refl) as (i & sym & Hi & _).
    rewrite Hempty in Hi. by apply elem_of_empty in Hi.
Qed.

(** ** The further properties on the sample catalog *)

Lemma add_by_tags_selects_matching_witness :
  ∃ symbol_map' h',
    chafa_symbol_map_add_by_tags sample_symbols sample_map 8 sample_heap
    = Done symbol_map' h' ∧
    need_rebuild symbol_map' = true ∧
    refs symbol_map' = refs sample_map ∧
    symbols symbol_map' = symbols sample_map ∧
    n_symbols symbol_map' = n_symbols sample_map ∧
    symbol_arrays h' = symbol_arrays sample_heap ∧
    (∀ p, desired_symbols symbol_map' ≠ Some p →
          hash_tables h' !! p = hash_tables sample_heap !! p) ∧
    ∀ i, i ∈ selection symbol_map' h' ↔
         i ∈ selection sample_map sample_heap ∨
         ((i < catalog_size sample_symbols)%nat ∧
          ∃ sym, sample_symbols !! i = Some sym ∧ Z.land (sc sym) 8 ≠ 0).
Proof.
  apply (add_by_tags_selects_matching sample_symbols sample_map 8 sample_heap).
  - reflexivity.
  - vm_compute. eexists. reflexivity.
Defined.

Lemma remove_by_tags_deselects_matching_witness :
  ∃ symbol_map' h',
    chafa_symbol_map_remove_by_tags sample_symbols sample_map 2 sample_heap_blocks
    = Done symbol_map' h' ∧
    need_rebuild symbol_map' = true ∧
    refs symbol_map' = refs sample_map ∧
    symbols symbol_map' = symbols sample_map ∧
    n_symbols symbol_map' = n_symbols sample_map ∧
    symbol_arrays h' = symbol_arrays sample_heap_blocks ∧
    (∀ p, desired_symbols symbol_map' ≠ Some p →
          hash_tables h' !! p = hash_tables sample_heap_blocks !! p) ∧
    ∀ i, i ∈ selection symbol_map' h' ↔
         i ∈ selection sample_map sample_heap_blocks ∧
         ¬ ((i < catalog_size sample_symbols)%nat ∧
            ∃ sym, sample_symbols !! i = Some sym ∧ Z.land (sc sym) 2 ≠ 0).
Proof.
  apply (remove_by_tags_deselects_matching sample_symbols sample_map 2 sample_heap_blocks).
  - reflexivity.
  - vm_compute. eexists. reflexivity.
Defined.

Lemma tags_combine_by_or_witness :
  chafa_symbol_map_add_by_tags sample_symbols sample_map (Z.lor 8 16) sample_heap
  = (let* symbol_map1 := chafa_symbol_map_add_by_tags sample_symbols sample_map 8 in
     chafa_symbol_map_add_by_tags sample_symbols symbol_map1 16) sample_heap ∧
  chafa_symbol_map_remove_by_tags sample_symbols sample_map (Z.lor 8 16) sample_heap
  = (let* symbol_map1 := chafa_symbol_map_remove_by_tags sample_symbols sample_map 8 in
     chafa_symbol_map_remove_by_tags sample_symbols symbol_map1 16) sample_heap.
Proof.
  apply (tags_combine_by_or sample_symbols sample_map 8 16 sample_heap).
  - reflexivity.
  - vm_compute. eexists. reflexivity.
Defined.

Lemma add_remove_last_call_decides_witness :
  (let* symbol_map1 := chafa_symbol_map_add_by_tags sample_symbols sample_map 8 in
   chafa_symbol_map_remove_by_tags sample_symbols symbol_map1 8) sample_heap_blocks
  = chafa_symbol_map_remove_by_tags sample_symbols sample_map 8 sample_heap_blocks ∧
  (let* symbol_map1 := chafa_symbol_map_remove_by_tags sample_symbols sample_map 8 in
   chafa_symbol_map_add_by_tags sample_symbols symbol_map1 8) sample_heap_blocks
  = chafa_symbol_map_add_by_tags sample_symbols sample_map 8 sample_heap_blocks.
Proof.
  apply (add_remove_last_call_decides sample_symbols sample_map 8 sample_heap_blocks).
  - reflexivity.
  - vm_compute. eexists. reflexivity.
Defined.

Lemma apply_selectors_replaces_table_witness :
  let after :=
    {| refs := 1; need_rebuild := true; desired_symbols := Some 2%positive;
       symbols := None; n_symbols := O |} in
  let h' := mkHeap {[ 2%positive := {[ 1%nat; 3%nat ]} ]} ∅ in
  true = true ∧
  need_rebuild after = true ∧
  refs after = refs sample_map ∧
  symbols after = symbols sample_map ∧
  n_symbols after = n_symbols sample_map ∧
  symbol_arrays h' = symbol_arrays sample_heap ∧
  table_live after h' ∧
  (∀ p, desired_symbols after = Some p → hash_tables sample_heap !! p = None) ∧
  (∀ p, desired_symbols sample_map = Some p → hash_tables h' !! p = None) ∧
  (∀ p, desired_symbols sample_map ≠ Some p → desired_symbols after ≠ Some p →
        hash_tables h' !! p = hash_tables sample_heap !! p).
Proof.
  apply (apply_selectors_replaces_table (tv := sample_tags) sample_symbols
           sample_map "block" sample_heap true).
  - reflexivity.
  - vm_compute. eexists. reflexivity.
  - vm_compute. reflexivity.
Defined.

Lemma unsigned_first_clause_forgets_selection_witness :
  ∃ keys,
    ∀ symbol_map h,
      0 < refs symbol_map →
      table_live symbol_map h →
      ∃ symbol_map' h',
        chafa_symbol_map_apply_selectors (tv := sample_tags) sample_symbols
          symbol_map "block,border-dot" h
        = Done (true, selectors_error (tv := sample_tags) "block,border-dot", symbol_map')
               h' ∧
        (selectors_error (tv := sample_tags) "block,border-dot" = None →
         need_rebuild symbol_map' = true ∧ selection symbol_map' h' = keys).
Proof.
  apply (unsigned_first_clause_forgets_selection (tv := sample_tags) sample_symbols
           "block,border-dot").
  reflexivity.
Defined.

Lemma signed_clause_as_by_tags_witness :
  ∃ symbol_map1 h1 symbol_map2 h2,
    chafa_symbol_map_apply_selectors (tv := sample_tags) sample_symbols sample_map
      "+border, " sample_heap = Done (true, None, symbol_map1) h1 ∧
    chafa_symbol_map_add_by_tags sample_symbols sample_map 16 sample_heap
    = Done symbol_map2 h2 ∧
    selection symbol_map1 h1 = selection symbol_map2 h2 ∧
    need_rebuild symbol_map1 = true ∧ need_rebuild symbol_map2 = true.
Proof.
  apply (signed_clause_as_by_tags (tv := sample_tags) sample_symbols "+"
           ("border"%string, 16) ", " sample_map sample_heap).
  - left. reflexivity.
  - apply (bool_decide_unpack _). vm_compute. exact I.
  - reflexivity.
  - reflexivity.
  - eexists. reflexivity.
  - vm_compute. eexists. reflexivity.
Defined.

Lemma foreign_character_rejected_witness :
  ∃ error,
    selectors_error (tv := sample_tags) "block;border" = Some error ∧
    chafa_symbol_map_apply_selectors (tv := sample_tags) sample_symbols
      sample_map "block;border" sample_heap
    = Done (true, Some error, sample_map) sample_heap.
Proof.
  apply (foreign_character_rejected (tv := sample_tags) sample_symbols
           sample_map "block;border" sample_heap).
  - reflexivity.
  - vm_compute. eexists. reflexivity.
  - reflexivity.
Defined.

Lemma has_symbol_stale_until_prepare_witness :
  let prepared :=
    {| refs := 1; need_rebuild := false; desired_symbols := Some 1%positive;
       symbols := Some 1%positive; n_symbols := 3 |} in
  let changed :=
    {| refs := 1; need_rebuild := true; desired_symbols := Some 1%positive;
       symbols := Some 1%positive; n_symbols := 3 |} in
  let index :=
    [ Some (mkSymbol 64 183); Some (mkSymbol 520 9600);
      Some (mkSymbol 10 9608); Some zero_symbol ] in
  let h := mkHeap {[ 1%positive := {[ 1%nat; 3%nat; 7%nat ]} ]} {[ 1%positive := index ]} in
  let h' :=
    mkHeap {[ 1%positive := {[ 1%nat; 3%nat; 4%nat; 5%nat; 6%nat; 7%nat ]} ]}
           {[ 1%positive := index ]} in
  chafa_symbol_map_has_symbol changed 9472 h'
  = match chafa_symbol_map_has_symbol prepared 9472 h with
    | Done found _ => Done found h'
    | Undefined => Undefined
    | OutOfFuel => OutOfFuel
    end.
Proof.
  apply (has_symbol_stale_until_prepare (tv := sample_tags) sample_symbols (AddByTags 16)).
  - reflexivity.
  - vm_compute. reflexivity.
Defined.

Lemma has_symbol_on_copy_undefined_witness :
  let prepared :=
    {| refs := 1; need_rebuild := false; desired_symbols := Some 1%positive;
       symbols := Some 1%positive; n_symbols := 3 |} in
  let copy :=
    {| refs := 1; need_rebuild := true; desired_symbols := Some 2%positive;
       symbols := None; n_symbols := 3 |} in
  let index :=
    [ Some (mkSymbol 64 183); Some (mkSymbol 520 9600);
      Some (mkSymbol 10 9608); Some zero_symbol ] in
  let h1 :=
    mkHeap {[ 1%positive := {[ 1%nat; 3%nat; 7%nat ]};
              2%positive := {[ 1%nat; 3%nat; 7%nat ]} ]} {[ 1%positive := index ]} in
  symbols copy = None ∧ n_symbols copy = n_symbols prepared ∧ need_rebuild copy = true ∧
  chafa_symbol_map_has_symbol copy 9600 h1 = Undefined.
Proof.
  apply (has_symbol_on_copy_undefined
           {| refs := 1; need_rebuild := false; desired_symbols := Some 1%positive;
              symbols := Some 1%positive; n_symbols := 3 |}
           (mkHeap {[ 1%positive := {[ 1%nat; 3%nat; 7%nat ]} ]}
                   {[ 1%positive := [ Some (mkSymbol 64 183); Some (mkSymbol 520 9600);
                                      Some (mkSymbol 10 9608); Some zero_symbol ] ]})).
  - simpl. lia.
  - vm_compute. reflexivity.
Defined.

Lemma ref_unref_round_trip_witness :
  refs (chafa_symbol_map_ref sample_map) = refs sample_map + 1 ∧
  chafa_symbol_map_unref (chafa_symbol_map_ref sample_map) sample_heap
  = Done (Some sample_map) sample_heap.
Proof.
  apply (ref_unref_round_trip sample_map sample_heap); reflexivity.
Defined.

Lemma new_calls_unref_restores_heap_witness :
  ∃ symbol_map h',
    run_calls (tv := sample_tags) sample_symbols
      [AddByTags 8; Prepare; ApplySelectors "+border"; ApplySelectors "b0rder"; Prepare]
      chafa_symbol_map_new empty_heap = Done symbol_map h' ∧
    refs symbol_map = 1 ∧
    chafa_symbol_map_unref symbol_map h' = Done None empty_heap.
Proof.
  eexists _, _. split; [vm_compute; reflexivity|].
  apply (new_calls_unref_restores_heap (tv := sample_tags) sample_symbols
           [AddByTags 8; Prepare; ApplySelectors "+border"; ApplySelectors "b0rder";
            Prepare] empty_heap).
  vm_compute. reflexivity.
Defined.

Lemma copy_calls_unref_restores_heap_witness :
  ∃ dest h1 dest' h2,
    chafa_symbol_map_copy_contents sample_map sample_heap = Done dest h1 ∧
    run_calls (tv := sample_tags) sample_symbols [AddByTags 8; Prepare] dest h1
    = Done dest' h2 ∧
    chafa_symbol_map_unref dest' h2 = Done None sample_heap.
Proof.
  eexists _, _, _, _. split; [vm_compute; reflexivity|].
  split; [vm_compute; reflexivity|].
  eapply (copy_calls_unref_restores_heap (tv := sample_tags) sample_symbols
            sample_map sample_heap _ _ [AddByTags 8; Prepare]).
  - apply sample_map_inv.
  - vm_compute. reflexivity.
  - vm_compute. reflexivity.
Defined.

Lemma deinit_twice_undefined_witness :
  ∃ h',
    chafa_symbol_map_deinit sample_map sample_heap = Done tt h' ∧
    (∀ p, desired_symbols sample_map = Some p → hash_tables h' !! p = None) ∧
    (∀ q, symbols sample_map = Some q → symbol_arrays h' !! q = None) ∧
    chafa_symbol_map_deinit sample_map h' = Undefined.
Proof.
  apply (deinit_twice_undefined sample_map sample_heap).
  - vm_compute. eexists. reflexivity.
  - exact I.
  - left. eexists. reflexivity.
Defined.

Lemma apply_selectors_false_only_without_reference_witness :
  let released :=
    {| refs := 0; need_rebuild := true; desired_symbols := Some 1%positive;
       symbols := None; n_symbols := O |} in
  ((false = false ↔
    (None : option ChafaSymbolMap) = None
    ∨ ∃ map_at, (None : option ChafaSymbolMap) = Some map_at ∧ refs map_at ≤ 0) ∧
   (false = false →
    None = (None : option GError) ∧ None = (None : option ChafaSymbolMap)
    ∧ sample_heap = sample_heap)) ∧
  ((false = false ↔
    Some released = None
    ∨ ∃ map_at, Some released = Some map_at ∧ refs map_at ≤ 0) ∧
   (false = false →
    None = (None : option GError) ∧ Some released = Some released
    ∧ sample_heap = sample_heap)).
Proof.
  split.
  - apply (apply_selectors_false_only_without_reference (tv := sample_tags)
             sample_symbols None "block" sample_heap false None None sample_heap).
    reflexivity.
  - apply (apply_selectors_false_only_without_reference (tv := sample_tags)
             sample_symbols
             (Some {| refs := 0; need_rebuild := true;
                      desired_symbols := Some 1%positive;
                      symbols := None; n_symbols := O |})
             "block" sample_heap).
    reflexivity.
Defined.

Lemma prepare_twice_is_prepare_once_witness :
  ∃ symbol_map' h',
    chafa_symbol_map_prepare sample_symbols sample_map sample_heap_blocks
    = Done symbol_map' h' ∧
    need_rebuild symbol_map' = false ∧
    chafa_symbol_map_prepare sample_symbols symbol_map' h' = Done symbol_map' h'.
Proof.
  eexists _, _. split; [vm_compute; reflexivity|].
  apply (prepare_twice_is_prepare_once sample_symbols sample_map sample_heap_blocks).
  vm_compute. reflexivity.
Defined.

Lemma copy_answers_as_source_witness :
  ∃ dest h1 dest' h2 src' h3,
    chafa_symbol_map_copy_contents sample_map sample_heap_blocks = Done dest h1 ∧
    chafa_symbol_map_prepare sample_symbols dest h1 = Done dest' h2 ∧
    chafa_symbol_map_prepare sample_symbols sample_map h2 = Done src' h3 ∧
    selection dest' h3 = selection sample_map sample_heap_blocks ∧
    selection src' h3 = selection sample_map sample_heap_blocks ∧
    ∀ symbol,
      ∃ found,
        chafa_symbol_map_has_symbol dest' symbol h3 = Done found h3 ∧
        chafa_symbol_map_has_symbol src' symbol h3 = Done found h3.
Proof.
  apply (copy_answers_as_source (tv := sample_tags) sample_symbols
           sample_map sample_heap_blocks).
  apply sample_blocks_inv.
Defined.

Lemma select_by_name_then_has_symbol_witness :
  ∃ symbol_map1 h1 symbol_map2 h2,
    chafa_symbol_map_apply_selectors (tv := sample_tags) sample_symbols sample_map
      "border, " sample_heap
    = Done (true, None, symbol_map1) h1 ∧
    chafa_symbol_map_prepare sample_symbols symbol_map1 h1 = Done symbol_map2 h2 ∧
    ∀ symbol,
      ∃ found,
        chafa_symbol_map_has_symbol symbol_map2 symbol h2 = Done found h2 ∧
        (found = true ↔
         ∃ i sym, (i < catalog_size sample_symbols)%nat ∧
                  sample_symbols !! i = Some sym ∧
                  Z.land (sc sym) 16 ≠ 0 ∧ c sym = symbol).
Proof.
  apply (select_by_name_then_has_symbol (tv := sample_tags) sample_symbols
           ("border"%string, 16) ", " sample_map sample_heap).
  - apply (bool_decide_unpack _). vm_compute. exact I.
  - reflexivity.
  - reflexivity.
  - apply sample_map_inv.
Defined.

Lemma separators_are_skipped_witness :
  chafa_symbol_map_apply_selectors (tv := sample_tags) sample_symbols sample_map
    (" ,, " +:+ "block,border") sample_heap
  = chafa_symbol_map_apply_selectors (tv := sample_tags) sample_symbols sample_map
      "block,border" sample_heap ∧
  chafa_symbol_map_apply_selectors (tv := sample_tags) sample_symbols sample_map
    (String "-" ("  " +:+ "block,border")) sample_heap
  = chafa_symbol_map_apply_selectors (tv := sample_tags) sample_symbols sample_map
      (String "-" "block,border") sample_heap ∧
  ∀ p is_add is_remove new_syms h1,
    parse_loop (tv := sample_tags) sample_symbols (S (String.length (" ,, " +:+ p)))
               sample_map (mkParseState (" ,, " +:+ p) is_add is_remove new_syms) h1
    = parse_loop (tv := sample_tags) sample_symbols (S (String.length p)) sample_map
                 (mkParseState p is_add is_remove new_syms) h1.
Proof.
  apply (separators_are_skipped (tv := sample_tags) sample_symbols
           " ,, " "  " "-" "block,border" sample_map sample_heap).
  - reflexivity.
  - reflexivity.
  - right. reflexivity.
Defined.

Lemma sign_needs_a_name_witness :
  chafa_symbol_map_apply_selectors (tv := sample_tags) sample_symbols
    chafa_symbol_map_new "+,block" empty_heap
  = Done (true,
          Some (G_OPTION_ERROR_BAD_VALUE "Syntax error in symbol tag selectors."),
          chafa_symbol_map_new) empty_heap.
Proof.
  apply (sign_needs_a_name (tv := sample_tags) sample_symbols "+" ",block"
           chafa_symbol_map_new empty_heap).
  - left. reflexivity.
  - reflexivity.
  - reflexivity.
  - reflexivity.
Defined.

(** The sample map, prepared on the heap of the two blocks and the
    middle dot, satisfies the invariant. *)
Lemma sample_prepared_inv :
  map_inv sample_symbols
    {| refs := 1; need_rebuild := false; desired_symbols := Some 1%positive;
       symbols := Some 1%positive; n_symbols := 3 |}
    (mkHeap {[ 1%positive := {[ 1%nat; 3%nat; 7%nat ]} ]}
            {[ 1%positive := [ Some (mkSymbol 64 183); Some (mkSymbol 520 9600);
                               Some (mkSymbol 10 9608); Some zero_symbol ] ]}).
Proof.
  destruct (prepare_inv sample_symbols _ _ sample_blocks_inv)
    as (prepared & h & Hrun & _ & _ & _ & _ & Hinv).
  assert (chafa_symbol_map_prepare sample_symbols sample_map sample_heap_blocks
          = Done {| refs := 1; need_rebuild := false; desired_symbols := Some 1%positive;
                    symbols := Some 1%positive; n_symbols := 3 |}
                 (mkHeap {[ 1%positive := {[ 1%nat; 3%nat; 7%nat ]} ]}
                    {[ 1%positive := [ Some (mkSymbol 64 183); Some (mkSymbol 520 9600);
                                       Some (mkSymbol 10 9608); Some zero_symbol ] ]}))
    as Hsample by (vm_compute; reflexivity).
  rewrite Hsample in Hrun. by injection Hrun as <- <-.
Defined.

Lemma has_symbol_never_finds_sentinel_witness :
  let prepared :=
    {| refs := 1; need_rebuild := false; desired_symbols := Some 1%positive;
       symbols := Some 1%positive; n_symbols := 3 |} in
  let h :=
    mkHeap {[ 1%positive := {[ 1%nat; 3%nat; 7%nat ]} ]}
           {[ 1%positive := [ Some (mkSymbol 64 183); Some (mkSymbol 520 9600);
                              Some (mkSymbol 10 9608); Some zero_symbol ] ]} in
  chafa_symbol_map_has_symbol prepared 0 h = Done false h ∧
  (selection prepared h = ∅ →
   ∀ symbol, chafa_symbol_map_has_symbol prepared symbol h = Done false h).
Proof.
  apply (has_symbol_never_finds_sentinel sample_symbols).
  - apply sample_prepared_inv.
  - reflexivity.
Defined.
